(** * SimpleNet: the sequential net executor of caffe2/core/net_simple.cc

    A shallow embedding of [SimpleNet::SimpleNet], [SimpleNet::Run],
    [SimpleNet::RunAsync] and [SimpleNet::TEST_Benchmark].

    Conventions of the embedding
    - [int] arguments are [Z]; loop counters that index vectors are [nat].
    - [float] is IEEE binary32 and [double] is IEEE binary64, both as
      [spec_float] with the operations of [SpecFloat] (round to nearest even).
    - Code that lives outside net_simple.cc (the constructor of the base
      class [NetBase], the operator factory, the operators' own [Run], the
      cost-inference registry, [Timer], [std::sort]) is taken as a parameter
      of the section that uses it.
    - [std::sort] is, besides, embedded as GNU libstdc++ 12 implements it
      (bits/stl_algo.h and bits/stl_heap.h), in [libstdcxx]; the executor
      is instantiated with it where the order of the listing matters.
    - A method of the net is a function from the state of the world (the
      workspace and the number of timer readings taken so far) to an outcome
      (a returned value or a thrown [EnforceNotMet]), the new state and the
      list of externally visible events it produced, in order.
    - [VLOG(1)] lines, the SDT trace points and [ProfiledRange] (the empty
      class of the build without CAFFE2_USE_NVTX) produce no event.
    - An operator's [Run] returns its success flag; it does not throw. *)

From Stdlib Require Import ZArith List String Bool Arith Lia.
From Stdlib Require Import Permutation Sorted OrderedTypeEx.
From Stdlib Require Import Floats.SpecFloat.
Import ListNotations.

Local Open Scope Z_scope.
Local Open Scope string_scope.
Local Open Scope list_scope.

(** ** Floating point *)

Definition is_finite (x : spec_float) : bool :=
  match x with
  | S754_zero _ | S754_finite _ _ _ => true
  | S754_infinity _ | S754_nan => false
  end.

Definition is_nan (x : spec_float) : bool :=
  match x with
  | S754_nan => true
  | _ => false
  end.

(** Rounds the value of [x] into the format [(prec, emax)]: the conversions
    between [float] and [double]. *)
Definition SFconvert (prec emax : Z) (x : spec_float) : spec_float :=
  match x with
  | S754_finite s m e => binary_normalize prec emax (cond_Zopp s (Zpos m)) e s
  | _ => x
  end.

(** [float] *)
Module F32.
Definition prec : Z := 24.
Definition emax : Z := 128.
Definition t : Type := spec_float.
Definition zero : t := S754_zero false.
Definition of_int (n : Z) : t := binary_normalize prec emax n 0 false.
Definition of_double (x : spec_float) : t := SFconvert prec emax x.
Definition add : t -> t -> t := SFadd prec emax.
Definition div : t -> t -> t := SFdiv prec emax.
(** [x > y] *)
Definition gtb (x y : t) : bool := SFltb y x.
End F32.

(** [double] *)
Module F64.
Definition prec : Z := 53.
Definition emax : Z := 1024.
Definition t : Type := spec_float.
Definition zero : t := S754_zero false.
Definition of_int (n : Z) : t := binary_normalize prec emax n 0 false.
Definition of_float (x : F32.t) : t := SFconvert prec emax x.
Definition add : t -> t -> t := SFadd prec emax.
Definition mul : t -> t -> t := SFmul prec emax.
Definition div : t -> t -> t := SFdiv prec emax.
Definition gtb (x y : t) : bool := SFltb y x.
(** The literals of the source.  [1.0e-9] and [1.0e-6] are the doubles
    nearest to 10^-9 and 10^-6, which is what the correctly rounded
    quotient of the exactly representable 1 and 10^9 (10^6) is. *)
Definition lit_1 : t := of_int 1.
Definition lit_100 : t := of_int 100.
Definition lit_1000 : t := of_int 1000.
Definition lit_1e_9 : t := div lit_1 (of_int 1000000000).
Definition lit_1e_6 : t := div lit_1 (of_int 1000000).
End F64.

(** ** Protocol buffer messages (caffe2.proto), the fields the executor reads *)

Record DeviceOption : Type := {
  device_type : Z;
  cuda_gpu_id : Z
}.

(** The default instance a getter returns for a message field that is not
    set. *)
Definition DeviceOption_default : DeviceOption :=
  {| device_type := 0; cuda_gpu_id := 0 |}.

Module OperatorDef.
Record t : Type := {
  input : list string;
  output : list string;
  name : string;
  type : string;
  device_option : option DeviceOption
}.
Definition has_device_option (d : t) : bool :=
  match device_option d with Some _ => true | None => false end.
(** [d.mutable_device_option()->CopyFrom(o)] *)
Definition set_device_option (d : t) (o : DeviceOption) : t :=
  {| input := input d; output := output d; name := name d; type := type d;
     device_option := Some o |}.
(** The default instance of the message. *)
Definition empty : t :=
  {| input := []; output := []; name := ""; type := "";
     device_option := None |}.
End OperatorDef.

Module NetDef.
Record t : Type := {
  name : string;
  op : list OperatorDef.t;
  device_option : option DeviceOption
}.
Definition has_device_option (n : t) : bool :=
  match device_option n with Some _ => true | None => false end.
Definition op_size (n : t) : nat := List.length (op n).
(** [n.device_option()] *)
Definition get_device_option (n : t) : DeviceOption :=
  match device_option n with Some o => o | None => DeviceOption_default end.
End NetDef.

(** ** Operators *)

Definition TensorShape : Type := list Z.

(** [OpSchema::Cost] *)
Record Cost : Type := {
  flops : Z;
  bytes_moved : Z;
  params_bytes : Z
}.

(** What [operator_def_] of an operator points to: a definition of its own
    (the copy the operator's constructor makes of the definition it is created
    from), or the [idx]-th operator definition inside the net definition, which
    the net and the operator then share. *)
Inductive def_ptr : Type :=
| OwnDef (d : OperatorDef.t)
| NetDefOp (idx : nat).

Module OperatorBase.
Record t (Workspace : Type) : Type := {
  operator_def_ : def_ptr;
  (** [Run()]: the success flag and the workspace it leaves *)
  Run : Workspace -> bool * Workspace;
  InputTensorShapes : Workspace -> list TensorShape
}.
Arguments operator_def_ {Workspace} _.
Arguments Run {Workspace} _ _.
Arguments InputTensorShapes {Workspace} _ _.

Definition set_debug_def {Workspace} (o : t Workspace) (p : def_ptr)
  : t Workspace :=
  {| operator_def_ := p; Run := Run o;
     InputTensorShapes := InputTensorShapes o |}.
End OperatorBase.

(** The net object: [name_] of [NetBase], the shared net definition and the
    operator list. *)
Record SimpleNet (Workspace : Type) : Type := {
  name_ : string;
  net_def_ : NetDef.t;
  operators_ : list (OperatorBase.t Workspace)
}.
Arguments name_ {Workspace} _.
Arguments net_def_ {Workspace} _.
Arguments operators_ {Workspace} _.

(** [op->debug_def()] *)
Definition debug_def {Workspace} (net_def : NetDef.t)
  (o : OperatorBase.t Workspace) : OperatorDef.t :=
  match OperatorBase.operator_def_ o with
  | OwnDef d => d
  | NetDefOp idx => nth idx (NetDef.op net_def) OperatorDef.empty
  end.

(** ** Outcomes, events and the execution monad *)

(** The [CAFFE_ENFORCE] failures of this file, with the values their messages
    carry, and the exceptions that reach the constructor from the code it
    calls: the operator factory and the constructor of the base class. *)
Inductive EnforceNotMet : Type :=
| WarmupRunsNegative (provided : Z)
| WarmupRunFailed (i : nat)
| MainRunsNegative (provided : Z)
| MainRunFailed (i : nat)
| OperatorHasFailed (op_name op_type : string)
| CannotCreateOperator (idx : nat)
| NetBaseFailed.

Inductive outcome (A : Type) : Type :=
| Returned (a : A)
| Threw (e : EnforceNotMet).
Arguments Returned {A} _.
Arguments Threw {A} _.

Inductive event : Type :=
| ObserverStart
| ObserverStop
| OperatorRun (idx : nat) (res : bool)
| OperatorResetEvent (idx : nat)
| LogError_OperatorFailed (d : OperatorDef.t)
| LogInfo (text : string)
| LogInfo_MainRunFinished (ms_per_iter : F32.t) (iters_per_second : F64.t)
| LogInfo_Operator (idx : nat) (print_name op_type : string)
    (ms_per_iter : F32.t) (gflop_gflops : option (F64.t * F64.t))
    (feature_mb param_mb : option F64.t)
| LogInfo_MetricRow (value : F64.t) (unit : string) (percent : F32.t)
    (op_type : string)
| LogInfo_MetricTotal (total : F32.t) (unit : string).

Section Monad.
Variable Workspace : Type.

Record world : Type := {
  workspace : Workspace;
  timer_reads : nat
}.

Record result (A : Type) : Type := {
  value : outcome A;
  after : world;
  log : list event
}.
Arguments value {A} _.
Arguments after {A} _.
Arguments log {A} _.

Definition M (A : Type) : Type := world -> result A.

Definition ret {A} (a : A) : M A :=
  fun s => {| value := Returned a; after := s; log := [] |}.

Definition bind {A B} (m : M A) (f : A -> M B) : M B :=
  fun s =>
    let r := m s in
    match value r with
    | Returned a =>
        let r' := f a (after r) in
        {| value := value r'; after := after r'; log := log r ++ log r' |}
    | Threw e => {| value := Threw e; after := after r; log := log r |}
    end.

Definition emit (e : event) : M unit :=
  fun s => {| value := Returned tt; after := s; log := [e] |}.

Definition throw {A} (e : EnforceNotMet) : M A :=
  fun s => {| value := Threw e; after := s; log := [] |}.

(** [CAFFE_ENFORCE(cond, ...)] *)
Definition CAFFE_ENFORCE (cond : bool) (e : EnforceNotMet) : M unit :=
  if cond then ret tt else throw e.
End Monad.

Arguments workspace {Workspace} _.
Arguments timer_reads {Workspace} _.
Arguments value {Workspace A} _.
Arguments after {Workspace A} _.
Arguments log {Workspace A} _.
Arguments ret {Workspace A} _ _.
Arguments bind {Workspace A B} _ _ _.
Arguments emit {Workspace} _ _.
Arguments throw {Workspace A} _ _.
Arguments CAFFE_ENFORCE {Workspace} _ _ _.

Declare Scope net_scope.
Notation "x <- m ;; k" := (bind m (fun x => k))
  (at level 61, m at next level, right associativity) : net_scope.
Notation "m ;;; k" := (bind m (fun _ => k))
  (at level 61, right associativity) : net_scope.
Local Open Scope net_scope.

(** ** [CaffeMap<string, float>] ([std::map]): entries in increasing key order *)

Definition CaffeMap : Type := list (string * F32.t).

(** [m[k] += v]: [operator[]] inserts [0] for a new key, then [v] is added. *)
Fixpoint CaffeMap_add (k : string) (v : F32.t) (m : CaffeMap) : CaffeMap :=
  match m with
  | [] => [(k, F32.add F32.zero v)]
  | (k', x) :: rest =>
      match String.compare k k' with
      | Eq => (k', F32.add x v) :: rest
      | Lt => (k, F32.add F32.zero v) :: m
      | Gt => (k', x) :: CaffeMap_add k v rest
      end
  end.

(** [v[idx] += x] on a [vector<float>]; the source only does it with
    [idx < v.size()], outside of which the vector is left as it is here. *)
Fixpoint vector_add_at (idx : nat) (x : F32.t) (v : list F32.t) : list F32.t :=
  match v, idx with
  | [], _ => []
  | y :: v', O => F32.add y x :: v'
  | y :: v', S idx' => y :: vector_add_at idx' x v'
  end.

(** [PairLargerThan(x, y)] *)
Definition PairLargerThan {A : Type} (x y : A * F32.t) : bool :=
  F32.gtb (snd x) (snd y).

(** The local variables of [TEST_Benchmark]. *)
Record bench : Type := {
  time_per_op : list F32.t;
  flops_per_op : list Z;
  memory_bytes_per_op : list Z;
  param_bytes_per_op : list Z;
  time_per_op_type : CaffeMap;
  flops_per_op_type : CaffeMap;
  memory_bytes_per_op_type : CaffeMap;
  param_bytes_per_op_type : CaffeMap
}.

Definition add_cost (op_type : string) (cost : Cost) (b : bench) : bench :=
  {| time_per_op := time_per_op b;
     flops_per_op := flops_per_op b ++ [flops cost];
     memory_bytes_per_op := memory_bytes_per_op b ++ [bytes_moved cost];
     param_bytes_per_op := param_bytes_per_op b ++ [params_bytes cost];
     time_per_op_type := time_per_op_type b;
     flops_per_op_type :=
       CaffeMap_add op_type (F32.of_int (flops cost)) (flops_per_op_type b);
     memory_bytes_per_op_type :=
       CaffeMap_add op_type (F32.of_int (bytes_moved cost))
         (memory_bytes_per_op_type b);
     param_bytes_per_op_type :=
       CaffeMap_add op_type (F32.of_int (params_bytes cost))
         (param_bytes_per_op_type b) |}.

Definition add_time (idx : nat) (op_type : string) (spent : F32.t) (b : bench)
  : bench :=
  {| time_per_op := vector_add_at idx spent (time_per_op b);
     flops_per_op := flops_per_op b;
     memory_bytes_per_op := memory_bytes_per_op b;
     param_bytes_per_op := param_bytes_per_op b;
     time_per_op_type := CaffeMap_add op_type spent (time_per_op_type b);
     flops_per_op_type := flops_per_op_type b;
     memory_bytes_per_op_type := memory_bytes_per_op_type b;
     param_bytes_per_op_type := param_bytes_per_op_type b |}.

(** ** The executor *)

Section Executor.
Variable Workspace : Type.
Local Abbreviation Op := (OperatorBase.t Workspace).
Local Abbreviation Net := (SimpleNet Workspace).

(** *** Construction *)

(** [NetBase(net_def, ws)], the constructor of the base class (line 93; its
    body is in net.cc): the [name_] it gives the net, [None] when it throws. *)
Variable NetBase_new : NetDef.t -> option string.

(** [CreateOperator(def, ws, idx)] for the workspace the net is built on;
    [None] when the factory throws. *)
Variable CreateOperator : OperatorDef.t -> nat -> option Op.

(** The body of the constructor's loop, from [idx] on, for [todo] more
    definitions. *)
Fixpoint SimpleNet_loop (net_def : NetDef.t) (todo idx : nat)
  (operators : list Op) : outcome (list Op) :=
  match todo with
  | O => Returned operators
  | S todo' =>
      let operator_def := nth idx (NetDef.op net_def) OperatorDef.empty in
      let created :=
        if negb (OperatorDef.has_device_option operator_def)
           && NetDef.has_device_option net_def
        then
          let temp_def :=
            OperatorDef.set_device_option operator_def
              (NetDef.get_device_option net_def) in
          CreateOperator temp_def idx
        else
          match CreateOperator operator_def idx with
          | Some o => Some (OperatorBase.set_debug_def o (NetDefOp idx))
          | None => None
          end in
      match created with
      | Some o => SimpleNet_loop net_def todo' (S idx) (operators ++ [o])
      | None => Threw (CannotCreateOperator idx)
      end
  end.

(** [SimpleNet::SimpleNet(net_def, ws)]: the base class is constructed first,
    then the body runs. *)
Definition SimpleNet_new (net_def : NetDef.t) : outcome Net :=
  match NetBase_new net_def with
  | None => Threw NetBaseFailed
  | Some name =>
      match SimpleNet_loop net_def (NetDef.op_size net_def) 0 [] with
      | Returned operators =>
          Returned {| name_ := name; net_def_ := net_def;
                      operators_ := operators |}
      | Threw e => Threw e
      end
  end.

(** *** Run and RunAsync *)

Definition StartAllObservers : M Workspace unit := emit ObserverStart.
Definition StopAllObservers : M Workspace unit := emit ObserverStop.

(** [operators_[idx]->Run()] *)
Definition call_Run (idx : nat) (o : Op) : M Workspace bool :=
  fun s =>
    let r := OperatorBase.Run o (workspace s) in
    {| value := Returned (fst r);
       after := {| workspace := snd r; timer_reads := timer_reads s |};
       log := [OperatorRun idx (fst r)] |}.

(** The loop of [Run] over the operators from position [idx] on.  The result
    is [false] when the loop was left by [return false]. *)
Fixpoint Run_loop (net_def : NetDef.t) (idx : nat) (ops : list Op)
  : M Workspace bool :=
  match ops with
  | [] => ret true
  | o :: rest =>
      res <- call_Run idx o ;;
      if negb res
      then emit (LogError_OperatorFailed (debug_def net_def o)) ;;; ret false
      else Run_loop net_def (S idx) rest
  end.

(** [SimpleNet::Run()] *)
Definition Run (net : Net) : M Workspace bool :=
  StartAllObservers ;;;
  completed <- Run_loop (net_def_ net) 0 (operators_ net) ;;
  if completed
  then StopAllObservers ;;; ret true
  else ret false.

(** [SimpleNet::RunAsync()] *)
Definition RunAsync (net : Net) : M Workspace bool :=
  r <- Run net ;; ret r.

(** *** TEST_Benchmark *)

(** The [k]-th reading of a [Timer] taken during the execution, in
    milliseconds. *)
Variable elapsed_ms : nat -> F32.t.

(** [std::sort(first, last, comp)] on a vector of (type, value) pairs. *)
Variable std_sort :
  (string * F32.t -> string * F32.t -> bool) ->
  list (string * F32.t) -> list (string * F32.t).

(** [OpSchemaRegistry::Schema(op_type)], when the schema exists and has a cost
    inference function: that function, [schema->InferCost]. *)
Variable Schema_InferCost :
  string -> option (OperatorDef.t -> list TensorShape -> Cost).

Definition Timer_MilliSeconds : M Workspace F32.t :=
  fun s =>
    {| value := Returned (elapsed_ms (timer_reads s));
       after := {| workspace := workspace s;
                   timer_reads := S (timer_reads s) |};
       log := [] |}.

Definition get_workspace : M Workspace Workspace :=
  fun s => {| value := Returned (workspace s); after := s; log := [] |}.

(** [for (int i = first; i < first + n; ++i) body], threading the locals. *)
Fixpoint for_loop {St : Type} (n first : nat)
  (body : nat -> St -> M Workspace St) (st : St) : M Workspace St :=
  match n with
  | O => ret st
  | S n' => st' <- body first st ;; for_loop n' (S first) body st'
  end.

Fixpoint ResetEvent_loop (idx : nat) (ops : list Op) : M Workspace unit :=
  match ops with
  | [] => ret tt
  | _ :: rest => emit (OperatorResetEvent idx) ;;; ResetEvent_loop (S idx) rest
  end.

(** Lines 202-217: the cost of one operator, gathered on the first run. *)
Definition gather_cost (net_def : NetDef.t) (o : Op) (op_type : string)
  (b : bench) : M Workspace bench :=
  match Schema_InferCost op_type with
  | Some InferCost =>
      ws <- get_workspace ;;
      let shapes := OperatorBase.InputTensorShapes o ws in
      let cost := InferCost (debug_def net_def o) shapes in
      ret (add_cost op_type cost b)
  | None => ret b
  end.

(** Lines 200-230: the timed loop over the operators of main run [i].
    [timer.Start()] leaves no trace here: what the next reading of the timer
    gives is [elapsed_ms] at the number of that reading. *)
Fixpoint individual_loop (net_def : NetDef.t) (i idx : nat) (ops : list Op)
  (b : bench) : M Workspace bench :=
  match ops with
  | [] => ret b
  | o :: rest =>
      let op_type := OperatorDef.type (debug_def net_def o) in
      b1 <- (if Nat.eqb i 0 then gather_cost net_def o op_type b else ret b) ;;
      res <- call_Run idx o ;;
      CAFFE_ENFORCE res
        (OperatorHasFailed (OperatorDef.name (debug_def net_def o)) op_type) ;;;
      spent <- Timer_MilliSeconds ;;
      individual_loop net_def i (S idx) rest (add_time idx op_type spent b1)
  end.

(** Lines 232-261: the log line of operator [idx].  The source appends the
    parameter megabytes to the same string as the feature megabytes; the line
    logged has them in this order either way. *)
Definition print_name_of (d : OperatorDef.t) : string :=
  if Nat.eqb (String.length (OperatorDef.name d)) 0
  then match OperatorDef.output d with
       | out0 :: _ => out0
       | [] => "NO_OUTPUT"
       end
  else OperatorDef.name d.

(** [idx < v.size() && v[idx]] *)
Definition nonzero_at (v : list Z) (idx : nat) : option Z :=
  match nth_error v idx with
  | Some x => if Z.eqb x 0 then None else Some x
  | None => None
  end.

Definition operator_line (net_def : NetDef.t) (main_runs : Z) (b : bench)
  (idx : nat) (o : Op) : event :=
  let d := debug_def net_def o in
  let t := nth idx (time_per_op b) F32.zero in
  LogInfo_Operator idx (print_name_of d) (OperatorDef.type d)
    (F32.div t (F32.of_int main_runs))
    (match nonzero_at (flops_per_op b) idx with
     | Some f =>
         Some (F64.mul F64.lit_1e_9 (F64.of_int f),
               F64.div (F64.mul F64.lit_1e_6 (F64.of_int f)) (F64.of_float t))
     | None => None
     end)
    (match nonzero_at (memory_bytes_per_op b) idx with
     | Some m => Some (F64.mul F64.lit_1e_6 (F64.of_int m))
     | None => None
     end)
    (match nonzero_at (param_bytes_per_op b) idx with
     | Some p => Some (F64.mul F64.lit_1e_6 (F64.of_int p))
     | None => None
     end).

Fixpoint operator_lines (net_def : NetDef.t) (main_runs : Z) (b : bench)
  (idx : nat) (ops : list Op) : M Workspace unit :=
  match ops with
  | [] => ret tt
  | o :: rest =>
      emit (operator_line net_def main_runs b idx o) ;;;
      operator_lines net_def main_runs b (S idx) rest
  end.

(** Lines 282-285: [total_metric], summed over the sorted vector. *)
Definition total_of (normalizer : F64.t) (vec : list (string * F32.t))
  : F32.t :=
  fold_left
    (fun total_metric op_item =>
       F32.of_double
         (F64.add (F64.of_float total_metric)
            (F64.mul (F64.of_float (snd op_item)) normalizer)))
    vec F32.zero.

(** Lines 287-290: [percent] of one entry. *)
Definition percent_of (normalizer : F64.t) (total_metric : F32.t)
  (op_item : string * F32.t) : F32.t :=
  if F64.gtb (F64.of_float total_metric) F64.zero
  then F32.of_double
         (F64.div
            (F64.mul (F64.mul F64.lit_100 (F64.of_float (snd op_item)))
               normalizer)
            (F64.of_float total_metric))
  else F32.zero.

Definition metric_row (normalizer : F64.t) (unit : string)
  (total_metric : F32.t) (op_item : string * F32.t) : event :=
  LogInfo_MetricRow (F64.mul (F64.of_float (snd op_item)) normalizer) unit
    (percent_of normalizer total_metric op_item) (fst op_item).

(** Lines 274-297: the section of the report for one metric, as the list of
    lines it logs. *)
Definition metric_report (metric : string) (normalizer : F64.t)
  (unit : string) (item : CaffeMap) : list event :=
  let metric_per_op_type_vec := std_sort PairLargerThan item in
  let total_metric := total_of normalizer metric_per_op_type_vec in
  LogInfo (metric ++ " per operator type:")%string
  :: map (metric_row normalizer unit total_metric) metric_per_op_type_vec
  ++ [LogInfo_MetricTotal total_metric unit].

Fixpoint emit_all (es : list event) : M Workspace unit :=
  match es with
  | [] => ret tt
  | e :: rest => emit e ;;; emit_all rest
  end.

(** Lines 262-298 *)
Definition type_report (main_runs : Z) (b : bench) : M Workspace unit :=
  emit_all
    (metric_report "Time" (F64.div F64.lit_1 (F64.of_int main_runs)) "ms"
       (time_per_op_type b)) ;;;
  emit_all
    (metric_report "FLOP" F64.lit_1e_9 "GFLOP" (flops_per_op_type b)) ;;;
  emit_all
    (metric_report "Feature Memory" F64.lit_1e_6 "MB"
       (memory_bytes_per_op_type b)) ;;;
  emit_all
    (metric_report "Parameter Memory" F64.lit_1e_6 "MB"
       (param_bytes_per_op_type b)).

Definition bench_init (n : nat) : bench :=
  {| time_per_op := repeat F32.zero n;
     flops_per_op := [];
     memory_bytes_per_op := [];
     param_bytes_per_op := [];
     time_per_op_type := [];
     flops_per_op_type := [];
     memory_bytes_per_op_type := [];
     param_bytes_per_op_type := [] |}.

(** Lines 194-299: the part under [if (run_individual)]. *)
Definition run_individual_part (net : Net) (main_runs : Z) (b : bench)
  : M Workspace bench :=
  b' <- for_loop (Z.to_nat main_runs) 0
          (fun i b0 =>
             ResetEvent_loop 0 (operators_ net) ;;;
             individual_loop (net_def_ net) i 0 (operators_ net) b0)
          b ;;
  operator_lines (net_def_ net) main_runs b' 0 (operators_ net) ;;;
  type_report main_runs b' ;;;
  ret b'.

(** [SimpleNet::TEST_Benchmark(warmup_runs, main_runs, run_individual)] *)
Definition TEST_Benchmark (net : Net) (warmup_runs main_runs : Z)
  (run_individual : bool) : M Workspace (list F32.t) :=
  emit (LogInfo "Starting benchmark.") ;;;
  emit (LogInfo "Running warmup runs.") ;;;
  CAFFE_ENFORCE (0 <=? warmup_runs)%Z (WarmupRunsNegative warmup_runs) ;;;
  for_loop (Z.to_nat warmup_runs) 0
    (fun i _ => r <- Run net ;; CAFFE_ENFORCE r (WarmupRunFailed i)) tt ;;;
  emit (LogInfo "Main runs.") ;;;
  CAFFE_ENFORCE (0 <=? main_runs)%Z (MainRunsNegative main_runs) ;;;
  for_loop (Z.to_nat main_runs) 0
    (fun i _ => r <- Run net ;; CAFFE_ENFORCE r (MainRunFailed i)) tt ;;;
  millis <- Timer_MilliSeconds ;;
  emit (LogInfo_MainRunFinished
          (F32.div millis (F32.of_int main_runs))
          (F64.div (F64.mul F64.lit_1000 (F64.of_int main_runs))
             (F64.of_float millis))) ;;;
  b <- (if run_individual
        then run_individual_part net main_runs
               (bench_init (List.length (operators_ net)))
        else ret (bench_init (List.length (operators_ net)))) ;;
  ret (F32.div millis (F32.of_int main_runs)
       :: map (fun t => F32.div t (F32.of_int main_runs)) (time_per_op b)).

End Executor.

Arguments SimpleNet_loop {Workspace} _ _ _ _ _.
Arguments SimpleNet_new {Workspace} _ _ _.
Arguments call_Run {Workspace} _ _ _.
Arguments Run_loop {Workspace} _ _ _ _.
Arguments Run {Workspace} _ _.
Arguments RunAsync {Workspace} _ _.
Arguments Timer_MilliSeconds {Workspace} _ _.
Arguments for_loop {Workspace St} _ _ _ _ _.
Arguments ResetEvent_loop {Workspace} _ _ _.
Arguments gather_cost {Workspace} _ _ _ _ _ _.
Arguments individual_loop {Workspace} _ _ _ _ _ _ _ _.
Arguments operator_line {Workspace} _ _ _ _ _.
Arguments operator_lines {Workspace} _ _ _ _ _ _.
Arguments emit_all {Workspace} _ _.
Arguments type_report {Workspace} _ _ _ _.
Arguments run_individual_part {Workspace} _ _ _ _ _ _ _.
Arguments TEST_Benchmark {Workspace} _ _ _ _ _ _ _ _.

(** ** [std::sort] as GNU libstdc++ implements it *)

(** The sorting routine of libstdc++ 12 (bits/stl_algo.h and bits/stl_heap.h):
    an introsort that leaves ranges of at most [_S_threshold] elements
    unsorted, falls back to a heap sort when the recursion gets too deep, and
    finishes with an insertion sort.  The vector is a list, an iterator is an
    index into it.  The loops the source marks as unguarded do not test for
    the ends of the vector; where such a loop would leave the vector, the
    behaviour of the source is undefined and the result here is [None]. *)
Module libstdcxx.
Local Open Scope nat_scope.
Section Sort.
Context {A : Type}.
Variable value_init : A.
Variable comp : A -> A -> bool.

(** [*(first + i)], read and written. *)
Definition deref (v : list A) (i : nat) : A := nth i v value_init.

Fixpoint assign (i : nat) (x : A) (v : list A) : list A :=
  match v, i with
  | [], _ => []
  | _ :: v', O => x :: v'
  | y :: v', S i' => y :: assign i' x v'
  end.

Definition iter_swap (i j : nat) (v : list A) : list A :=
  assign j (deref v i) (assign i (deref v j) v).

Definition __move_median_to_first (result a b c : nat) (v : list A)
  : list A :=
  if comp (deref v a) (deref v b)
  then if comp (deref v b) (deref v c) then iter_swap result b v
       else if comp (deref v a) (deref v c) then iter_swap result c v
       else iter_swap result a v
  else if comp (deref v a) (deref v c) then iter_swap result a v
  else if comp (deref v b) (deref v c) then iter_swap result c v
  else iter_swap result b v.

(** The loop of [__unguarded_linear_insert]: [last] is the place of the hole,
    [next] the place before it. *)
Fixpoint unguarded_linear_insert_loop (val : A) (last : nat) (v : list A)
  : option (list A) :=
  match last with
  | O => None
  | S next =>
      if comp val (deref v next)
      then unguarded_linear_insert_loop val next
             (assign last (deref v next) v)
      else Some (assign last val v)
  end.

Definition __unguarded_linear_insert (last : nat) (v : list A)
  : option (list A) :=
  unguarded_linear_insert_loop (deref v last) last v.

(** [std::move_backward(first, first + n, first + n + 1)] *)
Fixpoint move_backward (first n : nat) (v : list A) : list A :=
  match n with
  | O => v
  | S n' =>
      move_backward first n' (assign (first + n) (deref v (first + n')) v)
  end.

(** The loop of [__insertion_sort], for [n] more elements from [i] on. *)
Fixpoint insertion_sort_loop (first i n : nat) (v : list A)
  : option (list A) :=
  match n with
  | O => Some v
  | S n' =>
      match
        (if comp (deref v i) (deref v first)
         then Some (assign first (deref v i)
                      (move_backward first (i - first) v))
         else __unguarded_linear_insert i v)
      with
      | Some v' => insertion_sort_loop first (S i) n' v'
      | None => None
      end
  end.

Definition __insertion_sort (first last : nat) (v : list A)
  : option (list A) :=
  if Nat.eqb first last then Some v
  else insertion_sort_loop first (S first) (last - S first) v.

Fixpoint unguarded_insertion_sort_loop (i n : nat) (v : list A)
  : option (list A) :=
  match n with
  | O => Some v
  | S n' =>
      match __unguarded_linear_insert i v with
      | Some v' => unguarded_insertion_sort_loop (S i) n' v'
      | None => None
      end
  end.

Definition __unguarded_insertion_sort (first last : nat) (v : list A)
  : option (list A) :=
  unguarded_insertion_sort_loop first (last - first) v.

Definition _S_threshold : nat := 16.

Definition __final_insertion_sort (first last : nat) (v : list A)
  : option (list A) :=
  if Nat.ltb _S_threshold (last - first)
  then match __insertion_sort first (first + _S_threshold) v with
       | Some v' => __unguarded_insertion_sort (first + _S_threshold) last v'
       | None => None
       end
  else __insertion_sort first last v.

(** [while (comp(first, pivot)) ++first;] with [fuel] places left in the
    vector. *)
Fixpoint scan_up (v : list A) (pivot fuel first : nat) : option nat :=
  match fuel with
  | O => None
  | S fuel' =>
      if comp (deref v first) (deref v pivot)
      then scan_up v pivot fuel' (S first)
      else Some first
  end.

(** [while (comp(pivot, last)) --last;] *)
Fixpoint scan_down (v : list A) (pivot last : nat) : option nat :=
  if comp (deref v pivot) (deref v last)
  then match last with
       | O => None
       | S last' => scan_down v pivot last'
       end
  else Some last.

(** The outer loop of [__unguarded_partition]; it is left after at most
    [last - first] rounds. *)
Fixpoint unguarded_partition_loop (fuel first last pivot : nat) (v : list A)
  : option (nat * list A) :=
  match fuel with
  | O => None
  | S fuel' =>
      match scan_up v pivot (List.length v - first) first with
      | None => None
      | Some first1 =>
          match scan_down v pivot (last - 1) with
          | None => None
          | Some last1 =>
              if negb (Nat.ltb first1 last1) then Some (first1, v)
              else unguarded_partition_loop fuel' (S first1) last1 pivot
                     (iter_swap first1 last1 v)
          end
      end
  end.

Definition __unguarded_partition (first last pivot : nat) (v : list A)
  : option (nat * list A) :=
  unguarded_partition_loop (S (last - first)) first last pivot v.

Definition __unguarded_partition_pivot (first last : nat) (v : list A)
  : option (nat * list A) :=
  let mid := first + (last - first) / 2 in
  __unguarded_partition (first + 1) last first
    (__move_median_to_first first (first + 1) mid (last - 1) v).

(** The loop of [__push_heap]; the hole rises at most [holeIndex] times. *)
Fixpoint push_heap_loop (fuel first holeIndex topIndex : nat) (value : A)
  (v : list A) : list A :=
  let parent := (holeIndex - 1) / 2 in
  match fuel with
  | O => assign (first + holeIndex) value v
  | S fuel' =>
      if Nat.ltb topIndex holeIndex && comp (deref v (first + parent)) value
      then push_heap_loop fuel' first parent topIndex value
             (assign (first + holeIndex) (deref v (first + parent)) v)
      else assign (first + holeIndex) value v
  end.

Definition __push_heap (first holeIndex topIndex : nat) (value : A)
  (v : list A) : list A :=
  push_heap_loop holeIndex first holeIndex topIndex value v.

(** The first loop of [__adjust_heap]: the hole sinks along the children
    that are not before their sibling; at most [len] times. *)
Fixpoint adjust_heap_loop (fuel first holeIndex secondChild len : nat)
  (v : list A) : nat * nat * list A :=
  match fuel with
  | O => (holeIndex, secondChild, v)
  | S fuel' =>
      if Nat.ltb secondChild ((len - 1) / 2)
      then
        let secondChild1 := 2 * (secondChild + 1) in
        let secondChild2 :=
          if comp (deref v (first + secondChild1))
                  (deref v (first + (secondChild1 - 1)))
          then secondChild1 - 1 else secondChild1 in
        adjust_heap_loop fuel' first secondChild2 secondChild2 len
          (assign (first + holeIndex) (deref v (first + secondChild2)) v)
      else (holeIndex, secondChild, v)
  end.

Definition __adjust_heap (first holeIndex len : nat) (value : A)
  (v : list A) : list A :=
  let topIndex := holeIndex in
  let '(holeIndex1, secondChild1, v1) :=
    adjust_heap_loop len first holeIndex holeIndex len v in
  let '(holeIndex2, v2) :=
    if Nat.even len && Nat.eqb secondChild1 ((len - 2) / 2)
    then
      let secondChild2 := 2 * (secondChild1 + 1) in
      (secondChild2 - 1,
       assign (first + holeIndex1) (deref v1 (first + (secondChild2 - 1))) v1)
    else (holeIndex1, v1) in
  __push_heap first holeIndex2 topIndex value v2.

Definition __pop_heap (first last result : nat) (v : list A) : list A :=
  let value := deref v result in
  __adjust_heap first 0 (last - first) value
    (assign result (deref v first) v).

Fixpoint make_heap_loop (first len parent : nat) (v : list A) : list A :=
  let v1 := __adjust_heap first parent len (deref v (first + parent)) v in
  match parent with
  | O => v1
  | S parent' => make_heap_loop first len parent' v1
  end.

Definition __make_heap (first last : nat) (v : list A) : list A :=
  if Nat.ltb (last - first) 2 then v
  else make_heap_loop first (last - first) ((last - first - 2) / 2) v.

Fixpoint heap_select_loop (first middle i n : nat) (v : list A) : list A :=
  match n with
  | O => v
  | S n' =>
      heap_select_loop first middle (S i) n'
        (if comp (deref v i) (deref v first)
         then __pop_heap first middle i v else v)
  end.

Definition __heap_select (first middle last : nat) (v : list A) : list A :=
  heap_select_loop first middle middle (last - middle)
    (__make_heap first middle v).

Fixpoint sort_heap_loop (fuel first last : nat) (v : list A) : list A :=
  match fuel with
  | O => v
  | S fuel' =>
      if Nat.ltb 1 (last - first)
      then sort_heap_loop fuel' first (last - 1)
             (__pop_heap first (last - 1) (last - 1) v)
      else v
  end.

Definition __sort_heap (first last : nat) (v : list A) : list A :=
  sort_heap_loop (last - first) first last v.

Definition __partial_sort (first middle last : nat) (v : list A) : list A :=
  __sort_heap first middle (__heap_select first middle last v).

(** [__introsort_loop]; the turn of its [while] loop that follows the
    recursive call is the second call here. *)
Fixpoint __introsort_loop (depth_limit first last : nat) (v : list A)
  : option (list A) :=
  if Nat.ltb _S_threshold (last - first)
  then match depth_limit with
       | O => Some (__partial_sort first last last v)
       | S depth_limit' =>
           match __unguarded_partition_pivot first last v with
           | None => None
           | Some (cut, v1) =>
               match __introsort_loop depth_limit' cut last v1 with
               | None => None
               | Some v2 => __introsort_loop depth_limit' first cut v2
               end
           end
       end
  else Some v.

Definition __sort (first last : nat) (v : list A) : option (list A) :=
  if Nat.eqb first last then Some v
  else match __introsort_loop (Nat.log2 (last - first) * 2) first last v with
       | Some v' => __final_insertion_sort first last v'
       | None => None
       end.

(** [std::sort(v.begin(), v.end(), comp)] *)
Definition sort (v : list A) : option (list A) :=
  __sort 0 (List.length v) v.

End Sort.
End libstdcxx.

(** [std::sort] on the vector of (type, value) pairs, as the executor calls
    it when it is built against libstdc++; a vector the routine treats in an
    undefined way is left as it is. *)
Definition libstdcxx_std_sort
  (comp : string * F32.t -> string * F32.t -> bool)
  (l : list (string * F32.t)) : list (string * F32.t) :=
  match libstdcxx.sort ("", F32.zero) comp l with
  | Some out => out
  | None => l
  end.

(** ** Vocabulary of the properties *)

(** The operators invoked in a log, by position in [operators_], in the order
    of their invocation. *)
Definition invoked (l : list event) : list nat :=
  flat_map (fun e => match e with OperatorRun idx _ => [idx] | _ => [] end) l.

(** The log of [n] operators, from position [idx] on, each reporting
    success. *)
Definition successful_runs (idx n : nat) : list event :=
  map (fun i => OperatorRun i true) (seq idx n).

Definition is_start (e : event) : bool :=
  match e with ObserverStart => true | _ => false end.
Definition is_stop (e : event) : bool :=
  match e with ObserverStop => true | _ => false end.
Definition is_failed_run (e : event) : bool :=
  match e with OperatorRun _ false => true | _ => false end.

Definition count (p : event -> bool) (l : list event) : nat :=
  List.length (filter p l).

(** The log of one call of [Run] on [n] operators that all report success. *)
Definition pass_log (n : nat) : list event :=
  ObserverStart :: successful_runs 0 n ++ [ObserverStop].

(** Entry by entry, the float sum of a time vector and a list of readings. *)
Definition add_readings (v readings : list F32.t) : list F32.t :=
  map (fun p => F32.add (fst p) (snd p)) (combine v readings).

(** An operator whose [Run()] returns success whatever the workspace holds. *)
Definition always_succeeds {Workspace} (o : OperatorBase.t Workspace) : Prop :=
  forall w, fst (OperatorBase.Run o w) = true.

Definition all_succeed {Workspace} (net : SimpleNet Workspace) : Prop :=
  Forall always_succeeds (operators_ net).

(** Each operator of [ops] returns success when run, in order, starting from
    the workspace [w]. *)
Fixpoint succeed_in_sequence {Workspace}
  (ops : list (OperatorBase.t Workspace)) (w : Workspace) : Prop :=
  match ops with
  | [] => True
  | o :: rest =>
      fst (OperatorBase.Run o w) = true /\
      succeed_in_sequence rest (snd (OperatorBase.Run o w))
  end.

(** The workspace left by running [ops] one after the other from [w]. *)
Definition effects {Workspace} (ops : list (OperatorBase.t Workspace))
  (w : Workspace) : Workspace :=
  fold_left (fun w' o => snd (OperatorBase.Run o w')) ops w.

(** The time accumulated for the operator at [idx] over [main_runs] timed
    passes over [n] operators, when the first reading of the passes is reading
    number [first]: the float sum, from 0, of its reading in each pass. *)
Definition accumulated_time (elapsed_ms : nat -> F32.t) (first n : nat)
  (main_runs : nat) (idx : nat) : F32.t :=
  fold_left (fun acc i => F32.add acc (elapsed_ms (first + i * n + idx)%nat))
    (seq 0 main_runs) F32.zero.

(** A key that orders the floats other than NaN as [SFltb] does: the class
    (negative infinity, negative, zero, positive, positive infinity), then
    exponent and mantissa, negated for the negative numbers; compared
    lexicographically. *)
Definition SFkey (x : spec_float) : Z * Z * Z :=
  match x with
  | S754_infinity true => (-2, 0, 0)
  | S754_finite true m e => (-1, - e, - Zpos m)
  | S754_zero _ | S754_nan => (0, 0, 0)
  | S754_finite false m e => (1, e, Zpos m)
  | S754_infinity false => (2, 0, 0)
  end.

Definition lex_lt (p q : Z * Z * Z) : Prop :=
  fst (fst p) < fst (fst q) \/
  (fst (fst p) = fst (fst q) /\
   (snd (fst p) < snd (fst q) \/
    (snd (fst p) = snd (fst q) /\ snd p < snd q))).

(** What [std::sort] promises for a comparison that is a strict weak order on
    the entries, which [PairLargerThan] is when no value is a NaN: the result
    is a rearrangement of the input in which no entry is larger than an entry
    before it. *)
Definition no_nan (l : list (string * F32.t)) : Prop :=
  Forall (fun x => is_nan (snd x) = false) l.

Definition descending (l : list (string * F32.t)) : Prop :=
  StronglySorted (fun x y => PairLargerThan y x = false) l.

Definition sort_contract
  (std_sort : (string * F32.t -> string * F32.t -> bool) ->
              list (string * F32.t) -> list (string * F32.t)) : Prop :=
  forall l, no_nan l ->
    Permutation l (std_sort PairLargerThan l) /\
    descending (std_sort PairLargerThan l).

(** Entries of equal value come in the order of the traversal [l]: for every
    value, the entries of [out] with that value are those of [l], in the
    order they have in [l]. *)
Definition ties_in_traversal_order (l out : list (string * F32.t)) : Prop :=
  forall value : F32.t,
    filter (fun y => SFeqb (snd y) value) out
    = filter (fun y => SFeqb (snd y) value) l.

(** Insertion of [x] into [l] before the first entry that [comp] puts after
    it, and the sort that inserts the entries one by one in traversal
    order. *)
Fixpoint insert_sorted {A} (comp : A -> A -> bool) (x : A) (l : list A)
  : list A :=
  match l with
  | [] => [x]
  | y :: l' => if comp x y then x :: l else y :: insert_sorted comp x l'
  end.

Definition insertion_sorted {A} (comp : A -> A -> bool) (l : list A)
  : list A :=
  fold_left (fun acc x => insert_sorted comp x acc) l [].

(** No entry is put by [comp] before an entry that precedes it. *)
Definition sorted_by {A} (comp : A -> A -> bool) (l : list A) : Prop :=
  StronglySorted (fun x y => comp y x = false) l.

(** [y] is neither before nor after [e]. *)
Definition equivalent {A} (comp : A -> A -> bool) (e y : A) : bool :=
  negb (comp e y) && negb (comp y e).

(** [v'] has the length of [v] and its entries outside the range
    [a, b). *)
Definition same_outside {A} (value_init : A) (v v' : list A) (a b : nat)
  : Prop :=
  List.length v' = List.length v /\
  forall i, (i < a \/ b <= i)%nat ->
    libstdcxx.deref value_init v' i = libstdcxx.deref value_init v i.

(** In the heap of [len] entries that starts at [first], no entry whose
    parent is at [top] or behind it is after its parent. *)
Definition heap_above {A} (value_init : A) (comp : A -> A -> bool)
  (v : list A) (first len top : nat) : Prop :=
  forall c, (1 <= c < len)%nat -> (top <= (c - 1) / 2)%nat ->
    comp (libstdcxx.deref value_init v (first + (c - 1) / 2))
         (libstdcxx.deref value_init v (first + c)) = false.

(** The places of a heap below the place [top], and [top] itself. *)
Inductive descends (top : nat) : nat -> Prop :=
| descends_top : descends top top
| descends_child (c : nat) :
    (1 <= c)%nat -> descends top ((c - 1) / 2) -> descends top c.

(** No entry of the range [first, last) is before an entry that is 16 or
    more places ahead of it. *)
Definition blocked {A} (value_init : A) (comp : A -> A -> bool)
  (v : list A) (first last : nat) : Prop :=
  forall i j, (first <= i)%nat -> (i + libstdcxx._S_threshold <= j)%nat ->
    (j < last)%nat ->
    comp (libstdcxx.deref value_init v j) (libstdcxx.deref value_init v i)
    = false.

(** The range [first, last) is sorted. *)
Definition range_sorted {A} (value_init : A) (comp : A -> A -> bool)
  (v : list A) (first last : nat) : Prop :=
  forall i j, (first <= i)%nat -> (i < j)%nat -> (j < last)%nat ->
    comp (libstdcxx.deref value_init v j) (libstdcxx.deref value_init v i)
    = false.

(** What a section of the report shows, written out with the operations of
    IEEE arithmetic.  The total is a [float] that starts at 0 and to which the
    normalized values are added in the order of the listing, each addition
    being done in double precision. *)
Definition reported_total (normalizer : spec_float)
  (listed : list (string * spec_float)) : spec_float :=
  fold_left
    (fun total op_item =>
       SFconvert 24 128
         (SFadd 53 1024 (SFconvert 53 1024 total)
            (SFmul 53 1024 (SFconvert 53 1024 (snd op_item)) normalizer)))
    listed (S754_zero false).

(** The percentage of a value: 0 unless the total is positive, and then the
    [float] nearest to ((100 * value) * normalizer) / total, computed in
    double precision. *)
Definition reported_percent (normalizer total value : spec_float)
  : spec_float :=
  if SFltb (S754_zero false) (SFconvert 53 1024 total)
  then SFconvert 24 128
         (SFdiv 53 1024
            (SFmul 53 1024
               (SFmul 53 1024 (S754_finite false 7036874417766400 (-46))
                  (SFconvert 53 1024 value))
               normalizer)
            (SFconvert 53 1024 total))
  else S754_zero false.

(** The lines of a section that lists [listed]: the header, one row per
    type with its normalized value and its percentage, the total. *)
Definition report_section (metric : string) (normalizer : spec_float)
  (unit : string) (listed : list (string * spec_float)) : list event :=
  LogInfo (metric ++ " per operator type:")%string
  :: map (fun op_item =>
            LogInfo_MetricRow
              (SFmul 53 1024 (SFconvert 53 1024 (snd op_item)) normalizer)
              unit
              (reported_percent normalizer (reported_total normalizer listed)
                 (snd op_item))
              (fst op_item))
       listed
  ++ [LogInfo_MetricTotal (reported_total normalizer listed) unit].

(** The four sections of the report for the maps of [b], each map listed in
    the order [listing] gives: time (normalizer 1 / main_runs, in double),
    flops (1e-9), feature memory and parameter memory (1e-6). *)
Definition reported_sections (main_runs : Z)
  (listing : list (string * spec_float) -> list (string * spec_float))
  (b : bench) : list event :=
  report_section "Time"
    (SFdiv 53 1024 (S754_finite false 4503599627370496 (-52))
       (binary_normalize 53 1024 main_runs 0 false))
    "ms" (listing (time_per_op_type b))
  ++ report_section "FLOP" (S754_finite false 4835703278458517 (-82))
       "GFLOP" (listing (flops_per_op_type b))
  ++ report_section "Feature Memory"
       (S754_finite false 4722366482869645 (-72))
       "MB" (listing (memory_bytes_per_op_type b))
  ++ report_section "Parameter Memory"
       (S754_finite false 4722366482869645 (-72))
       "MB" (listing (param_bytes_per_op_type b)).

Definition row_types (l : list event) : list string :=
  flat_map (fun e => match e with
                     | LogInfo_MetricRow _ _ _ ty => [ty]
                     | _ => []
                     end) l.

(** The two ways the loop of [Run] ends: after all operators, or at the first
    operator, the one at position [k], that reports failure. *)
Inductive loop_end {Workspace} (net_def : NetDef.t) (idx : nat)
  (ops : list (OperatorBase.t Workspace)) (s : world Workspace)
  : result Workspace bool -> Prop :=
| loop_completed :
    loop_end net_def idx ops s
      {| value := Returned true;
         after := {| workspace := effects ops (workspace s);
                     timer_reads := timer_reads s |};
         log := successful_runs idx (List.length ops) |}
| loop_failed (k : nat) (o : OperatorBase.t Workspace) :
    nth_error ops k = Some o ->
    fst (OperatorBase.Run o (effects (firstn k ops) (workspace s))) = false ->
    loop_end net_def idx ops s
      {| value := Returned false;
         after := {| workspace :=
                       snd (OperatorBase.Run o
                              (effects (firstn k ops) (workspace s)));
                     timer_reads := timer_reads s |};
         log := successful_runs idx k ++
                [OperatorRun (idx + k) false;
                 LogError_OperatorFailed (debug_def net_def o)] |}.

(** How the operator at position [idx] was made from the definition [d] at
    that position of the net definition. *)
Definition made_from {Workspace}
  (CreateOperator : OperatorDef.t -> nat -> option (OperatorBase.t Workspace))
  (net_def : NetDef.t) (idx : nat) (d : OperatorDef.t)
  (o : OperatorBase.t Workspace) : Prop :=
  match OperatorDef.device_option d, NetDef.device_option net_def with
  | None, Some net_device_option =>
      CreateOperator (OperatorDef.set_device_option d net_device_option) idx
      = Some o
  | _, _ =>
      exists o0, CreateOperator d idx = Some o0 /\
                 o = OperatorBase.set_debug_def o0 (NetDefOp idx)
  end.

(** [m], started in [s], returns [a], leaves [s'] and logs [l]. *)
Definition yields {Workspace A} (m : M Workspace A) (s : world Workspace) (a : A)
  (s' : world Workspace) (l : list event) : Prop :=
  m s = {| value := Returned a; after := s'; log := l |}.

(** [m], started in [s], throws [e], leaving [s'] and having logged [l]. *)
Definition throws {Workspace A} (m : M Workspace A) (s : world Workspace)
  (e : EnforceNotMet) (s' : world Workspace) (l : list event) : Prop :=
  m s = {| value := Threw e; after := s'; log := l |}.

(** ** The build with CAFFE2_USE_NVTX: [ProfiledRange] and [Run] under it *)

Definition Color : Type := Z.
Definition kRunColor : Color := 52479.      (* 0x0000CCFF, blue *)
Definition kRecordColor : Color := 16724736. (* 0x00FF3300, red *)
Definition kWaitColor : Color := 6750003.   (* 0x0066FF33, green *)

(** The calls into the profiling library: [nvtxRangeStartEx] with the colour
    and the message of its attributes and the range id it returned, and
    [nvtxRangeEnd]. *)
Inductive nvtx_call : Type :=
| nvtxRangeStartEx (color : Color) (message : string) (range : Z)
| nvtxRangeEnd (range : Z).

(** [ProfiledRange(def, color)], when [n] ranges have been started before and
    the library answers the [k]-th start with the id [nvtx_id k]: the member
    [range_] of the object ([None] when [CAFFE_ENFORCE(range_, ...)] throws),
    the number of ranges started and the calls made. *)
Definition ProfiledRange_new (FLAGS_caffe2_use_nvtx : bool)
  (nvtx_id : nat -> Z) (def : OperatorDef.t) (color : Color) (n : nat)
  : option Z * nat * list nvtx_call :=
  if negb FLAGS_caffe2_use_nvtx then (Some 0, n, [])
  else
    let range_ := nvtx_id n in
    (if Z.eqb range_ 0 then None else Some range_,
     S n,
     [nvtxRangeStartEx color (OperatorDef.type def) range_]).

(** [~ProfiledRange()] *)
Definition ProfiledRange_delete (FLAGS_caffe2_use_nvtx : bool) (range_ : Z)
  : list nvtx_call :=
  if negb FLAGS_caffe2_use_nvtx then [] else [nvtxRangeEnd range_].

(** How [Run] ends in this build: by [return], or by the exception of the
    [CAFFE_ENFORCE] in the constructor of [ProfiledRange]. *)
Inductive nvtx_outcome : Type :=
| Finished (res : bool)
| StartRangeInvalid.

(** The loop of [Run] in this build: outcome, workspace, number of ranges
    started, and the events and library calls in order.  The range [r] of an
    iteration is destroyed when the iteration is left: after the error log on
    the failure path, at the end of the body otherwise. *)
Fixpoint Run_loop_nvtx {Workspace} (FLAGS_caffe2_use_nvtx : bool)
  (nvtx_id : nat -> Z) (net_def : NetDef.t) (idx : nat)
  (ops : list (OperatorBase.t Workspace)) (w : Workspace) (n : nat)
  : nvtx_outcome * Workspace * nat * list (event + nvtx_call) :=
  match ops with
  | [] => (Finished true, w, n, [])
  | o :: rest =>
      match ProfiledRange_new FLAGS_caffe2_use_nvtx nvtx_id
              (debug_def net_def o) kRunColor n with
      | (None, n1, started) => (StartRangeInvalid, w, n1, map inr started)
      | (Some range_, n1, started) =>
          let r := OperatorBase.Run o w in
          let ended :=
            map inr (ProfiledRange_delete FLAGS_caffe2_use_nvtx range_) in
          if negb (fst r)
          then (Finished false, snd r, n1,
                map inr started
                ++ [inl (OperatorRun idx false);
                    inl (LogError_OperatorFailed (debug_def net_def o))]
                ++ ended)
          else
            match Run_loop_nvtx FLAGS_caffe2_use_nvtx nvtx_id net_def
                    (S idx) rest (snd r) n1 with
            | (out, w', n', l') =>
                (out, w', n',
                 map inr started ++ [inl (OperatorRun idx true)]
                 ++ ended ++ l')
            end
      end
  end.

(** [SimpleNet::Run()] in this build. *)
Definition Run_nvtx {Workspace} (FLAGS_caffe2_use_nvtx : bool)
  (nvtx_id : nat -> Z) (net : SimpleNet Workspace) (w : Workspace) (n : nat)
  : nvtx_outcome * Workspace * nat * list (event + nvtx_call) :=
  match Run_loop_nvtx FLAGS_caffe2_use_nvtx nvtx_id (net_def_ net) 0
          (operators_ net) w n with
  | (Finished true, w', n', l) =>
      (Finished true, w', n', inl ObserverStart :: l ++ [inl ObserverStop])
  | (out, w', n', l) => (out, w', n', inl ObserverStart :: l)
  end.

(** ** More vocabulary *)

(** The events of a trace, and its library calls. *)
Definition events_of (l : list (event + nvtx_call)) : list event :=
  flat_map (fun x => match x with inl e => [e] | inr _ => [] end) l.
Definition calls_of (l : list (event + nvtx_call)) : list nvtx_call :=
  flat_map (fun x => match x with inl _ => [] | inr c => [c] end) l.

(** Library calls in which every range started is ended by the next call, and
    nothing else is ended. *)
Fixpoint ranges_paired (l : list nvtx_call) : Prop :=
  match l with
  | [] => True
  | nvtxRangeStartEx _ _ r :: nvtxRangeEnd r' :: rest =>
      r = r' /\ ranges_paired rest
  | _ => False
  end.

(** The trace of one iteration of the loop of [Run] with the flag on: the
    range of the operator [o], started with the id [range], encloses the
    events [inside]. *)
Definition in_range {Workspace} (net_def : NetDef.t)
  (o : OperatorBase.t Workspace) (range : Z) (inside : list event)
  : list (event + nvtx_call) :=
  inr (nvtxRangeStartEx kRunColor (OperatorDef.type (debug_def net_def o))
         range)
  :: map inl inside ++ [inr (nvtxRangeEnd range)].

(** The trace of successful invocations of [ops], from position [idx] on and
    after [n] ranges, one range around each. *)
Fixpoint ranged_runs {Workspace} (nvtx_id : nat -> Z) (net_def : NetDef.t)
  (idx n : nat) (ops : list (OperatorBase.t Workspace))
  : list (event + nvtx_call) :=
  match ops with
  | [] => []
  | o :: rest =>
      in_range net_def o (nvtx_id n) [OperatorRun idx true]
      ++ ranged_runs nvtx_id net_def (S idx) (S n) rest
  end.

Definition started_messages (l : list nvtx_call) : list string :=
  flat_map (fun c => match c with
                     | nvtxRangeStartEx _ m _ => [m]
                     | nvtxRangeEnd _ => []
                     end) l.

(** [n] consecutive runs of [ops] from [w], each with all operators
    succeeding in turn. *)
Fixpoint passes_succeed {Workspace} (ops : list (OperatorBase.t Workspace))
  (n : nat) (w : Workspace) : Prop :=
  match n with
  | O => True
  | S n' => succeed_in_sequence ops w /\ passes_succeed ops n' (effects ops w)
  end.

(** The workspace after [n] runs of [ops] from [w]. *)
Fixpoint after_passes {Workspace} (ops : list (OperatorBase.t Workspace))
  (n : nat) (w : Workspace) : Workspace :=
  match n with
  | O => w
  | S n' => after_passes ops n' (effects ops w)
  end.

(** The operator invocations and [ResetEvent] calls of a log. *)
Definition is_operator_event (e : event) : bool :=
  match e with
  | OperatorRun _ _ | OperatorResetEvent _ => true
  | _ => false
  end.
Definition operator_events (l : list event) : list event :=
  filter is_operator_event l.

Definition reset_events (n : nat) : list event :=
  map OperatorResetEvent (seq 0 n).

(** The definition the constructor hands to the factory for [d]. *)
Definition handed_def (net_def : NetDef.t) (d : OperatorDef.t)
  : OperatorDef.t :=
  match OperatorDef.device_option d, NetDef.device_option net_def with
  | None, Some net_device_option =>
      OperatorDef.set_device_option d net_device_option
  | _, _ => d
  end.

(** The costs inferred for the operators of [ops] whose type has a cost
    function, in order, each from the input shapes found when its turn comes
    in a run from [w]. *)
Fixpoint costs_from {Workspace}
  (Schema_InferCost :
     string -> option (OperatorDef.t -> list TensorShape -> Cost))
  (net_def : NetDef.t) (ops : list (OperatorBase.t Workspace))
  (w : Workspace) : list Cost :=
  match ops with
  | [] => []
  | o :: rest =>
      match Schema_InferCost (OperatorDef.type (debug_def net_def o)) with
      | Some InferCost =>
          [InferCost (debug_def net_def o) (OperatorBase.InputTensorShapes o w)]
      | None => []
      end
      ++ costs_from Schema_InferCost net_def rest
           (snd (OperatorBase.Run o w))
  end.

(** Keys in strictly increasing order. *)
Definition keys_increasing (m : CaffeMap) : Prop :=
  StronglySorted (fun a b => String.ltb a b = true) (map fst m).

(** ** Concrete nets, used to evaluate the executor *)

Module Demo.

(** The workspace is the list of the tags of the operators that have run, in
    order. *)
Definition Workspace : Type := list nat.

Definition def (nm ty : string) (dev : option DeviceOption) : OperatorDef.t :=
  {| OperatorDef.input := []; OperatorDef.output := ["Y"];
     OperatorDef.name := nm; OperatorDef.type := ty;
     OperatorDef.device_option := dev |}.

(** An operator that records its tag and reports [ok]. *)
Definition operator (d : OperatorDef.t) (tag : nat) (ok : bool)
  : OperatorBase.t Workspace :=
  {| OperatorBase.operator_def_ := OwnDef d;
     OperatorBase.Run := fun w => (ok, w ++ [tag]);
     OperatorBase.InputTensorShapes := fun _ => [] |}.

(** A factory: operators of type "Fail" report failure when run, the type
    "Unknown" is not registered. *)
Definition CreateOperator (d : OperatorDef.t) (idx : nat)
  : option (OperatorBase.t Workspace) :=
  if String.eqb (OperatorDef.type d) "Unknown" then None
  else Some (operator d idx (negb (String.eqb (OperatorDef.type d) "Fail"))).

(** A base-class constructor: it names the net after its definition and
    rejects the definition without a name. *)
Definition NetBase_new (net_def : NetDef.t) : option string :=
  if String.eqb (NetDef.name net_def) "" then None
  else Some (NetDef.name net_def).

Definition gpu : DeviceOption := {| device_type := 1; cuda_gpu_id := 0 |}.
Definition cpu : DeviceOption := {| device_type := 0; cuda_gpu_id := 0 |}.

Definition net_def_2 : NetDef.t :=
  {| NetDef.name := "two"; 
     NetDef.op := [def "a" "Relu" None; def "b" "Conv" (Some cpu)];
     NetDef.device_option := Some gpu |}.

Definition mk_net (ops : list (OperatorBase.t Workspace))
  : SimpleNet Workspace :=
  {| name_ := "demo";
     net_def_ := {| NetDef.name := "demo"; NetDef.op := [];
                    NetDef.device_option := None |};
     operators_ := ops |}.

Definition ok_op (ty : string) (tag : nat) : OperatorBase.t Workspace :=
  operator (def "" ty None) tag true.
Definition failing_op (tag : nat) : OperatorBase.t Workspace :=
  operator (def "" "Fail" None) tag false.

Definition net_ok_1 : SimpleNet Workspace := mk_net [ok_op "Relu" 0%nat].
Definition net_ok_2 : SimpleNet Workspace :=
  mk_net [ok_op "Relu" 0%nat; ok_op "Conv" 1%nat].
Definition net_fail_2_of_3 : SimpleNet Workspace :=
  mk_net [ok_op "Relu" 0%nat; failing_op 1%nat; ok_op "Conv" 2%nat].
Definition net_fail_1 : SimpleNet Workspace := mk_net [failing_op 0%nat].

Definition start : world Workspace :=
  {| workspace := []; timer_reads := 0%nat |}.

(** Timer readings: the [k]-th reading is [k + 1] ms. *)
Definition elapsed_ms (k : nat) : F32.t := F32.of_int (Z.of_nat k + 1).

Definition no_schema (ty : string)
  : option (OperatorDef.t -> list TensorShape -> Cost) := None.

(** A sorting routine: it inserts the entries one by one, from the last to
    the first, into the sorted rest, before the entries that compare
    equal. *)
Fixpoint insert_before_equal (comp : string * F32.t -> string * F32.t -> bool)
  (x : string * F32.t) (l : list (string * F32.t)) : list (string * F32.t) :=
  match l with
  | [] => [x]
  | y :: l' => if comp y x then y :: insert_before_equal comp x l' else x :: l
  end.

(** Keeps the order of equal entries. *)
Definition sort_stable (comp : string * F32.t -> string * F32.t -> bool)
  (l : list (string * F32.t)) : list (string * F32.t) :=
  fold_right (insert_before_equal comp) [] l.

(** A timer that reads 1 ms every time. *)
Definition elapsed_1ms (k : nat) : F32.t := F32.of_int 1.

(** The net the constructor builds from [net_def_2] with [CreateOperator]. *)
Definition built_2 : SimpleNet Workspace :=
  {| name_ := "two";
     net_def_ := net_def_2;
     operators_ :=
       [operator (OperatorDef.set_device_option (def "a" "Relu" None) gpu)
          0%nat true;
        OperatorBase.set_debug_def
          (operator (def "b" "Conv" (Some cpu)) 1%nat true) (NetDefOp 1)] |}.

(** Seventeen operator types with the same aggregated value, in the order in
    which the map is traversed, and a net with one operator of each. *)
Definition types_17 : list string :=
  ["A"; "B"; "C"; "D"; "E"; "F"; "G"; "H"; "I"; "J"; "K"; "L"; "M"; "N"; "O";
   "P"; "Q"].

Definition tied_17 : CaffeMap := map (fun ty => (ty, F32.of_int 1)) types_17.

Definition net_17 : SimpleNet Workspace :=
  mk_net (map (fun p => ok_op (fst p) (snd p))
            (combine types_17 (seq 0 17))).

(** Every type has a cost function, with the same cost. *)
Definition unit_schema (ty : string)
  : option (OperatorDef.t -> list TensorShape -> Cost) :=
  Some (fun _ _ => {| flops := 1000; bytes_moved := 8; params_bytes := 4 |}).

(** An operator that succeeds as long as fewer than [limit] operators have
    run before it. *)
Definition tiring_op (ty : string) (tag limit : nat)
  : OperatorBase.t Workspace :=
  {| OperatorBase.operator_def_ := OwnDef (def "t" ty None);
     OperatorBase.Run := fun w => (Nat.ltb (List.length w) limit, w ++ [tag]);
     OperatorBase.InputTensorShapes := fun w => [[Z.of_nat (List.length w)]] |}.

(** Range ids 1, 2, 3, ... *)
Definition nvtx_id (k : nat) : Z := Z.of_nat k + 1.

(** A cost function for the type "Conv" only: the flops are the first
    dimension of the first input. *)
Definition conv_schema (ty : string)
  : option (OperatorDef.t -> list TensorShape -> Cost) :=
  if String.eqb ty "Conv"
  then Some (fun _ shapes =>
               {| flops := hd 0 (hd [] shapes); bytes_moved := 8;
                  params_bytes := 4 |})
  else None.

(** Two operators; the second fails from its second invocation on. *)
Definition net_tires : SimpleNet Workspace :=
  mk_net [tiring_op "Relu" 0 100; tiring_op "Conv" 1 3].

(** Two operators that do not fail and whose input shape is the number of
    operators run so far. *)
Definition net_shaped : SimpleNet Workspace :=
  mk_net [tiring_op "Relu" 0 100; tiring_op "Conv" 1 100].

(** Range ids of a library that fails to start the second range. *)
Definition nvtx_id_bad (k : nat) : Z := if Nat.eqb k 1 then 0 else 5.

(** Seventy-six values on which the median-of-three introsort of libstdc++
    exhausts its depth limit and falls back to the heap sort, with equal
    values among them; and the positions of the input in the order in which
    [std::sort] with the comparison [x.second > y.second] leaves them (g++
    12.2.0). *)
Definition killer_76 : list Z :=
  [0; (-19); (-1); (-20); (-2); (-21); (-3); (-22); (-4); (-23); (-5);
   (-24); (-6); (-25); (-7); (-26); (-8); (-27); (-9); (-28); (-10); (-29);
   (-11); (-30); (-12); (-31); (-13); (-32); (-14); (-33); (-15); (-34);
   (-16); (-35); (-17); (-36); (-18); (-37); (-1); (-2); (-3); (-4); (-5);
   (-6); (-7); (-8); (-9); (-10); (-11); (-12); (-13); (-14); (-15); (-16);
   (-17); (-18); (-19); (-20); (-21); (-22); (-23); (-24); (-25); (-26);
   (-27); (-28); (-29); (-30); (-31); (-32); (-33); (-34); (-35); (-36);
   (-37); (-38)]%Z.

Definition killer_76_sorted : list nat :=
  [0; 38; 2; 39; 4; 40; 6; 41; 8; 42; 10; 43; 12; 14; 44; 45; 16; 46; 18;
   20; 47; 48; 22; 49; 24; 50; 26; 51; 28; 52; 30; 53; 32; 54; 34; 55; 36;
   1; 56; 57; 3; 58; 5; 59; 7; 60; 9; 61; 11; 62; 13; 63; 15; 17; 64; 19;
   65; 21; 66; 23; 67; 25; 68; 69; 27; 29; 70; 31; 71; 72; 33; 73; 35; 37;
   74; 75]%nat.

End Demo.

(** * Properties *)

(** ** The execution monad *)

Section MonadFacts.
Context {Workspace : Type} {A B : Type}.
Implicit Types (m : M Workspace A) (f : A -> M Workspace B).

Lemma bind_Returned m f s a :
  value (m s) = Returned a ->
  bind m f s =
    {| value := value (f a (after (m s)));
       after := after (f a (after (m s)));
       log := log (m s) ++ log (f a (after (m s))) |}.
Proof. unfold bind. intros ->. reflexivity. Qed.

Lemma bind_Threw m f s e :
  value (m s) = Threw e ->
  bind m f s = {| value := Threw e; after := after (m s); log := log (m s) |}.
Proof. unfold bind. intros ->. reflexivity. Qed.

End MonadFacts.

Lemma invoked_app (l1 l2 : list event) :
  invoked (l1 ++ l2) = invoked l1 ++ invoked l2.
Proof. apply flat_map_app. Qed.

Lemma invoked_successful_runs (idx n : nat) :
  invoked (successful_runs idx n) = seq idx n.
Proof.
  unfold successful_runs. revert idx.
  induction n as [|n IH]; intros idx; simpl; [reflexivity|].
  f_equal. apply IH.
Qed.

Lemma count_app (p : event -> bool) (l1 l2 : list event) :
  count p (l1 ++ l2) = (count p l1 + count p l2)%nat.
Proof. unfold count. rewrite filter_app, length_app. reflexivity. Qed.

Lemma successful_runs_S (idx n : nat) :
  successful_runs idx (S n) = OperatorRun idx true :: successful_runs (S idx) n.
Proof. reflexivity. Qed.

Lemma successful_runs_plain (p : event -> bool) (idx n : nat) :
  (forall i, p (OperatorRun i true) = false) ->
  filter p (successful_runs idx n) = [].
Proof.
  intros Hp. unfold successful_runs. revert idx.
  induction n as [|n IH]; intros idx; simpl; [reflexivity|].
  rewrite Hp. apply IH.
Qed.

(** ** Run *)

Section RunFacts.
Context {Workspace : Type}.
Implicit Types (ops : list (OperatorBase.t Workspace)) (s : world Workspace).

Lemma Run_loop_end net_def ops :
  forall idx s, loop_end net_def idx ops s (Run_loop net_def idx ops s).
Proof.
  induction ops as [|o rest IH]; intros idx s.
  - destruct s as [w t]. apply loop_completed.
  - cbn [Run_loop]. unfold bind at 1. cbn [call_Run value after log].
    destruct (OperatorBase.Run o (workspace s)) as [res w'] eqn:Ho.
    cbn [fst snd]. destruct res; cbn [negb].
    + specialize (IH (S idx) {| workspace := w'; timer_reads := timer_reads s |}).
      remember (Run_loop net_def (S idx) rest
                  {| workspace := w'; timer_reads := timer_reads s |}) as r.
      clear Heqr.
      replace w' with (snd (OperatorBase.Run o (workspace s))) in IH
        by (rewrite Ho; reflexivity).
      destruct IH as [|k o' Hnth Hfail]; cbn [value after log workspace timer_reads] in *.
      * apply (loop_completed net_def idx (o :: rest) s).
      * replace (OperatorRun (S idx + k) false)
          with (OperatorRun (idx + S k) false)
          by (f_equal; lia).
        apply (loop_failed net_def idx (o :: rest) s (S k) o'); assumption.
    + unfold bind. cbn [emit ret value after log app].
      replace (OperatorRun idx false) with (OperatorRun (idx + 0) false)
        by (f_equal; lia).
      replace w' with (snd (OperatorBase.Run o (workspace s)))
        by (rewrite Ho; reflexivity).
      apply (loop_failed net_def idx (o :: rest) s 0 o).
      * reflexivity.
      * cbn [firstn effects fold_left]. rewrite Ho. reflexivity.
Qed.

Lemma In_successful_runs (e : event) (idx n : nat) :
  In e (successful_runs idx n) ->
  exists i, e = OperatorRun i true /\ (idx <= i < idx + n)%nat.
Proof.
  unfold successful_runs. rewrite in_map_iff.
  intros [i [<- Hi]]. apply in_seq in Hi. exists i. split; [reflexivity|lia].
Qed.

(** The two ways [Run] ends. *)
Lemma Run_cases (net : SimpleNet Workspace) s :
  Run net s =
    {| value := Returned true;
       after := {| workspace := effects (operators_ net) (workspace s);
                   timer_reads := timer_reads s |};
       log := ObserverStart
              :: successful_runs 0 (List.length (operators_ net))
              ++ [ObserverStop] |}
  \/ exists k o,
       nth_error (operators_ net) k = Some o /\
       fst (OperatorBase.Run o
              (effects (firstn k (operators_ net)) (workspace s))) = false /\
       Run net s =
         {| value := Returned false;
            after := {| workspace :=
                          snd (OperatorBase.Run o
                                 (effects (firstn k (operators_ net))
                                    (workspace s)));
                        timer_reads := timer_reads s |};
            log := ObserverStart
                   :: successful_runs 0 k
                   ++ [OperatorRun k false;
                       LogError_OperatorFailed (debug_def (net_def_ net) o)] |}.
Proof.
  unfold Run, StartAllObservers, StopAllObservers, bind, emit, ret.
  cbn [value after log].
  pose proof (Run_loop_end (net_def_ net) (operators_ net) 0 s) as HL.
  remember (Run_loop (net_def_ net) 0 (operators_ net) s) as r.
  clear Heqr.
  destruct HL as [|k o Hnth Hfail]; cbn [value after log app].
  - left. reflexivity.
  - right. exists k, o. repeat split; try assumption.
    rewrite app_nil_r. reflexivity.
Qed.

Lemma all_succeed_in_sequence ops :
  Forall always_succeeds ops -> forall w, succeed_in_sequence ops w.
Proof.
  induction 1 as [|o rest Ho _ IH]; intros w; cbn [succeed_in_sequence].
  - exact I.
  - split; [apply Ho|apply IH].
Qed.

Lemma succeed_in_sequence_nth ops :
  forall w k o,
    succeed_in_sequence ops w -> nth_error ops k = Some o ->
    fst (OperatorBase.Run o (effects (firstn k ops) w)) = true.
Proof.
  induction ops as [|o' rest IH]; intros w k o Hs Hk.
  - destruct k; discriminate Hk.
  - destruct Hs as [Ho' Hrest]. destruct k as [|k]; cbn [nth_error] in Hk.
    + injection Hk as <-. exact Ho'.
    + cbn [firstn effects fold_left]. apply (IH _ k o Hrest Hk).
Qed.

(** When no operator fails on the way, [Run] is the successful pass. *)
Lemma Run_sequence_eq (net : SimpleNet Workspace) s :
  succeed_in_sequence (operators_ net) (workspace s) ->
  Run net s =
    {| value := Returned true;
       after := {| workspace := effects (operators_ net) (workspace s);
                   timer_reads := timer_reads s |};
       log := ObserverStart
              :: successful_runs 0 (List.length (operators_ net))
              ++ [ObserverStop] |}.
Proof.
  intros Hs. destruct (Run_cases net s) as [H | [k [o [Hnth [Hfail _]]]]].
  - exact H.
  - rewrite (succeed_in_sequence_nth _ _ k o Hs Hnth) in Hfail.
    discriminate Hfail.
Qed.

Lemma Run_pass_eq (net : SimpleNet Workspace) s :
  all_succeed net ->
  Run net s =
    {| value := Returned true;
       after := {| workspace := effects (operators_ net) (workspace s);
                   timer_reads := timer_reads s |};
       log := ObserverStart
              :: successful_runs 0 (List.length (operators_ net))
              ++ [ObserverStop] |}.
Proof.
  intros Hall. apply Run_sequence_eq.
  apply all_succeed_in_sequence. exact Hall.
Qed.

(** C1: on a net in which every operator returns success when its turn comes,
    [Run] returns [true] and the operators invoked are those at positions
    0, 1, ..., N-1 of [operators_], each once, in that order: the events of
    the call are the start notification, the N invocations in list order,
    each reporting success, and the stop notification, and the workspace left
    is the one obtained by applying the [Run()] of each operator once, in
    list order, each to the workspace its predecessor left. *)
Theorem Run_all_succeed (net : SimpleNet Workspace) s :
  succeed_in_sequence (operators_ net) (workspace s) ->
  value (Run net s) = Returned true /\
  invoked (log (Run net s)) = seq 0 (List.length (operators_ net)) /\
  log (Run net s) =
    ObserverStart
    :: map (fun idx => OperatorRun idx true)
         (seq 0 (List.length (operators_ net)))
    ++ [ObserverStop] /\
  workspace (after (Run net s)) =
    fold_left (fun w o => snd (OperatorBase.Run o w)) (operators_ net)
      (workspace s) /\
  (forall k o, nth_error (operators_ net) k = Some o ->
     fst (OperatorBase.Run o
            (fold_left (fun w o' => snd (OperatorBase.Run o' w))
               (firstn k (operators_ net)) (workspace s))) = true) /\
  timer_reads (after (Run net s)) = timer_reads s.
Proof.
  intros Hs. rewrite (Run_sequence_eq net s Hs).
  cbn [value log after workspace timer_reads].
  split; [reflexivity|]. split; [|split; [reflexivity|]].
  - change (ObserverStart :: ?l) with ([ObserverStart] ++ l).
    rewrite !invoked_app, invoked_successful_runs. cbn [invoked flat_map app].
    apply app_nil_r.
  - split; [reflexivity|]. split; [|reflexivity].
    intros k o Hk. exact (succeed_in_sequence_nth _ _ k o Hs Hk).
Qed.

(** C2: when the operator at position [k] reports failure during [Run], [Run]
    returns [false]; the operators invoked are exactly those at positions
    0..k, so none after [k] runs; and the workspace [Run] leaves is the one the
    failing operator left when run on the workspace produced by the operators
    before it: their effects are still there. *)
Theorem Run_first_failure (net : SimpleNet Workspace) s (k : nat) :
  In (OperatorRun k false) (log (Run net s)) ->
  value (Run net s) = Returned false /\
  invoked (log (Run net s)) = seq 0 (S k) /\
  (forall j r, In (OperatorRun j r) (log (Run net s)) -> (j <= k)%nat) /\
  exists o,
    nth_error (operators_ net) k = Some o /\
    workspace (after (Run net s)) =
      snd (OperatorBase.Run o
             (effects (firstn k (operators_ net)) (workspace s))).
Proof.
  intros Hin.
  destruct (Run_cases net s) as [H | [k' [o [Hnth [Hfail H]]]]];
    rewrite H in *; cbn [value after log workspace] in *.
  - exfalso. destruct Hin as [Hin|Hin]; [discriminate|].
    apply in_app_or in Hin. destruct Hin as [Hin|[Hin|[]]]; [|discriminate].
    apply In_successful_runs in Hin. destruct Hin as [i [Hi _]]. discriminate.
  - assert (k = k') as ->.
    { destruct Hin as [Hin|Hin]; [discriminate|].
      apply in_app_or in Hin. destruct Hin as [Hin|[Hin|[Hin|[]]]].
      - apply In_successful_runs in Hin. destruct Hin as [i [Hi _]].
        discriminate.
      - congruence.
      - discriminate. }
    split; [reflexivity|]. split; [|split].
    + change (ObserverStart :: ?l) with ([ObserverStart] ++ l).
      rewrite !invoked_app, invoked_successful_runs.
      cbn [invoked flat_map app]. rewrite seq_S. reflexivity.
    + intros j r [Hj|Hj]; [discriminate|].
      apply in_app_or in Hj. destruct Hj as [Hj|[Hj|[Hj|[]]]].
      * apply In_successful_runs in Hj. destruct Hj as [i [Hi Hr]].
        injection Hi as -> _. lia.
      * injection Hj as -> _. lia.
      * discriminate.
    + exists o. split; [assumption|reflexivity].
Qed.

(** C7: every call of [Run] notifies the observers of the start exactly once;
    it returns [false] exactly when an operator reported failure, and then the
    stop notification does not fire, while on the path where all operators
    succeed it fires exactly once. *)
Theorem Run_observers (net : SimpleNet Workspace) s :
  count is_start (log (Run net s)) = 1%nat /\
  value (Run net s) =
    Returned (negb (existsb is_failed_run (log (Run net s)))) /\
  count is_stop (log (Run net s)) =
    (if existsb is_failed_run (log (Run net s)) then 0 else 1)%nat.
Proof.
  destruct (Run_cases net s) as [H | [k [o [_ [_ H]]]]];
    rewrite H; cbn [value log];
    change (ObserverStart :: ?l) with ([ObserverStart] ++ l);
    rewrite !existsb_app, !count_app; unfold count;
    rewrite !successful_runs_plain by reflexivity;
    cbn [filter is_start is_stop is_failed_run List.length existsb orb Nat.add].
  - assert (E : existsb is_failed_run
                  (successful_runs 0 (List.length (operators_ net))) = false).
    { apply not_true_is_false. intros Hex. apply existsb_exists in Hex.
      destruct Hex as [e [He Hf]]. apply In_successful_runs in He.
      destruct He as [i [-> _]]. discriminate. }
    rewrite E. repeat split.
  - rewrite orb_true_r. repeat split.
Qed.

(** C8: [RunAsync] gives the result of [Run]: the same return value, the same
    workspace and timer state, and the same sequence of observer
    notifications, operator invocations and log lines; it returns only once
    the sequential pass of [Run] has ended. *)
Theorem RunAsync_is_Run (net : SimpleNet Workspace) s :
  RunAsync net s = Run net s.
Proof.
  unfold RunAsync, bind.
  destruct (Run net s) as [v a l]; cbn [value after log].
  destruct v; cbn [ret value after log]; [rewrite app_nil_r|]; reflexivity.
Qed.

End RunFacts.

(** ** Construction *)

Section ConstructionFacts.
Context {Workspace : Type}.
Variable NetBase_new : NetDef.t -> option string.
Variable CreateOperator : OperatorDef.t -> nat -> option (OperatorBase.t Workspace).

Lemma SimpleNet_loop_made net_def :
  forall todo idx operators out,
    SimpleNet_loop CreateOperator net_def todo idx operators = Returned out ->
    exists new,
      out = operators ++ new /\ List.length new = todo /\
      forall j o, nth_error new j = Some o ->
        made_from CreateOperator net_def (idx + j)
          (nth (idx + j) (NetDef.op net_def) OperatorDef.empty) o.
Proof.
  induction todo as [|todo IH]; intros idx operators out H; cbn [SimpleNet_loop] in H.
  - injection H as <-. exists []. rewrite app_nil_r. repeat split.
    intros [|j] o Hj; discriminate.
  - set (d := nth idx (NetDef.op net_def) OperatorDef.empty) in *.
    match type of H with
    | match ?c with _ => _ end = _ => destruct c as [o1|] eqn:Hc
    end; [|discriminate].
    apply IH in H. destruct H as [new [-> [Hlen Hmade]]].
    exists (o1 :: new). rewrite <- app_assoc. cbn [app List.length].
    repeat split; [congruence|].
    intros [|j] o Hj; cbn [nth_error] in Hj.
    + injection Hj as <-. rewrite Nat.add_0_r. fold d.
      unfold made_from, OperatorDef.has_device_option,
        NetDef.has_device_option, NetDef.get_device_option in *.
      destruct (OperatorDef.device_option d), (NetDef.device_option net_def);
        cbn [negb andb] in Hc;
        try exact Hc;
        (destruct (CreateOperator d idx) as [o0|]; [|discriminate];
         injection Hc as <-; exists o0; split; reflexivity).
    + replace (idx + S j)%nat with (S idx + j)%nat by lia.
      apply Hmade. exact Hj.
Qed.

(** C6: in the net that the constructor builds from [net_def], the net
    definition held is [net_def] itself, with every operator definition as it
    was; there is one operator per definition, in order; the operator for a
    definition [d] without device option, when the net has one, is the one the
    factory makes from the copy of [d] that carries the net's device option;
    any other definition is handed to the factory as it is, and the operator
    made refers to that very definition of the net, so that a device option
    [d] has of its own is the one the operator reports. *)
Theorem SimpleNet_new_placement (net_def : NetDef.t)
  (net : SimpleNet Workspace) :
  SimpleNet_new NetBase_new CreateOperator net_def = Returned net ->
  net_def_ net = net_def /\
  List.length (operators_ net) = NetDef.op_size net_def /\
  forall idx d, nth_error (NetDef.op net_def) idx = Some d ->
    nth_error (NetDef.op (net_def_ net)) idx = Some d /\
    exists o, nth_error (operators_ net) idx = Some o /\
      match OperatorDef.device_option d, NetDef.device_option net_def with
      | None, Some net_device_option =>
          CreateOperator
            {| OperatorDef.input := OperatorDef.input d;
               OperatorDef.output := OperatorDef.output d;
               OperatorDef.name := OperatorDef.name d;
               OperatorDef.type := OperatorDef.type d;
               OperatorDef.device_option := Some net_device_option |} idx
          = Some o
      | own, _ =>
          (exists o0, CreateOperator d idx = Some o0 /\
                      o = OperatorBase.set_debug_def o0 (NetDefOp idx)) /\
          debug_def (net_def_ net) o = d /\
          OperatorDef.device_option (debug_def (net_def_ net) o) = own
      end.
Proof.
  unfold SimpleNet_new. intros H.
  destruct (NetBase_new net_def) as [name|]; [|discriminate].
  destruct (SimpleNet_loop CreateOperator net_def (NetDef.op_size net_def) 0 [])
    as [ops|e] eqn:Hloop; [|discriminate].
  injection H as <-. cbn [net_def_ operators_].
  apply SimpleNet_loop_made in Hloop.
  destruct Hloop as [new [-> [Hlen Hmade]]]. cbn [app].
  split; [reflexivity|]. split; [exact Hlen|].
  intros idx d Hd. split; [exact Hd|].
  assert (Hidx : (idx < List.length new)%nat).
  { rewrite Hlen. unfold NetDef.op_size. apply nth_error_Some. congruence. }
  destruct (nth_error new idx) as [o|] eqn:Ho;
    [|apply nth_error_None in Ho; lia].
  exists o. split; [reflexivity|].
  specialize (Hmade idx o Ho). cbn [Nat.add] in Hmade.
  rewrite (nth_error_nth _ _ OperatorDef.empty Hd) in Hmade.
  unfold made_from in Hmade.
  assert (Hdbg : forall o0, o = OperatorBase.set_debug_def o0 (NetDefOp idx) ->
                            debug_def net_def o = d).
  { intros o0 ->. unfold debug_def. cbn. apply nth_error_nth. exact Hd. }
  destruct (OperatorDef.device_option d) eqn:Hown,
           (NetDef.device_option net_def) eqn:Hnet.
  - destruct Hmade as [o0 [H1 H2]]. rewrite (Hdbg o0 H2). eauto.
  - destruct Hmade as [o0 [H1 H2]]. rewrite (Hdbg o0 H2). eauto.
  - exact Hmade.
  - destruct Hmade as [o0 [H1 H2]]. rewrite (Hdbg o0 H2). eauto.
Qed.

End ConstructionFacts.

(** ** TEST_Benchmark *)

Section YieldFacts.
Context {Workspace : Type}.
Implicit Types (s : world Workspace).

Lemma yields_ret {A} (a : A) s : yields (ret a) s a s [].
Proof. reflexivity. Qed.

Lemma yields_emit e s : yields (emit e) s tt s [e].
Proof. reflexivity. Qed.

Lemma yields_bind {A B} (m : M Workspace A) (f : A -> M Workspace B)
  s a s1 l1 b s2 l2 :
  yields m s a s1 l1 -> yields (f a) s1 b s2 l2 ->
  yields (bind m f) s b s2 (l1 ++ l2).
Proof.
  unfold yields, bind. intros -> H. cbn [value after log]. rewrite H.
  reflexivity.
Qed.

Lemma throws_bind {A B} (m : M Workspace A) (f : A -> M Workspace B)
  s e s1 l1 :
  throws m s e s1 l1 -> throws (bind m f) s e s1 l1.
Proof. unfold throws, bind. intros ->. reflexivity. Qed.

Lemma throws_after {A B} (m : M Workspace A) (f : A -> M Workspace B)
  s a s1 l1 e s2 l2 :
  yields m s a s1 l1 -> throws (f a) s1 e s2 l2 ->
  throws (bind m f) s e s2 (l1 ++ l2).
Proof.
  unfold yields, throws, bind. intros -> H. cbn [value after log]. rewrite H.
  reflexivity.
Qed.

Lemma yields_value {A} (m : M Workspace A) s a s' l :
  yields m s a s' l -> value (m s) = Returned a.
Proof. unfold yields. intros ->. reflexivity. Qed.

Lemma yields_emit_all es s : yields (emit_all es) s tt s es.
Proof.
  induction es as [|e es IH]; cbn [emit_all].
  - apply yields_ret.
  - apply (yields_bind _ _ s tt s [e] tt s es); [apply yields_emit|exact IH].
Qed.

Lemma yields_ResetEvent_loop (ops : list (OperatorBase.t Workspace)) :
  forall idx s, exists l, yields (ResetEvent_loop idx ops) s tt s l /\ invoked l = [].
Proof.
  induction ops as [|o ops IH]; intros idx s; cbn [ResetEvent_loop].
  - exists []. split; [apply yields_ret|reflexivity].
  - destruct (IH (S idx) s) as [l [Hl Hinv]].
    exists ([OperatorResetEvent idx] ++ l). split.
    + eapply yields_bind; [apply yields_emit|exact Hl].
    + rewrite invoked_app, Hinv. reflexivity.
Qed.

Lemma yields_operator_lines net_def main_runs b
  (ops : list (OperatorBase.t Workspace)) :
  forall idx s, exists l, yields (operator_lines net_def main_runs b idx ops) s tt s l.
Proof.
  induction ops as [|o ops IH]; intros idx s; cbn [operator_lines].
  - exists []. apply yields_ret.
  - destruct (IH (S idx) s) as [l Hl]. eexists.
    eapply yields_bind; [apply yields_emit|exact Hl].
Qed.

Section WithCollaborators.
Variable elapsed_ms : nat -> F32.t.
Variable std_sort :
  (string * F32.t -> string * F32.t -> bool) ->
  list (string * F32.t) -> list (string * F32.t).
Variable Schema_InferCost :
  string -> option (OperatorDef.t -> list TensorShape -> Cost).

Lemma yields_type_report main_runs b s :
  yields (type_report std_sort main_runs b) s tt s
    (metric_report std_sort "Time" (F64.div F64.lit_1 (F64.of_int main_runs))
       "ms" (time_per_op_type b)
     ++ metric_report std_sort "FLOP" F64.lit_1e_9 "GFLOP"
          (flops_per_op_type b)
     ++ metric_report std_sort "Feature Memory" F64.lit_1e_6 "MB"
          (memory_bytes_per_op_type b)
     ++ metric_report std_sort "Parameter Memory" F64.lit_1e_6 "MB"
          (param_bytes_per_op_type b)).
Proof.
  unfold type_report.
  do 3 (eapply yields_bind; [apply yields_emit_all|]).
  apply yields_emit_all.
Qed.

End WithCollaborators.
End YieldFacts.

Lemma invoked_pass_log (n : nat) : invoked (pass_log n) = seq 0 n.
Proof.
  unfold pass_log.
  change (ObserverStart :: ?l) with ([ObserverStart] ++ l).
  rewrite !invoked_app, invoked_successful_runs. cbn [invoked flat_map app].
  apply app_nil_r.
Qed.

Lemma invoked_concat_repeat (l : list event) (n : nat) :
  invoked (List.concat (repeat l n)) = List.concat (repeat (invoked l) n).
Proof.
  induction n as [|n IH]; cbn [repeat List.concat]; [reflexivity|].
  rewrite invoked_app, IH. reflexivity.
Qed.

Lemma vector_add_at_app (pre post : list F32.t) (y x : F32.t) :
  vector_add_at (List.length pre) x (pre ++ y :: post)
  = pre ++ F32.add y x :: post.
Proof.
  induction pre as [|p pre IH]; cbn [List.length app vector_add_at].
  - reflexivity.
  - rewrite IH. reflexivity.
Qed.

Lemma add_readings_map_seq (f g : nat -> F32.t) (r : nat) :
  forall n a,
    add_readings (map f (seq a n)) (map g (seq (r + a) n))
    = map (fun idx => F32.add (f idx) (g (r + idx)%nat)) (seq a n).
Proof.
  unfold add_readings.
  induction n as [|n IH]; intros a; cbn [seq map combine]; [reflexivity|].
  cbn [fst snd]. f_equal.
  replace (S (r + a)) with (r + S a)%nat by lia. apply IH.
Qed.

Lemma repeat_map_seq {A} (x : A) (n : nat) :
  forall a, repeat x n = map (fun _ => x) (seq a n).
Proof.
  induction n as [|n IH]; intros a; cbn [repeat seq map]; [reflexivity|].
  f_equal. apply IH.
Qed.

Lemma fold_left_shift (e : nat -> F32.t) (r n idx : nat) :
  forall k a x,
    fold_left (fun acc i => F32.add acc (e (r + i * n + idx)%nat))
      (seq (S a) k) x
    = fold_left (fun acc i => F32.add acc (e (r + n + i * n + idx)%nat))
        (seq a k) x.
Proof.
  induction k as [|k IH]; intros a x; cbn [seq fold_left]; [reflexivity|].
  replace (r + S a * n + idx)%nat with (r + n + a * n + idx)%nat by lia.
  apply IH.
Qed.

Section BenchmarkFacts.
Context {Workspace : Type}.
Variable elapsed_ms : nat -> F32.t.
Variable std_sort :
  (string * F32.t -> string * F32.t -> bool) ->
  list (string * F32.t) -> list (string * F32.t).
Variable Schema_InferCost :
  string -> option (OperatorDef.t -> list TensorShape -> Cost).
Implicit Types (net : SimpleNet Workspace) (s : world Workspace)
  (ops : list (OperatorBase.t Workspace)).

Lemma yields_Run net s :
  all_succeed net ->
  yields (Run net) s true
    {| workspace := effects (operators_ net) (workspace s);
       timer_reads := timer_reads s |}
    (pass_log (List.length (operators_ net))).
Proof. intros Hall. apply Run_pass_eq. exact Hall. Qed.

(** The warm-up and the main loop: [n] enforced calls of [Run]. *)
Lemma yields_enforced_runs net (failed : nat -> EnforceNotMet) :
  all_succeed net ->
  forall n first s,
  exists w',
    yields (for_loop n first
              (fun i (_ : unit) => r <- Run net ;; CAFFE_ENFORCE r (failed i))
              tt) s tt
      {| workspace := w'; timer_reads := timer_reads s |}
      (List.concat (repeat (pass_log (List.length (operators_ net))) n)).
Proof.
  intros Hall. induction n as [|n IH]; intros first s; cbn [for_loop repeat List.concat].
  - exists (workspace s). destruct s. apply yields_ret.
  - destruct (IH (S first)
                {| workspace := effects (operators_ net) (workspace s);
                   timer_reads := timer_reads s |}) as [w' Hw'].
    exists w'. eapply yields_bind; [|exact Hw'].
    rewrite <- (app_nil_r (pass_log _)).
    eapply yields_bind; [apply yields_Run; exact Hall|].
    apply yields_ret.
Qed.

Lemma yields_gather_cost net_def o op_type b s :
  exists b1,
    yields (gather_cost Schema_InferCost net_def o op_type b) s b1 s [] /\
    time_per_op b1 = time_per_op b.
Proof.
  unfold gather_cost. destruct (Schema_InferCost op_type) as [InferCost|].
  - eexists. split; [reflexivity|reflexivity].
  - exists b. split; [apply yields_ret|reflexivity].
Qed.

(** One timed pass over the operators from position [idx] on: each entry of
    [time_per_op] from [idx] on gets the next timer reading added. *)
Lemma yields_individual_loop net_def i ops :
  Forall always_succeeds ops ->
  forall idx b s pre post,
    time_per_op b = pre ++ post ->
    List.length pre = idx ->
    List.length post = List.length ops ->
    exists b' s' l,
      yields (individual_loop elapsed_ms Schema_InferCost net_def i idx ops b)
        s b' s' l /\
      timer_reads s' = (timer_reads s + List.length ops)%nat /\
      time_per_op b' =
        pre ++ add_readings post
                 (map elapsed_ms (seq (timer_reads s) (List.length ops))).
Proof.
  induction ops as [|o rest IH]; intros Hall idx b s pre post Hb Hpre Hpost;
    cbn [individual_loop List.length].
  - exists b, s, []. split; [apply yields_ret|]. split; [lia|].
    destruct post; [|discriminate]. rewrite Hb. reflexivity.
  - destruct post as [|y post]; [discriminate|].
    inversion Hall as [|? ? Ho Hrest]; subst.
    set (op_type := OperatorDef.type (debug_def net_def o)).
    assert (Hg : exists b1,
               yields (if Nat.eqb i 0
                       then gather_cost Schema_InferCost net_def o op_type b
                       else ret b) s b1 s [] /\
               time_per_op b1 = time_per_op b).
    { destruct (Nat.eqb i 0).
      - apply yields_gather_cost.
      - exists b. split; [apply yields_ret|reflexivity]. }
    destruct Hg as [b1 [Hg Hb1]].
    set (s1 := {| workspace := snd (OperatorBase.Run o (workspace s));
                  timer_reads := timer_reads s |}).
    set (s2 := {| workspace := workspace s1;
                  timer_reads := S (timer_reads s1) |}).
    set (spent := elapsed_ms (timer_reads s)).
    destruct (IH Hrest (S (List.length pre))
                (add_time (List.length pre) op_type spent b1) s2
                (pre ++ [F32.add y spent]) post)
      as [b' [s' [l [Hy [Ht Htime]]]]].
    + cbn [add_time time_per_op]. rewrite Hb1, Hb, vector_add_at_app.
      rewrite <- app_assoc. reflexivity.
    + rewrite length_app. cbn [List.length]. lia.
    + cbn [List.length] in Hpost. lia.
    + exists b', s', ([] ++ [OperatorRun (List.length pre) true] ++ [] ++ [] ++ l).
      split; [|split].
      * eapply yields_bind; [exact Hg|].
        eapply (yields_bind _ _ s true s1); [|].
        { unfold yields, call_Run. rewrite (Ho (workspace s)).
          reflexivity. }
        eapply (yields_bind _ _ s1 tt s1); [apply yields_ret|].
        eapply (yields_bind _ _ s1 spent s2); [reflexivity|].
        exact Hy.
      * rewrite Ht. cbn [s2 s1 timer_reads]. lia.
      * rewrite Htime. cbn [s2 s1 timer_reads seq map].
        rewrite <- app_assoc. reflexivity.
Qed.

(** The timed passes of the individual phase: after [n] passes the entry of
    operator [idx] holds the sum of its [n] readings. *)
Lemma yields_individual_passes net :
  all_succeed net ->
  forall n i0 b s (f : nat -> F32.t),
    time_per_op b = map f (seq 0 (List.length (operators_ net))) ->
    exists b' s' l,
      yields (for_loop n i0
                (fun i b0 =>
                   ResetEvent_loop 0 (operators_ net) ;;;
                   individual_loop elapsed_ms Schema_InferCost (net_def_ net)
                     i 0 (operators_ net) b0) b) s b' s' l /\
      time_per_op b' =
        map (fun idx =>
               fold_left
                 (fun acc i =>
                    F32.add acc
                      (elapsed_ms (timer_reads s
                                   + i * List.length (operators_ net)
                                   + idx)%nat))
                 (seq 0 n) (f idx))
          (seq 0 (List.length (operators_ net))).
Proof.
  intros Hall. set (N := List.length (operators_ net)).
  induction n as [|n IH]; intros i0 b s f Hb; cbn [for_loop].
  - exists b, s, []. split; [apply yields_ret|]. rewrite Hb. reflexivity.
  - destruct (yields_ResetEvent_loop (operators_ net) 0%nat s) as [lr [Hr _]].
    destruct (yields_individual_loop (net_def_ net) i0 (operators_ net) Hall
                0%nat b s [] (time_per_op b))
      as [b1 [s1 [l1 [Hy [Ht Htime]]]]];
      [reflexivity|reflexivity|rewrite Hb, length_map, length_seq; reflexivity|].
    cbn [app] in Htime. rewrite Hb in Htime. fold N in Htime, Ht.
    replace (timer_reads s) with (timer_reads s + 0)%nat in Htime at 1 by lia.
    rewrite add_readings_map_seq in Htime.
    destruct (IH (S i0) b1 s1 _ Htime) as [b' [s' [l [Hy' Htime']]]].
    exists b', s', ((lr ++ l1) ++ l). split.
    + eapply yields_bind; [|exact Hy'].
      eapply yields_bind; [exact Hr|exact Hy].
    + rewrite Htime'. apply map_ext. intros idx.
      cbn [seq fold_left]. rewrite fold_left_shift. rewrite Ht.
      cbn [Nat.mul]. rewrite Nat.add_0_r. reflexivity.
Qed.

(** The value [TEST_Benchmark] returns when no operator fails. *)
Lemma yields_TEST_Benchmark net (warmup_runs main_runs : Z)
  (run_individual : bool) s :
  all_succeed net -> 0 <= warmup_runs -> 0 <= main_runs ->
  exists s' l,
    yields (TEST_Benchmark elapsed_ms std_sort Schema_InferCost net
              warmup_runs main_runs run_individual) s
      (F32.div (elapsed_ms (timer_reads s)) (F32.of_int main_runs)
       :: map (fun idx =>
                 F32.div
                   (if run_individual
                    then accumulated_time elapsed_ms (S (timer_reads s))
                           (List.length (operators_ net))
                           (Z.to_nat main_runs) idx
                    else F32.zero)
                   (F32.of_int main_runs))
            (seq 0 (List.length (operators_ net))))
      s' l.
Proof.
  intros Hall HW HM. set (N := List.length (operators_ net)).
  destruct (yields_enforced_runs net WarmupRunFailed Hall
              (Z.to_nat warmup_runs) 0%nat s) as [w1 H1].
  set (s1 := {| workspace := w1; timer_reads := timer_reads s |}) in *.
  destruct (yields_enforced_runs net MainRunFailed Hall
              (Z.to_nat main_runs) 0%nat s1) as [w2 H2].
  cbn [s1 timer_reads] in H2.
  set (s2 := {| workspace := w2; timer_reads := timer_reads s |}) in *.
  set (s3 := {| workspace := w2; timer_reads := S (timer_reads s) |}).
  set (millis := elapsed_ms (timer_reads s)).
  assert (Hpart : exists b s4 l4,
            yields (if run_individual
                    then run_individual_part elapsed_ms std_sort
                           Schema_InferCost net main_runs (bench_init N)
                    else ret (bench_init N)) s3 b s4 l4 /\
            time_per_op b =
              map (fun idx =>
                     if run_individual
                     then accumulated_time elapsed_ms (S (timer_reads s)) N
                            (Z.to_nat main_runs) idx
                     else F32.zero) (seq 0 N)).
  { destruct run_individual.
    - destruct (yields_individual_passes net Hall (Z.to_nat main_runs) 0%nat
                  (bench_init N) s3 (fun _ => F32.zero)
                  (repeat_map_seq F32.zero N 0%nat))
        as [b [s4 [l4 [H4 Ht4]]]].
      destruct (yields_operator_lines (net_def_ net) main_runs b
                  (operators_ net) 0%nat s4) as [l5 H5].
      exists b, s4. eexists. split; [|exact Ht4].
      unfold run_individual_part.
      eapply yields_bind; [exact H4|].
      eapply yields_bind; [exact H5|].
      eapply yields_bind; [apply yields_type_report|].
      apply yields_ret.
    - exists (bench_init N), s3, []. split; [apply yields_ret|].
      apply repeat_map_seq. }
  destruct Hpart as [b [s4 [l4 [H4 Ht4]]]].
  exists s4. eexists. unfold TEST_Benchmark.
  apply Z.leb_le in HW, HM. rewrite HW, HM. cbn [CAFFE_ENFORCE].
  eapply yields_bind; [apply yields_emit|].
  eapply yields_bind; [apply yields_emit|].
  eapply yields_bind; [apply yields_ret|].
  eapply yields_bind; [exact H1|].
  eapply yields_bind; [apply yields_emit|].
  eapply yields_bind; [apply yields_ret|].
  eapply yields_bind; [exact H2|].
  eapply (yields_bind _ _ s2 millis s3); [reflexivity|].
  eapply yields_bind; [apply yields_emit|].
  eapply yields_bind; [exact H4|].
  rewrite Ht4, map_map. apply yields_ret.
Qed.

(** A negative [warmup_runs] is rejected first. *)
Lemma throws_TEST_Benchmark_warmup_runs net (warmup_runs main_runs : Z)
  (run_individual : bool) s :
  warmup_runs < 0 ->
  throws (TEST_Benchmark elapsed_ms std_sort Schema_InferCost net
            warmup_runs main_runs run_individual) s
    (WarmupRunsNegative warmup_runs) s
    [LogInfo "Starting benchmark."; LogInfo "Running warmup runs."].
Proof.
  intros HW. apply Z.leb_gt in HW. unfold TEST_Benchmark. rewrite HW.
  cbn [CAFFE_ENFORCE].
  apply (throws_after _ _ s tt s [LogInfo "Starting benchmark."]
           _ s [LogInfo "Running warmup runs."]); [apply yields_emit|].
  apply (throws_after _ _ s tt s [LogInfo "Running warmup runs."]
           _ s []); [apply yields_emit|].
  apply throws_bind. reflexivity.
Qed.

(** A negative [main_runs] is rejected once the warm-up has completed. *)
Lemma throws_TEST_Benchmark_main_runs net (warmup_runs main_runs : Z)
  (run_individual : bool) s s1 l1 :
  0 <= warmup_runs -> main_runs < 0 ->
  yields (for_loop (Z.to_nat warmup_runs) 0
            (fun i (_ : unit) =>
               r <- Run net ;; CAFFE_ENFORCE r (WarmupRunFailed i)) tt)
    s tt s1 l1 ->
  throws (TEST_Benchmark elapsed_ms std_sort Schema_InferCost net
            warmup_runs main_runs run_individual) s
    (MainRunsNegative main_runs) s1
    ([LogInfo "Starting benchmark."; LogInfo "Running warmup runs."]
     ++ l1 ++ [LogInfo "Main runs."]).
Proof.
  intros HW HM H1. apply Z.leb_le in HW. apply Z.leb_gt in HM.
  unfold TEST_Benchmark. rewrite HW, HM. cbn [CAFFE_ENFORCE].
  apply (throws_after _ _ s tt s [LogInfo "Starting benchmark."]
           _ s1 ([LogInfo "Running warmup runs."] ++ l1
                 ++ [LogInfo "Main runs."])); [apply yields_emit|].
  apply (throws_after _ _ s tt s [LogInfo "Running warmup runs."]
           _ s1 (l1 ++ [LogInfo "Main runs."])); [apply yields_emit|].
  apply (throws_after _ _ s tt s [] _ s1 (l1 ++ [LogInfo "Main runs."]));
    [apply yields_ret|].
  apply (throws_after _ _ s tt s1 l1 _ s1 [LogInfo "Main runs."]);
    [exact H1|].
  apply (throws_after _ _ s1 tt s1 [LogInfo "Main runs."] _ s1 []);
    [apply yields_emit|].
  apply throws_bind. reflexivity.
Qed.

(** A failure in the warm-up is rethrown. *)
Lemma throws_TEST_Benchmark_warmup net (warmup_runs main_runs : Z)
  (run_individual : bool) s e s1 l1 :
  0 <= warmup_runs ->
  throws (for_loop (Z.to_nat warmup_runs) 0
            (fun i (_ : unit) =>
               r <- Run net ;; CAFFE_ENFORCE r (WarmupRunFailed i)) tt)
    s e s1 l1 ->
  throws (TEST_Benchmark elapsed_ms std_sort Schema_InferCost net
            warmup_runs main_runs run_individual) s e s1
    ([LogInfo "Starting benchmark."; LogInfo "Running warmup runs."] ++ l1).
Proof.
  intros HW H1. apply Z.leb_le in HW.
  unfold TEST_Benchmark. rewrite HW. cbn [CAFFE_ENFORCE].
  apply (throws_after _ _ s tt s [LogInfo "Starting benchmark."]
           _ s1 ([LogInfo "Running warmup runs."] ++ l1));
    [apply yields_emit|].
  apply (throws_after _ _ s tt s [LogInfo "Running warmup runs."]
           _ s1 l1); [apply yields_emit|].
  apply (throws_after _ _ s tt s [] _ s1 l1); [apply yields_ret|].
  apply throws_bind. exact H1.
Qed.

(** A loop of enforced calls of [Run] either completes, without reading the
    timer, or throws. *)
Lemma enforced_runs_cases net (failed : nat -> EnforceNotMet) :
  forall n first s,
    (exists w' l,
       yields (for_loop n first
                 (fun i (_ : unit) => r <- Run net ;; CAFFE_ENFORCE r (failed i))
                 tt) s tt
         {| workspace := w'; timer_reads := timer_reads s |} l)
    \/ (exists e s' l,
          throws (for_loop n first
                    (fun i (_ : unit) =>
                       r <- Run net ;; CAFFE_ENFORCE r (failed i))
                    tt) s e s' l).
Proof.
  induction n as [|n IH]; intros first s; cbn [for_loop].
  - left. exists (workspace s), []. destruct s. apply yields_ret.
  - destruct (Run_cases net s) as [H | [k [o [_ [_ H]]]]].
    + destruct (IH (S first)
                  {| workspace := effects (operators_ net) (workspace s);
                     timer_reads := timer_reads s |})
        as [[w' [l Hl]] | [e [s' [l Hl]]]].
      * left. exists w'. eexists.
        eapply yields_bind; [|exact Hl].
        eapply yields_bind; [exact H|apply yields_ret].
      * right. exists e, s'. eexists.
        eapply throws_after; [|exact Hl].
        eapply yields_bind; [exact H|apply yields_ret].
    + right. exists (failed first). eexists. eexists.
      apply throws_bind. eapply throws_after; [exact H|reflexivity].
Qed.

(** C3, as the code has it: with no warm-up, one main run and no individual
    runs, on a net of N operators that all succeed, the sequence returned has
    N + 1 entries: the mean time of the main run, then an entry 0 for each
    operator.  It has one entry only when the net has no operator. *)
Theorem TEST_Benchmark_0_1_false net s :
  all_succeed net ->
  value (TEST_Benchmark elapsed_ms std_sort Schema_InferCost net 0 1 false s)
  = Returned (F32.div (elapsed_ms (timer_reads s)) (F32.of_int 1)
              :: repeat F32.zero (List.length (operators_ net))).
Proof.
  intros Hall.
  destruct (yields_TEST_Benchmark net 0 1 false s Hall) as [s' [l H]];
    [lia|lia|].
  rewrite (yields_value _ _ _ _ _ H). f_equal. f_equal.
  symmetry. apply (repeat_map_seq F32.zero _ 0%nat).
Qed.

(** C4, as the code has it: on a net whose operators all succeed, for
    [warmup_runs >= 0] and [main_runs >= 1], the sequence returned is the mean
    time of a main run (the reading of the timer after the main runs, divided
    by [main_runs]) followed by one entry per operator, in the order of
    [operators_]: the time accumulated for that operator (the sum of its
    readings over the individual runs, or 0 without individual runs), divided
    by [main_runs]. *)
Theorem TEST_Benchmark_returns net (warmup_runs main_runs : Z)
  (run_individual : bool) s :
  all_succeed net -> 0 <= warmup_runs -> 1 <= main_runs ->
  value (TEST_Benchmark elapsed_ms std_sort Schema_InferCost net
           warmup_runs main_runs run_individual s)
  = Returned
      (F32.div (elapsed_ms (timer_reads s)) (F32.of_int main_runs)
       :: map (fun idx =>
                 F32.div
                   (if run_individual
                    then accumulated_time elapsed_ms (S (timer_reads s))
                           (List.length (operators_ net))
                           (Z.to_nat main_runs) idx
                    else F32.zero)
                   (F32.of_int main_runs))
            (seq 0 (List.length (operators_ net)))).
Proof.
  intros Hall HW HM.
  destruct (yields_TEST_Benchmark net warmup_runs main_runs run_individual s
              Hall) as [s' [l H]]; [lia|lia|].
  exact (yields_value _ _ _ _ _ H).
Qed.

(** C5, as the code has it: a negative [warmup_runs] makes [TEST_Benchmark]
    throw before any operator is invoked.  A negative [main_runs] (with
    [warmup_runs >= 0]) makes it throw as well, but the check comes after the
    warm-up: no operator has been invoked when [warmup_runs = 0], and on a net
    whose operators all succeed the [warmup_runs] warm-up passes over the
    operators have been executed when the check throws. *)
Theorem TEST_Benchmark_negative_runs net (warmup_runs main_runs : Z)
  (run_individual : bool) s :
  let r := TEST_Benchmark elapsed_ms std_sort Schema_InferCost net
             warmup_runs main_runs run_individual s in
  (warmup_runs < 0 ->
     value r = Threw (WarmupRunsNegative warmup_runs) /\ invoked (log r) = []) /\
  (0 <= warmup_runs -> main_runs < 0 -> exists e, value r = Threw e) /\
  (warmup_runs = 0 -> main_runs < 0 ->
     value r = Threw (MainRunsNegative main_runs) /\ invoked (log r) = []) /\
  (0 < warmup_runs -> main_runs < 0 -> all_succeed net ->
     value r = Threw (MainRunsNegative main_runs) /\
     invoked (log r) =
       List.concat (repeat (seq 0 (List.length (operators_ net)))
                      (Z.to_nat warmup_runs))).
Proof.
  intros r. subst r. split; [|split; [|split]].
  - intros HW.
    pose proof (throws_TEST_Benchmark_warmup_runs net warmup_runs main_runs
                  run_individual s HW) as T.
    unfold throws in T. rewrite T. split; reflexivity.
  - intros HW HM.
    destruct (enforced_runs_cases net WarmupRunFailed
                (Z.to_nat warmup_runs) 0%nat s)
      as [[w' [l Hl]] | [e [s' [l Hl]]]].
    + exists (MainRunsNegative main_runs).
      pose proof (throws_TEST_Benchmark_main_runs net warmup_runs main_runs
                    run_individual s _ _ HW HM Hl) as T.
      unfold throws in T. rewrite T. reflexivity.
    + exists e.
      pose proof (throws_TEST_Benchmark_warmup net warmup_runs main_runs
                    run_individual s e s' l HW Hl) as T.
      unfold throws in T. rewrite T. reflexivity.
  - intros -> HM.
    pose proof (throws_TEST_Benchmark_main_runs net 0 main_runs
                  run_individual s s [] (Z.le_refl 0) HM (yields_ret tt s))
      as T.
    unfold throws in T. rewrite T. split; reflexivity.
  - intros HW HM Hall.
    destruct (yields_enforced_runs net WarmupRunFailed Hall
                (Z.to_nat warmup_runs) 0%nat s) as [w1 H1].
    pose proof (throws_TEST_Benchmark_main_runs net warmup_runs main_runs
                  run_individual s _ _ (Z.lt_le_incl _ _ HW) HM H1) as T.
    unfold throws in T. rewrite T. cbn [value log]. split; [reflexivity|].
    rewrite !invoked_app, invoked_concat_repeat, invoked_pass_log.
    cbn [invoked flat_map app]. apply app_nil_r.
Qed.

Lemma F32_div_by_zero_not_finite (x : F32.t) :
  is_finite (F32.div x (F32.of_int 0)) = false.
Proof. destruct x; reflexivity. Qed.

(** With [main_runs = 0], once the warm-up has completed. *)
Lemma yields_TEST_Benchmark_0 net (warmup_runs : Z) (run_individual : bool)
  s w1 l1 :
  0 <= warmup_runs ->
  yields (for_loop (Z.to_nat warmup_runs) 0
            (fun i (_ : unit) =>
               r <- Run net ;; CAFFE_ENFORCE r (WarmupRunFailed i)) tt)
    s tt {| workspace := w1; timer_reads := timer_reads s |} l1 ->
  exists s' l,
    yields (TEST_Benchmark elapsed_ms std_sort Schema_InferCost net
              warmup_runs 0 run_individual) s
      (F32.div (elapsed_ms (timer_reads s)) (F32.of_int 0)
       :: repeat S754_nan (List.length (operators_ net)))
      s' l.
Proof.
  intros HW H1. set (N := List.length (operators_ net)).
  set (s1 := {| workspace := w1; timer_reads := timer_reads s |}) in *.
  set (s3 := {| workspace := w1; timer_reads := S (timer_reads s) |}).
  set (millis := elapsed_ms (timer_reads s)).
  assert (Hpart : exists l4,
            yields (if run_individual
                    then run_individual_part elapsed_ms std_sort
                           Schema_InferCost net 0 (bench_init N)
                    else ret (bench_init N)) s3 (bench_init N) s3 l4).
  { destruct run_individual.
    - destruct (yields_operator_lines (net_def_ net) 0 (bench_init N)
                  (operators_ net) 0%nat s3) as [l5 H5].
      eexists. unfold run_individual_part.
      cbn [Z.to_nat for_loop].
      eapply yields_bind; [apply yields_ret|].
      eapply yields_bind; [exact H5|].
      eapply yields_bind; [apply yields_type_report|].
      apply yields_ret.
    - exists []. apply yields_ret. }
  destruct Hpart as [l4 H4].
  exists s3. eexists. unfold TEST_Benchmark.
  apply Z.leb_le in HW. rewrite HW.
  cbn [Z.leb Z.compare CAFFE_ENFORCE Z.to_nat for_loop].
  eapply yields_bind; [apply yields_emit|].
  eapply yields_bind; [apply yields_emit|].
  eapply yields_bind; [apply yields_ret|].
  eapply yields_bind; [exact H1|].
  eapply yields_bind; [apply yields_emit|].
  eapply yields_bind; [apply yields_ret|].
  eapply yields_bind; [apply yields_ret|].
  eapply (yields_bind _ _ s1 millis s3); [reflexivity|].
  eapply yields_bind; [apply yields_emit|].
  eapply yields_bind; [exact H4|].
  cbn [bench_init time_per_op]. rewrite map_repeat. apply yields_ret.
Qed.

(** C10: [main_runs = 0] passes the check [main_runs >= 0]; the mean of the
    main runs is then the reading of the timer divided by the float 0, which
    is an infinity or a NaN.  Whenever [TEST_Benchmark] returns (it does when
    no operator fails in the warm-up), the first entry of the sequence is that
    value, and the entry of each operator, 0 divided by 0, is a NaN. *)
Theorem TEST_Benchmark_zero_main_runs net (warmup_runs : Z)
  (run_individual : bool) s :
  0 <= warmup_runs ->
  let r := TEST_Benchmark elapsed_ms std_sort Schema_InferCost net
             warmup_runs 0 run_individual s in
  let mean := F32.div (elapsed_ms (timer_reads s)) (F32.of_int 0) in
  F32.of_int 0 = S754_zero false /\
  is_finite mean = false /\
  (forall v, value r = Returned v ->
     v = mean :: repeat S754_nan (List.length (operators_ net))) /\
  (all_succeed net ->
     value r = Returned (mean :: repeat S754_nan (List.length (operators_ net)))).
Proof.
  intros HW r mean. subst r mean.
  split; [reflexivity|]. split; [apply F32_div_by_zero_not_finite|]. split.
  - intros v Hv.
    destruct (enforced_runs_cases net WarmupRunFailed
                (Z.to_nat warmup_runs) 0%nat s)
      as [[w1 [l1 H1]] | [e [s' [l Hl]]]].
    + destruct (yields_TEST_Benchmark_0 net warmup_runs run_individual s w1 l1
                  HW H1) as [s' [l H]].
      rewrite (yields_value _ _ _ _ _ H) in Hv. congruence.
    + exfalso.
      pose proof (throws_TEST_Benchmark_warmup net warmup_runs 0
                    run_individual s e s' l HW Hl) as T.
      unfold throws in T. rewrite T in Hv. discriminate.
  - intros Hall.
    destruct (yields_enforced_runs net WarmupRunFailed Hall
                (Z.to_nat warmup_runs) 0%nat s) as [w1 H1].
    destruct (yields_TEST_Benchmark_0 net warmup_runs run_individual s w1 _
                HW H1) as [s' [l H]].
    exact (yields_value _ _ _ _ _ H).
Qed.

End BenchmarkFacts.

(** ** Order of the floats and the sorting routines *)

Lemma SFltb_key (a b : spec_float) :
  is_nan a = false -> is_nan b = false ->
  (SFltb a b = true <-> lex_lt (SFkey a) (SFkey b)).
Proof.
  intros Ha Hb. unfold SFltb, SFcompare, lex_lt.
  destruct a as [sa|sa| |sa ma ea], b as [sb|sb| |sb mb eb];
    try discriminate; try destruct sa; try destruct sb;
    cbn [SFkey fst snd];
    try (split; [discriminate|lia]);
    try (split; [lia|reflexivity]);
    change (Pos.compare_cont Eq ma mb) with (Pos.compare ma mb);
    destruct (Z.compare_spec ea eb); destruct (Pos.compare_spec ma mb);
    cbn [CompOpp];
    (split; [try discriminate; intros _; lia
            |try reflexivity; intros; exfalso; lia]).
Qed.

Lemma SFltb_not_nan (a b : spec_float) :
  SFltb a b = true -> is_nan a = false /\ is_nan b = false.
Proof.
  unfold SFltb, SFcompare.
  destruct a, b; try discriminate; split; reflexivity.
Qed.

Lemma SFltb_asym (a b : spec_float) :
  SFltb a b = true -> SFltb b a = false.
Proof.
  intros H. destruct (SFltb_not_nan a b H) as [Ha Hb].
  apply not_true_is_false. intros H'.
  apply (SFltb_key a b Ha Hb) in H. apply (SFltb_key b a Hb Ha) in H'.
  unfold lex_lt in *. lia.
Qed.

Lemma SFltb_cotrans (a b c : spec_float) :
  is_nan c = false -> SFltb a b = true ->
  SFltb a c = true \/ SFltb c b = true.
Proof.
  intros Hc H. destruct (SFltb_not_nan a b H) as [Ha Hb].
  apply (SFltb_key a b Ha Hb) in H.
  assert (lex_lt (SFkey a) (SFkey c) \/ lex_lt (SFkey c) (SFkey b)) as [K|K]
    by (unfold lex_lt in *; lia).
  - left. apply (SFltb_key a c Ha Hc). exact K.
  - right. apply (SFltb_key c b Hc Hb). exact K.
Qed.

Lemma insert_before_equal_perm (x : string * F32.t) l :
  Permutation (x :: l) (Demo.insert_before_equal PairLargerThan x l).
Proof.
  induction l as [|y l IH]; cbn [Demo.insert_before_equal].
  - apply Permutation_refl.
  - destruct (PairLargerThan y x).
    + eapply perm_trans; [apply perm_swap|]. apply perm_skip. exact IH.
    + apply Permutation_refl.
Qed.

Lemma insert_before_equal_descending (x : string * F32.t) l :
  no_nan (x :: l) -> descending l ->
  descending (Demo.insert_before_equal PairLargerThan x l).
Proof.
  unfold descending, no_nan, PairLargerThan, F32.gtb.
  intros Hnan Hl. induction Hl as [|y l Hl IH Hy];
    cbn [Demo.insert_before_equal].
  - repeat constructor.
  - inversion Hnan as [|? ? Hx Hyl]; subst.
    inversion Hyl as [|? ? Hyn Hln]; subst.
    unfold PairLargerThan, F32.gtb in *.
    destruct (SFltb (snd x) (snd y)) eqn:Hxy.
    + constructor.
      * apply IH. constructor; assumption.
      * eapply Permutation_Forall;
          [apply (insert_before_equal_perm x l)|].
        constructor; [|exact Hy]. apply SFltb_asym. exact Hxy.
    + constructor; [constructor; assumption|].
      constructor; [exact Hxy|].
      rewrite Forall_forall in Hy, Hln |- *. intros z Hz.
      apply not_true_is_false. intros Hxz.
      destruct (SFltb_cotrans _ _ (snd y) Hyn Hxz) as [K|K].
      * congruence.
      * specialize (Hy z Hz). congruence.
Qed.

Lemma sort_stable_contract : sort_contract Demo.sort_stable.
Proof.
  intros l. unfold Demo.sort_stable.
  induction l as [|x l IH]; intros Hnan; cbn [fold_right].
  - split; [apply perm_nil|constructor].
  - inversion Hnan as [|? ? Hx Hl]; subst. destruct (IH Hl) as [Hp Hd].
    split.
    + eapply perm_trans; [apply perm_skip; exact Hp|].
      apply insert_before_equal_perm.
    + apply insert_before_equal_descending; [|exact Hd].
      constructor; [exact Hx|].
      eapply Permutation_Forall; [exact Hp|exact Hl].
Qed.

(** ** [std::sort] of libstdc++ *)

Section SortFacts.
Local Open Scope nat_scope.
Context {A : Type}.
Variable value_init : A.
Variable comp : A -> A -> bool.
Variable ok : A -> Prop.
Hypothesis comp_asym : forall a b, comp a b = true -> comp b a = false.
Hypothesis comp_cotrans :
  forall a b c, ok c -> comp a b = true -> comp a c = true \/ comp c b = true.

Local Abbreviation deref := (libstdcxx.deref value_init).
Local Abbreviation assign := (@libstdcxx.assign A).

Lemma comp_irrefl a : comp a a = false.
Proof.
  destruct (comp a a) eqn:E; [|reflexivity].
  rewrite (comp_asym a a E) in E. discriminate E.
Qed.

(** *** The vector as a list *)

Lemma deref_app_hole (L R : list A) (h : A) :
  deref (L ++ h :: R) (List.length L) = h.
Proof. unfold libstdcxx.deref. rewrite nth_middle. reflexivity. Qed.

Lemma deref_app_l (L R : list A) (i : nat) :
  (i < List.length L)%nat -> deref (L ++ R) i = deref L i.
Proof. intros H. unfold libstdcxx.deref. apply app_nth1. exact H. Qed.

Lemma assign_app_hole (L R : list A) (h x : A) :
  assign (List.length L) x (L ++ h :: R) = L ++ x :: R.
Proof.
  induction L as [|y L IH]; cbn [List.length app libstdcxx.assign];
    [reflexivity|]. f_equal. exact IH.
Qed.

Lemma assign_length (i : nat) (x : A) (v : list A) :
  List.length (assign i x v) = List.length v.
Proof.
  revert i. induction v as [|y v IH]; intros [|i];
    cbn [libstdcxx.assign List.length]; try reflexivity.
  f_equal. apply IH.
Qed.

(** *** Insertion into a sorted list *)

Lemma insert_sorted_perm (x : A) (l : list A) :
  Permutation (x :: l) (insert_sorted comp x l).
Proof.
  induction l as [|y l IH]; cbn [insert_sorted].
  - apply Permutation_refl.
  - destruct (comp x y).
    + apply Permutation_refl.
    + eapply perm_trans; [apply perm_swap|]. apply perm_skip. exact IH.
Qed.

Lemma sorted_by_after (x y : A) (l : list A) :
  ok y -> Forall ok l ->
  comp x y = true -> sorted_by comp (y :: l) ->
  Forall (fun z => comp x z = true) (y :: l).
Proof.
  intros Hy Hl Hxy Hs. inversion Hs as [|? ? _ Hyl]; subst.
  constructor; [exact Hxy|].
  rewrite Forall_forall in Hyl, Hl |- *. intros z Hz.
  destruct (comp_cotrans x y z (Hl z Hz) Hxy) as [K|K]; [exact K|].
  rewrite (Hyl z Hz) in K. discriminate K.
Qed.

Lemma insert_sorted_sorted (x : A) (l : list A) :
  ok x -> Forall ok l -> sorted_by comp l ->
  sorted_by comp (insert_sorted comp x l).
Proof.
  intros Hx Hok Hs. unfold sorted_by in *.
  induction Hs as [|y l Hs IH Hy]; cbn [insert_sorted].
  - repeat constructor.
  - inversion Hok as [|? ? Hoky Hokl]; subst.
    destruct (comp x y) eqn:Hxy.
    + constructor; [constructor; assumption|].
      pose proof (sorted_by_after x y l Hoky Hokl Hxy
                    (SSorted_cons y Hs Hy)) as Hall.
      rewrite Forall_forall in Hall |- *. intros z Hz.
      apply comp_asym. apply Hall. exact Hz.
    + constructor; [apply IH; exact Hokl|].
      eapply Permutation_Forall; [apply insert_sorted_perm|].
      constructor; [exact Hxy|exact Hy].
Qed.

(** Where the insertion puts the entry. *)
Lemma insert_sorted_at (x z : A) (L1 L2 : list A) :
  ok z ->
  sorted_by comp (L1 ++ z :: L2) ->
  comp x z = false ->
  Forall (fun y => comp x y = true) L2 ->
  insert_sorted comp x (L1 ++ z :: L2) = L1 ++ z :: x :: L2.
Proof.
  intros Hz Hs Hxz HL2.
  induction L1 as [|y L1 IH]; cbn [app insert_sorted].
  - rewrite Hxz. f_equal. destruct L2 as [|y2 L2]; [reflexivity|].
    cbn [insert_sorted]. inversion HL2 as [|? ? H2 _]; subst.
    rewrite H2. reflexivity.
  - inversion Hs as [|? ? Hs' Hy]; subst.
    assert (Hxy : comp x y = false).
    { destruct (comp x y) eqn:E; [|reflexivity].
      destruct (comp_cotrans x y z Hz E) as [K|K]; [congruence|].
      rewrite Forall_forall in Hy.
      rewrite (Hy z) in K; [discriminate K|].
      apply in_or_app. right. left. reflexivity. }
    rewrite Hxy. f_equal. apply IH. exact Hs'.
Qed.

Lemma insertion_sorted_from (l acc : list A) :
  Forall ok acc -> Forall ok l -> sorted_by comp acc ->
  let out := fold_left (fun acc x => insert_sorted comp x acc) l acc in
  Permutation (acc ++ l) out /\ sorted_by comp out.
Proof.
  revert acc. induction l as [|x l IH]; intros acc Hacc Hl Hs; cbn [fold_left].
  - rewrite app_nil_r. split; [apply Permutation_refl|exact Hs].
  - inversion Hl as [|? ? Hx Hl']; subst.
    assert (Hok : Forall ok (insert_sorted comp x acc)).
    { eapply Permutation_Forall; [apply insert_sorted_perm|].
      constructor; assumption. }
    destruct (IH (insert_sorted comp x acc) Hok Hl'
                (insert_sorted_sorted x acc Hx Hacc Hs)) as [Hp Hso].
    split; [|exact Hso].
    eapply perm_trans; [|exact Hp].
    eapply perm_trans; [apply Permutation_sym, Permutation_middle|].
    apply (Permutation_app_tail l (insert_sorted_perm x acc)).
Qed.

(** The sort by insertion keeps entries that are equivalent to one another in
    their order. *)
Lemma insert_sorted_filter (e x : A) (l : list A) :
  ok e -> Forall ok l -> sorted_by comp l ->
  filter (equivalent comp e) (insert_sorted comp x l)
  = filter (equivalent comp e) (l ++ [x]).
Proof.
  intros He Hok Hs. unfold sorted_by in Hs.
  induction Hs as [|y l Hs IH Hy]; cbn [insert_sorted]; [reflexivity|].
  inversion Hok as [|? ? Hoky Hokl]; subst.
  destruct (comp x y) eqn:Hxy.
  - pose proof (sorted_by_after x y l Hoky Hokl Hxy (SSorted_cons y Hs Hy))
      as Hall.
    change (x :: y :: l) with ([x] ++ y :: l).
    rewrite !filter_app.
    destruct (equivalent comp e x) eqn:Hex.
    2:{ cbn [filter]. rewrite Hex, app_nil_r. reflexivity. }
    assert (Hnone : filter (equivalent comp e) (y :: l) = []).
    { rewrite Forall_forall in Hall.
      assert (F : forall z, In z (y :: l) -> equivalent comp e z = false).
      { intros z Hz. specialize (Hall z Hz). unfold equivalent in *.
        apply andb_true_iff in Hex. destruct Hex as [E1 E2].
        apply negb_true_iff in E1, E2.
        destruct (comp_cotrans x z e He Hall) as [K|K]; [congruence|].
        rewrite K. reflexivity. }
      clear - F. induction (y :: l) as [|z t IHt]; [reflexivity|].
      cbn [filter]. rewrite (F z (or_introl eq_refl)).
      apply IHt. intros w Hw. apply F. right. exact Hw. }
    rewrite Hnone, app_nil_r. reflexivity.
  - cbn [app filter]. rewrite (IH Hokl). reflexivity.
Qed.

Lemma insertion_sorted_filter (e : A) (l acc : list A) :
  ok e -> Forall ok acc -> Forall ok l -> sorted_by comp acc ->
  filter (equivalent comp e)
    (fold_left (fun acc x => insert_sorted comp x acc) l acc)
  = filter (equivalent comp e) (acc ++ l).
Proof.
  intros He. revert acc.
  induction l as [|x l IH]; intros acc Hacc Hl Hs; cbn [fold_left].
  - rewrite app_nil_r. reflexivity.
  - inversion Hl as [|? ? Hx Hl']; subst.
    assert (Hok : Forall ok (insert_sorted comp x acc)).
    { eapply Permutation_Forall; [apply insert_sorted_perm|].
      constructor; assumption. }
    rewrite (IH (insert_sorted comp x acc) Hok Hl'
               (insert_sorted_sorted x acc Hx Hacc Hs)).
    rewrite filter_app, (insert_sorted_filter e x acc He Hacc Hs).
    change (x :: l) with ([x] ++ l).
    rewrite !filter_app, <- app_assoc. reflexivity.
Qed.

(** *** The insertion sort of the vector *)

(** The unguarded insertion stops behind the last entry that [val] is not
    before, when there is one. *)
Lemma unguarded_linear_insert_loop_stops (val : A) (L : list A) :
  forall (h : A) (R : list A),
    (exists y, In y L /\ comp val y = false) ->
    exists L1 z L2,
      L = L1 ++ z :: L2 /\ comp val z = false /\
      Forall (fun y => comp val y = true) L2 /\
      libstdcxx.unguarded_linear_insert_loop value_init comp val
        (List.length L) (L ++ h :: R)
      = Some (L1 ++ z :: val :: L2 ++ R).
Proof.
  induction L as [|y L IH] using rev_ind; intros h R [y0 [Hin Hy0]].
  - destruct Hin.
  - rewrite length_app, Nat.add_1_r.
    cbn [libstdcxx.unguarded_linear_insert_loop].
    rewrite <- app_assoc. cbn [app].
    rewrite (deref_app_hole L (h :: R) y).
    destruct (comp val y) eqn:Hy.
    + assert (Hex : exists y', In y' L /\ comp val y' = false).
      { apply in_app_or in Hin. destruct Hin as [Hin|[<-|[]]];
          [eauto|congruence]. }
      change (L ++ y :: h :: R) with (L ++ [y] ++ h :: R).
      rewrite app_assoc.
      replace (S (List.length L)) with (List.length (L ++ [y]))
        by (rewrite length_app, Nat.add_1_r; reflexivity).
      rewrite assign_app_hole. rewrite <- app_assoc. cbn [app].
      destruct (IH y (y :: R) Hex) as [L1 [z [L2 [-> [Hz [HL2 E]]]]]].
      rewrite E. exists L1, z, (L2 ++ [y]).
      rewrite <- !app_assoc. cbn [app].
      split; [reflexivity|]. split; [exact Hz|]. split; [|reflexivity].
      apply Forall_app. split; [exact HL2|]. repeat constructor. exact Hy.
    + change (L ++ y :: h :: R) with (L ++ [y] ++ h :: R).
      rewrite app_assoc.
      replace (S (List.length L)) with (List.length (L ++ [y]))
        by (rewrite length_app, Nat.add_1_r; reflexivity).
      rewrite assign_app_hole. rewrite <- app_assoc. cbn [app].
      exists L, y, []. cbn [app].
      split; [reflexivity|]. split; [exact Hy|]. split; [constructor|].
      reflexivity.
Qed.

Lemma move_backward_shifts (S0 : list A) :
  forall (y : A) (R : list A),
    S0 <> [] ->
    libstdcxx.move_backward value_init 0 (List.length S0) (S0 ++ y :: R)
    = hd value_init S0 :: S0 ++ R.
Proof.
  induction S0 as [|z S0 IH] using rev_ind; intros y R Hne; [congruence|].
  rewrite length_app, Nat.add_1_r. cbn [libstdcxx.move_backward Nat.add].
  rewrite <- app_assoc. cbn [app].
  rewrite (deref_app_hole S0 (y :: R) z).
  change (S0 ++ z :: y :: R) with (S0 ++ [z] ++ y :: R).
  rewrite app_assoc.
  replace (S (List.length S0)) with (List.length (S0 ++ [z]))
    by (rewrite length_app, Nat.add_1_r; reflexivity).
  rewrite assign_app_hole. rewrite <- app_assoc. cbn [app].
  destruct S0 as [|s0 S0'].
  - reflexivity.
  - rewrite (IH z (z :: R)) by discriminate.
    cbn [hd app]. rewrite <- app_assoc. reflexivity.
Qed.

Lemma insertion_sort_loop_inserts (rest : list A) :
  forall (L post : list A),
    L <> [] -> Forall ok L -> Forall ok rest -> sorted_by comp L ->
    libstdcxx.insertion_sort_loop value_init comp 0 (List.length L)
      (List.length rest) (L ++ rest ++ post)
    = Some (fold_left (fun acc x => insert_sorted comp x acc) rest L ++ post).
Proof.
  induction rest as [|x rest IH]; intros L post Hne HokL Hok Hs;
    cbn [List.length libstdcxx.insertion_sort_loop fold_left app].
  - reflexivity.
  - inversion Hok as [|? ? Hx Hrest]; subst.
    destruct L as [|l0 L']; [congruence|].
    rewrite (deref_app_hole (l0 :: L') (rest ++ post) x).
    change (deref ((l0 :: L') ++ x :: rest ++ post) 0) with l0.
    assert (Hnext :
      (if comp x l0
       then Some (assign 0 x
                    (libstdcxx.move_backward value_init 0
                       (List.length (l0 :: L') - 0)
                       ((l0 :: L') ++ x :: rest ++ post)))
       else libstdcxx.__unguarded_linear_insert value_init comp
              (List.length (l0 :: L')) ((l0 :: L') ++ x :: rest ++ post))
      = Some (insert_sorted comp x (l0 :: L') ++ rest ++ post)).
    { destruct (comp x l0) eqn:Hx0.
      - rewrite Nat.sub_0_r, move_backward_shifts by discriminate.
        cbn [hd libstdcxx.assign insert_sorted]. rewrite Hx0. reflexivity.
      - unfold libstdcxx.__unguarded_linear_insert.
        rewrite (deref_app_hole (l0 :: L') (rest ++ post) x).
        destruct (unguarded_linear_insert_loop_stops x (l0 :: L') x
                    (rest ++ post))
          as [L1 [z [L2 [E [Hz [HL2 ->]]]]]].
        { exists l0. split; [left; reflexivity|exact Hx0]. }
        rewrite E. rewrite E in Hs, HokL.
        rewrite insert_sorted_at; try assumption.
        + rewrite <- !app_assoc. reflexivity.
        + apply Forall_app in HokL. destruct HokL as [_ HokL].
          inversion HokL; assumption. }
    rewrite Hnext.
    assert (Hlen : S (List.length (l0 :: L'))
                   = List.length (insert_sorted comp x (l0 :: L'))).
    { rewrite <- (Permutation_length (insert_sorted_perm x (l0 :: L'))).
      reflexivity. }
    rewrite Hlen. apply IH.
    + intros E. rewrite E in Hlen. discriminate Hlen.
    + eapply Permutation_Forall; [apply insert_sorted_perm|].
      constructor; assumption.
    + exact Hrest.
    + apply insert_sorted_sorted; assumption.
Qed.

Lemma introsort_loop_small (depth_limit first last : nat) (v : list A) :
  (last - first <= libstdcxx._S_threshold)%nat ->
  libstdcxx.__introsort_loop value_init comp depth_limit first last v = Some v.
Proof.
  intros H. apply Nat.ltb_ge in H.
  destruct depth_limit; cbn [libstdcxx.__introsort_loop]; rewrite H;
    reflexivity.
Qed.

(** Up to [_S_threshold] entries [std::sort] is the sort by insertion. *)
Lemma sort_small (v : list A) :
  (List.length v <= libstdcxx._S_threshold)%nat -> Forall ok v ->
  libstdcxx.sort value_init comp v = Some (insertion_sorted comp v).
Proof.
  intros Hlen Hok. unfold libstdcxx.sort, libstdcxx.__sort.
  destruct v as [|x rest]; [reflexivity|].
  cbn [List.length Nat.eqb].
  rewrite introsort_loop_small by (rewrite Nat.sub_0_r; exact Hlen).
  unfold libstdcxx.__final_insertion_sort.
  rewrite Nat.sub_0_r.
  replace (Nat.ltb libstdcxx._S_threshold (S (List.length rest))) with false
    by (symmetry; apply Nat.ltb_ge; exact Hlen).
  unfold libstdcxx.__insertion_sort. cbn [Nat.eqb].
  replace (S (List.length rest) - 1)%nat with (List.length rest) by lia.
  inversion Hok as [|? ? Hx Hrest]; subst.
  pose proof (insertion_sort_loop_inserts rest [x] []) as HI.
  cbn [List.length app] in HI. rewrite app_nil_r in HI.
  rewrite HI; try assumption.
  - rewrite app_nil_r. reflexivity.
  - discriminate.
  - repeat constructor. exact Hx.
  - repeat constructor.
Qed.

(** *** More on the vector *)

Local Abbreviation frame := (same_outside value_init).

Lemma deref_assign_eq (i : nat) (x : A) (v : list A) :
  i < List.length v -> deref (assign i x v) i = x.
Proof.
  revert i. induction v as [|y v IH]; intros [|i] H;
    cbn [List.length] in H; try lia.
  - reflexivity.
  - cbn [libstdcxx.assign]. unfold libstdcxx.deref. cbn [nth].
    apply IH. lia.
Qed.

Lemma deref_assign_neq (i j : nat) (x : A) (v : list A) :
  i <> j -> deref (assign i x v) j = deref v j.
Proof.
  revert i j. induction v as [|y v IH]; intros [|i] [|j] H;
    cbn [libstdcxx.assign]; try reflexivity; try lia.
  unfold libstdcxx.deref. cbn [nth]. apply IH. lia.
Qed.

Lemma Forall_assign (i : nat) (x : A) (v : list A) :
  ok x -> Forall ok v -> Forall ok (assign i x v).
Proof.
  intros Hx. revert i. induction v as [|y v IH]; intros [|i] Hv;
    cbn [libstdcxx.assign]; try constructor;
    inversion Hv; subst; auto.
Qed.

Lemma Forall_deref (i : nat) (v : list A) :
  Forall ok v -> i < List.length v -> ok (deref v i).
Proof.
  intros Hv Hi. rewrite Forall_forall in Hv. apply Hv.
  unfold libstdcxx.deref. apply nth_In. exact Hi.
Qed.

Lemma assign_deref_self (i : nat) (v : list A) :
  assign i (deref v i) v = v.
Proof.
  revert i. induction v as [|y v IH]; intros [|i];
    cbn [libstdcxx.assign]; try reflexivity.
  f_equal. apply IH.
Qed.

Lemma assign_assign_same (i : nat) (x y : A) (v : list A) :
  assign i x (assign i y v) = assign i x v.
Proof.
  revert i. induction v as [|z v IH]; intros [|i];
    cbn [libstdcxx.assign]; try reflexivity.
  f_equal. apply IH.
Qed.

Lemma assign_comm (i j : nat) (x y : A) (v : list A) :
  i <> j -> assign i x (assign j y v) = assign j y (assign i x v).
Proof.
  revert i j. induction v as [|z v IH]; intros [|i] [|j] H;
    cbn [libstdcxx.assign]; try reflexivity; try lia.
  f_equal. apply IH. lia.
Qed.

Lemma iter_swap_length (i j : nat) (v : list A) :
  List.length (libstdcxx.iter_swap value_init i j v) = List.length v.
Proof. unfold libstdcxx.iter_swap. rewrite !assign_length. reflexivity. Qed.

Lemma deref_iter_swap_l (i j : nat) (v : list A) :
  i < List.length v -> j < List.length v ->
  deref (libstdcxx.iter_swap value_init i j v) i = deref v j.
Proof.
  intros Hi Hj. unfold libstdcxx.iter_swap.
  destruct (Nat.eq_dec i j) as [->|Hne].
  - rewrite deref_assign_eq by (rewrite assign_length; exact Hj).
    reflexivity.
  - rewrite deref_assign_neq by lia. apply deref_assign_eq. exact Hi.
Qed.

Lemma deref_iter_swap_r (i j : nat) (v : list A) :
  i < List.length v -> j < List.length v ->
  deref (libstdcxx.iter_swap value_init i j v) j = deref v i.
Proof.
  intros Hi Hj. unfold libstdcxx.iter_swap.
  apply deref_assign_eq. rewrite assign_length. exact Hj.
Qed.

Lemma deref_iter_swap_other (i j k : nat) (v : list A) :
  k <> i -> k <> j ->
  deref (libstdcxx.iter_swap value_init i j v) k = deref v k.
Proof.
  intros Hi Hj. unfold libstdcxx.iter_swap.
  rewrite !deref_assign_neq by lia. reflexivity.
Qed.

Lemma iter_swap_perm_lt (i j : nat) (v : list A) :
  i < j -> j < List.length v ->
  Permutation v (libstdcxx.iter_swap value_init i j v).
Proof.
  intros Hij Hj.
  destruct (nth_split v value_init (n := j) Hj) as [L1 [R [E1 HL1]]].
  assert (Hi : i < List.length L1) by lia.
  destruct (nth_split L1 value_init (n := i) Hi) as [L [M [E2 HL]]].
  assert (Di : deref v i = nth i L1 value_init).
  { unfold libstdcxx.deref. rewrite E1 at 1. apply app_nth1. exact Hi. }
  fold (deref v j) in E1. rewrite <- Di in E2.
  unfold libstdcxx.iter_swap.
  set (a := deref v i) in *. set (b := deref v j) in *.
  rewrite E1, E2. rewrite <- HL at 1.
  rewrite <- app_assoc. cbn [app].
  rewrite assign_app_hole.
  assert (Hlen : j = List.length (L ++ b :: M)).
  { rewrite <- HL1, E2, !length_app. cbn [List.length]. reflexivity. }
  rewrite Hlen.
  change (L ++ b :: M ++ b :: R) with (L ++ (b :: M) ++ b :: R).
  rewrite app_assoc, assign_app_hole, <- app_assoc. cbn [app].
  apply Permutation_app_head.
  apply (perm_trans (l' := a :: b :: M ++ R)).
  - apply perm_skip. apply Permutation_sym, Permutation_middle.
  - apply (perm_trans (l' := b :: a :: M ++ R)); [apply perm_swap|].
    apply perm_skip. apply Permutation_middle.
Qed.

Lemma iter_swap_sym (i j : nat) (v : list A) :
  i < List.length v -> j < List.length v ->
  libstdcxx.iter_swap value_init i j v = libstdcxx.iter_swap value_init j i v.
Proof.
  intros Hi Hj. unfold libstdcxx.iter_swap.
  destruct (Nat.eq_dec i j) as [->|Hne]; [reflexivity|].
  apply assign_comm. lia.
Qed.

Lemma iter_swap_perm (i j : nat) (v : list A) :
  i < List.length v -> j < List.length v ->
  Permutation v (libstdcxx.iter_swap value_init i j v).
Proof.
  intros Hi Hj.
  destruct (Nat.lt_trichotomy i j) as [H|[->|H]].
  - apply iter_swap_perm_lt; assumption.
  - unfold libstdcxx.iter_swap.
    rewrite assign_assign_same, assign_deref_self. apply Permutation_refl.
  - rewrite iter_swap_sym by assumption.
    apply iter_swap_perm_lt; assumption.
Qed.

(** Moving the entry at [c] into the hole at [h] moves the hole to [c]. *)
Lemma assign_move_perm (h c : nat) (x : A) (v : list A) :
  h < List.length v -> c < List.length v ->
  Permutation (assign h x v) (assign c x (assign h (deref v c) v)).
Proof.
  intros Hh Hc.
  destruct (Nat.eq_dec h c) as [->|Hne].
  - rewrite assign_assign_same. apply Permutation_refl.
  - assert (E : assign c x (assign h (deref v c) v)
                = libstdcxx.iter_swap value_init h c (assign h x v)).
    { unfold libstdcxx.iter_swap.
      rewrite deref_assign_eq by exact Hh.
      rewrite deref_assign_neq by exact Hne.
      rewrite assign_assign_same. reflexivity. }
    rewrite E. apply iter_swap_perm; rewrite assign_length; assumption.
Qed.

Lemma frame_refl (v : list A) (a b : nat) : frame v v a b.
Proof. split; reflexivity. Qed.

Lemma frame_trans (v1 v2 v3 : list A) (a b : nat) :
  frame v1 v2 a b -> frame v2 v3 a b -> frame v1 v3 a b.
Proof.
  intros [L1 F1] [L2 F2]. split; [congruence|].
  intros i Hi. rewrite (F2 i Hi). apply F1. exact Hi.
Qed.

Lemma frame_weaken (v v' : list A) (a b a' b' : nat) :
  a' <= a -> b <= b' -> frame v v' a b -> frame v v' a' b'.
Proof.
  intros Ha Hb [L F]. split; [exact L|]. intros i Hi. apply F. lia.
Qed.

Lemma frame_assign (i : nat) (x : A) (v : list A) (a b : nat) :
  a <= i < b -> frame v (assign i x v) a b.
Proof.
  intros Hi. split; [apply assign_length|].
  intros k Hk. apply deref_assign_neq. lia.
Qed.

Lemma frame_iter_swap (i j : nat) (v : list A) (a b : nat) :
  a <= i < b -> a <= j < b ->
  frame v (libstdcxx.iter_swap value_init i j v) a b.
Proof.
  intros Hi Hj. split; [apply iter_swap_length|].
  intros k Hk. apply deref_iter_swap_other; lia.
Qed.

(** A vector that is rearranged inside [a, b) only. *)
Lemma frame_segments (v v' : list A) (a b : nat) :
  a <= b -> b <= List.length v ->
  frame v v' a b -> Permutation v v' ->
  exists seg',
    v' = firstn a v ++ seg' ++ skipn b v /\
    Permutation (firstn (b - a) (skipn a v)) seg'.
Proof.
  intros Hab Hb [Hlen F] Hp.
  assert (E1 : firstn a v' = firstn a v).
  { apply (nth_ext _ _ value_init value_init).
    - rewrite !length_firstn. lia.
    - intros n Hn. rewrite length_firstn in Hn.
      rewrite !nth_firstn.
      destruct (Nat.ltb_spec n a); [|reflexivity].
      apply (F n). lia. }
  assert (E2 : skipn b v' = skipn b v).
  { apply (nth_ext _ _ value_init value_init).
    - rewrite !length_skipn. lia.
    - intros n Hn. rewrite !nth_skipn. apply (F (b + n)). lia. }
  assert (D : forall w : list A,
             w = firstn a w ++ firstn (b - a) (skipn a w) ++ skipn b w).
  { intros w. rewrite <- (firstn_skipn a w) at 1. f_equal.
    rewrite <- (firstn_skipn (b - a) (skipn a w)) at 1. f_equal.
    rewrite skipn_skipn. f_equal. lia. }
  exists (firstn (b - a) (skipn a v')).
  split.
  - rewrite (D v') at 1. rewrite E1, E2. reflexivity.
  - rewrite (D v) in Hp at 1. rewrite (D v') in Hp at 1.
    rewrite E1, E2 in Hp.
    apply Permutation_app_inv_l in Hp.
    apply Permutation_app_inv_r in Hp. exact Hp.
Qed.

(** A property of the entries of a range is kept when the range is
    rearranged. *)
Lemma range_forall_perm (P : A -> Prop) (v v' : list A) (a b : nat) :
  a <= b -> b <= List.length v ->
  frame v v' a b -> Permutation v v' ->
  (forall i, a <= i < b -> P (deref v i)) ->
  forall i, a <= i < b -> P (deref v' i).
Proof.
  intros Hab Hb Hf Hp HP i Hi.
  destruct (frame_segments v v' a b Hab Hb Hf Hp) as [seg' [E Hs]].
  assert (Hla : List.length (firstn a v) = a)
    by (rewrite length_firstn; lia).
  assert (Hls : List.length seg' = b - a).
  { rewrite <- (Permutation_length Hs), length_firstn, length_skipn. lia. }
  assert (Hin : In (deref v' i) seg').
  { unfold libstdcxx.deref. rewrite E.
    rewrite app_nth2 by lia. rewrite Hla.
    rewrite app_nth1 by lia. apply nth_In. lia. }
  apply (Permutation_in _ (Permutation_sym Hs)) in Hin.
  apply (In_nth _ _ value_init) in Hin.
  destruct Hin as [n [Hn En]].
  rewrite length_firstn, length_skipn in Hn.
  rewrite nth_firstn in En.
  destruct (Nat.ltb_spec n (b - a)); [|lia].
  rewrite nth_skipn in En. rewrite <- En. apply HP. lia.
Qed.

(** *** The order *)

Lemma le_trans (a b c : A) :
  ok b -> comp b a = false -> comp c b = false -> comp c a = false.
Proof.
  intros Hb H1 H2. destruct (comp c a) eqn:E; [|reflexivity].
  destruct (comp_cotrans c a b Hb E) as [K|K]; congruence.
Qed.

Lemma lt_le_trans (a b c : A) :
  ok c -> comp a b = true -> comp c b = false -> comp a c = true.
Proof.
  intros Hc H1 H2.
  destruct (comp_cotrans a b c Hc H1) as [K|K]; [exact K|congruence].
Qed.

Lemma le_lt_trans (a b c : A) :
  ok a -> comp b a = false -> comp b c = true -> comp a c = true.
Proof.
  intros Ha H1 H2.
  destruct (comp_cotrans b c a Ha H2) as [K|K]; [congruence|exact K].
Qed.

Lemma le_total (a b : A) : comp a b = false \/ comp b a = false.
Proof.
  destruct (comp a b) eqn:E; [right; apply comp_asym; exact E|left; reflexivity].
Qed.
(** *** The partition *)

Lemma scan_up_spec (v : list A) (p : nat) :
  forall fuel f u,
    f <= u -> comp (deref v u) (deref v p) = false -> u - f < fuel ->
    exists f1,
      libstdcxx.scan_up value_init comp v p fuel f = Some f1 /\
      f <= f1 <= u /\
      comp (deref v f1) (deref v p) = false /\
      forall i, f <= i < f1 -> comp (deref v i) (deref v p) = true.
Proof.
  induction fuel as [|fuel IH]; intros f u Hfu Hu Hfuel; [lia|].
  cbn [libstdcxx.scan_up].
  destruct (comp (deref v f) (deref v p)) eqn:Hf.
  - assert (f <> u) by (intros ->; congruence).
    destruct (IH (S f) u) as [f1 [E [Hb [Hs Hall]]]]; [lia|exact Hu|lia|].
    exists f1. split; [exact E|]. split; [lia|]. split; [exact Hs|].
    intros i Hi. destruct (Nat.eq_dec i f) as [->|Hne]; [exact Hf|].
    apply Hall. lia.
  - exists f. split; [reflexivity|]. split; [lia|]. split; [exact Hf|].
    intros i Hi. lia.
Qed.

Lemma scan_down_spec (v : list A) (p : nat) :
  forall l d,
    d <= l -> comp (deref v p) (deref v d) = false ->
    exists l1,
      libstdcxx.scan_down value_init comp v p l = Some l1 /\
      d <= l1 <= l /\
      comp (deref v p) (deref v l1) = false /\
      forall j, l1 < j <= l -> comp (deref v p) (deref v j) = true.
Proof.
  induction l as [|l IH]; intros d Hdl Hd.
  - assert (d = 0) as -> by lia. cbn [libstdcxx.scan_down]. rewrite Hd.
    exists 0. split; [reflexivity|]. split; [lia|]. split; [exact Hd|].
    intros j Hj. lia.
  - cbn [libstdcxx.scan_down].
    destruct (comp (deref v p) (deref v (S l))) eqn:Hl.
    + assert (d <> S l) by (intros ->; congruence).
      destruct (IH d) as [l1 [E [Hb [Hs Hall]]]]; [lia|exact Hd|].
      exists l1. split; [exact E|]. split; [lia|]. split; [exact Hs|].
      intros j Hj. destruct (Nat.eq_dec j (S l)) as [->|Hne]; [exact Hl|].
      apply Hall. lia.
    + exists (S l). split; [reflexivity|]. split; [lia|]. split; [exact Hl|].
      intros j Hj. lia.
Qed.

Lemma unguarded_partition_loop_spec (p lo hi : nat) (piv : A) :
  forall fuel f l v,
    p < lo -> lo <= f -> f <= l -> l <= hi -> hi <= List.length v ->
    deref v p = piv ->
    (forall i, lo <= i < f -> comp piv (deref v i) = false) ->
    (forall j, l <= j < hi -> comp (deref v j) piv = false) ->
    (exists u, f <= u < hi /\ comp (deref v u) piv = false) ->
    (exists d, lo <= d < l /\ comp piv (deref v d) = false) ->
    hi - f < fuel ->
    exists cut v',
      libstdcxx.unguarded_partition_loop value_init comp fuel f l p v
      = Some (cut, v') /\
      Permutation v v' /\ frame v v' lo hi /\
      lo <= cut < hi /\
      (forall i, lo <= i < cut -> comp piv (deref v' i) = false) /\
      (forall j, cut <= j < hi -> comp (deref v' j) piv = false).
Proof.
  induction fuel as [|fuel IH];
    intros f l v Hp Hlo Hfl Hl Hhi Hpiv Hleft Hright [u [Hu Hcu]]
      [d [Hd Hcd]] Hfuel; [lia|].
  cbn [libstdcxx.unguarded_partition_loop].
  subst piv.
  destruct (scan_up_spec v p (List.length v - f) f u)
    as [f1 [E1 [Hb1 [Hs1 Hall1]]]]; [lia|exact Hcu|lia|].
  rewrite E1.
  destruct (scan_down_spec v p (l - 1) d)
    as [l1 [E2 [Hb2 [Hs2 Hall2]]]]; [lia|exact Hcd|].
  rewrite E2.
  destruct (Nat.ltb_spec f1 l1) as [Hlt|Hge]; cbn [negb].
  - set (v1 := libstdcxx.iter_swap value_init f1 l1 v).
    assert (Hf1 : f1 < List.length v) by lia.
    assert (Hl1 : l1 < List.length v) by lia.
    destruct (IH (S f1) l1 v1) as [cut [v' [E [Hperm [Hfr [Hcut [HL HR]]]]]]].
    + exact Hp.
    + lia.
    + lia.
    + lia.
    + unfold v1. rewrite iter_swap_length. exact Hhi.
    + unfold v1. apply deref_iter_swap_other; lia.
    + intros i Hi. unfold v1.
      destruct (Nat.eq_dec i f1) as [->|Hne].
      * rewrite deref_iter_swap_l by assumption. exact Hs2.
      * rewrite deref_iter_swap_other by lia.
        destruct (Nat.lt_ge_cases i f) as [Hif|Hif].
        -- apply Hleft. lia.
        -- apply comp_asym. apply Hall1. lia.
    + intros j Hj. unfold v1.
      destruct (Nat.eq_dec j l1) as [->|Hne].
      * rewrite deref_iter_swap_r by assumption. exact Hs1.
      * rewrite deref_iter_swap_other by lia.
        destruct (Nat.lt_ge_cases j l) as [Hjl|Hjl].
        -- apply comp_asym. apply Hall2. lia.
        -- apply Hright. lia.
    + exists l1. split; [lia|]. unfold v1.
      rewrite deref_iter_swap_r by assumption. exact Hs1.
    + exists f1. split; [lia|]. unfold v1.
      rewrite deref_iter_swap_l by assumption. exact Hs2.
    + lia.
    + exists cut, v'. split; [exact E|].
      split; [exact (perm_trans (iter_swap_perm f1 l1 v Hf1 Hl1) Hperm)|].
      split; [apply (frame_trans _ v1); [apply frame_iter_swap; lia|exact Hfr]|].
      split; [exact Hcut|]. split; [exact HL|exact HR].
  - exists f1, v. split; [reflexivity|].
    split; [apply Permutation_refl|]. split; [apply frame_refl|].
    split; [lia|]. split.
    + intros i Hi. destruct (Nat.lt_ge_cases i f) as [Hif|Hif].
      * apply Hleft. lia.
      * apply comp_asym. apply Hall1. lia.
    + intros j Hj. destruct (Nat.lt_ge_cases j l) as [Hjl|Hjl].
      * destruct (Nat.eq_dec j l1) as [->|Hne].
        -- assert (f1 = l1) as <- by lia. exact Hs1.
        -- apply comp_asym. apply Hall2. lia.
      * apply Hright. lia.
Qed.

Lemma move_median_to_first_spec (result a b c : nat) (v : list A) :
  exists m u d,
    libstdcxx.__move_median_to_first value_init comp result a b c v
    = libstdcxx.iter_swap value_init result m v /\
    (m = a \/ m = b \/ m = c) /\
    (u = a \/ u = b \/ u = c) /\ (d = a \/ d = b \/ d = c) /\
    (a <> b -> a <> c -> b <> c -> u <> m /\ d <> m) /\
    comp (deref v u) (deref v m) = false /\
    comp (deref v m) (deref v d) = false.
Proof.
  unfold libstdcxx.__move_median_to_first.
  destruct (comp (deref v a) (deref v b)) eqn:Hab;
    [destruct (comp (deref v b) (deref v c)) eqn:Hbc;
       [|destruct (comp (deref v a) (deref v c)) eqn:Hac]
    |destruct (comp (deref v a) (deref v c)) eqn:Hac;
       [|destruct (comp (deref v b) (deref v c)) eqn:Hbc]].
  - exists b, c, a. repeat split; auto using comp_asym.
  - exists c, b, a. repeat split; auto using comp_asym.
  - exists a, b, c. repeat split; auto using comp_asym.
  - exists a, c, b. repeat split; auto using comp_asym.
  - exists c, a, b. repeat split; auto using comp_asym.
  - exists b, a, c. repeat split; auto using comp_asym.
Qed.

Lemma unguarded_partition_pivot_spec (first last : nat) (v : list A) :
  libstdcxx._S_threshold < last - first -> last <= List.length v ->
  exists cut v',
    libstdcxx.__unguarded_partition_pivot value_init comp first last v
    = Some (cut, v') /\
    Permutation v v' /\ frame v v' first last /\
    first < cut < last /\
    (forall i, first <= i < cut ->
       comp (deref v' first) (deref v' i) = false) /\
    (forall j, cut <= j < last ->
       comp (deref v' j) (deref v' first) = false).
Proof.
  unfold libstdcxx._S_threshold. intros Hsize Hlast.
  unfold libstdcxx.__unguarded_partition_pivot,
    libstdcxx.__unguarded_partition.
  set (mid := first + (last - first) / 2).
  assert (Hmid : first + 8 <= mid /\ mid + 8 <= last - 1).
  { unfold mid.
    pose proof (Nat.div_mod_eq (last - first) 2) as D.
    pose proof (Nat.mod_upper_bound (last - first) 2) as U. lia. }
  destruct (move_median_to_first_spec first (first + 1) mid (last - 1) v)
    as [m [u [d [E [Hm [Hu [Hd [Hne [Hcu Hcd]]]]]]]]].
  rewrite E. clear E.
  destruct Hne as [Hum Hdm]; [lia|lia|lia|].
  set (v0 := libstdcxx.iter_swap value_init first m v).
  assert (Hfirst : first < List.length v) by lia.
  assert (Hmlen : m < List.length v) by lia.
  assert (Hpiv : deref v0 first = deref v m)
    by (unfold v0; apply deref_iter_swap_l; assumption).
  destruct (unguarded_partition_loop_spec first (first + 1) last (deref v m)
              (S (last - (first + 1))) (first + 1) last v0)
    as [cut [v' [E [Hperm [Hfr [Hcut [HL HR]]]]]]].
  - lia.
  - lia.
  - lia.
  - lia.
  - unfold v0. rewrite iter_swap_length. exact Hlast.
  - exact Hpiv.
  - intros i Hi. lia.
  - intros j Hj. lia.
  - exists u. split; [lia|]. unfold v0.
    rewrite deref_iter_swap_other by lia. exact Hcu.
  - exists d. split; [lia|]. unfold v0.
    rewrite deref_iter_swap_other by lia. exact Hcd.
  - lia.
  - exists cut, v'. split; [exact E|].
    assert (Hp' : deref v' first = deref v m).
    { destruct Hfr as [_ F]. rewrite F by lia. exact Hpiv. }
    split; [exact (perm_trans (iter_swap_perm first m v Hfirst Hmlen) Hperm)|].
    split.
    { apply (frame_trans _ v0); [apply frame_iter_swap; lia|].
      apply (frame_weaken _ _ (first + 1) last); [lia|lia|exact Hfr]. }
    split; [lia|]. rewrite Hp'. split.
    + intros i Hi. destruct (Nat.eq_dec i first) as [->|Hn].
      * rewrite Hp'. apply comp_irrefl.
      * apply HL. lia.
    + intros j Hj. apply HR. lia.
Qed.
(** *** The heap *)

Local Abbreviation heap := (heap_above value_init comp).

Ltac div2 n :=
  let D := fresh "D" in
  let U := fresh "U" in
  pose proof (Nat.div_mod_eq n 2) as D;
  pose proof (Nat.mod_upper_bound n 2 ltac:(discriminate)) as U.

Lemma parent_left (h : nat) : (2 * h + 1 - 1) / 2 = h.
Proof. div2 (2 * h + 1 - 1). lia. Qed.

Lemma parent_right (h : nat) : (2 * h + 2 - 1) / 2 = h.
Proof. div2 (2 * h + 2 - 1). lia. Qed.

Lemma children_of (h c : nat) :
  1 <= c -> (c - 1) / 2 = h -> c = 2 * h + 1 \/ c = 2 * h + 2.
Proof. intros Hc E. div2 (c - 1). lia. Qed.

Lemma descends_ge (top h : nat) : descends top h -> top <= h.
Proof.
  induction 1 as [|c Hc _ IH]; [lia|]. div2 (c - 1). lia.
Qed.

Lemma descends_parent (top h : nat) :
  descends top h -> h <> top -> 1 <= h /\ descends top ((h - 1) / 2).
Proof. intros H Hne. destruct H as [|c Hc Hp]; [congruence|]. split; assumption. Qed.

Lemma heap_weaken (v : list A) (first len top top' : nat) :
  top <= top' -> heap v first len top -> heap v first len top'.
Proof. intros H Hh c Hc Hp. apply Hh; [exact Hc|lia]. Qed.

(** The root of a heap is before no entry of the heap. *)
Lemma heap_root_max (v : list A) (first len : nat) :
  first + len <= List.length v -> Forall ok v ->
  heap v first len 0 ->
  forall k, k < len -> comp (deref v first) (deref v (first + k)) = false.
Proof.
  intros Hlen Hok Hh k. induction k as [k IH] using lt_wf_ind. intros Hk.
  destruct k as [|k].
  - rewrite Nat.add_0_r. apply comp_irrefl.
  - set (p := (S k - 1) / 2).
    assert (Hp : p < S k) by (unfold p; div2 (S k - 1); lia).
    apply (le_trans (deref v (first + S k)) (deref v (first + p))).
    + apply Forall_deref; [exact Hok|lia].
    + apply Hh; lia.
    + apply IH; lia.
Qed.

(** The first loop of [__adjust_heap]: the hole sinks to a place without two
    children; what was above it is a heap again, with the entry of the last
    place of the hole twice. *)
Lemma adjust_heap_loop_spec (first len top : nat) :
  forall fuel hole v,
    top <= hole -> hole < len -> first + len <= List.length v ->
    descends top hole -> Forall ok v ->
    heap v first len (if Nat.eqb hole top then S top else top) ->
    len - hole <= fuel ->
    exists hole' v',
      libstdcxx.adjust_heap_loop value_init comp fuel first hole hole len v
      = (hole', hole', v') /\
      hole <= hole' /\ hole' < len /\ ~ hole' < (len - 1) / 2 /\
      descends top hole' /\ Forall ok v' /\
      heap v' first len (if Nat.eqb hole' top then S top else top) /\
      frame v v' (first + top) (first + len) /\
      (forall x, Permutation (assign (first + hole) x v)
                   (assign (first + hole') x v')).
Proof.
  induction fuel as [|fuel IH]; intros hole v Htop Hlen Hv Hd Hok Hh Hfuel;
    [lia|].
  cbn [libstdcxx.adjust_heap_loop].
  destruct (Nat.ltb_spec hole ((len - 1) / 2)) as [Hlt|Hge].
  2:{ exists hole, v. split; [reflexivity|]. split; [lia|]. split; [exact Hlen|].
      split; [lia|]. split; [exact Hd|]. split; [exact Hok|].
      split; [exact Hh|]. split; [apply frame_refl|].
      intros x. apply Permutation_refl. }
  assert (Hsc : 2 * (hole + 1) < len) by (div2 (len - 1); lia).
  set (sc1 := 2 * (hole + 1)) in *.
  set (sc2 := if comp (deref v (first + sc1)) (deref v (first + (sc1 - 1)))
              then sc1 - 1 else sc1).
  assert (Hsc2 : (sc2 = 2 * hole + 1 \/ sc2 = 2 * hole + 2) /\
                 forall c, c = 2 * hole + 1 \/ c = 2 * hole + 2 ->
                   comp (deref v (first + sc2)) (deref v (first + c)) = false).
  { unfold sc2.
    replace (sc1 - 1) with (2 * hole + 1) by (unfold sc1; lia).
    replace sc1 with (2 * hole + 2) by (unfold sc1; lia).
    destruct (comp (deref v (first + (2 * hole + 2)))
                (deref v (first + (2 * hole + 1)))) eqn:Hc.
    - split; [left; reflexivity|]. intros c [->| ->].
      + apply comp_irrefl.
      + apply comp_asym. exact Hc.
    - split; [right; reflexivity|]. intros c [->| ->].
      + exact Hc.
      + apply comp_irrefl. }
  destruct Hsc2 as [Hsc2 Hbest].
  assert (Hpar : (sc2 - 1) / 2 = hole).
  { destruct Hsc2 as [-> | ->]; [apply parent_left|apply parent_right]. }
  set (v1 := assign (first + hole) (deref v (first + sc2)) v).
  assert (Hsc2len : sc2 < len) by (unfold sc1 in Hsc; lia).
  assert (Hne : Nat.eqb sc2 top = false) by (apply Nat.eqb_neq; lia).
  assert (Hok1 : Forall ok v1).
  { apply Forall_assign; [|exact Hok]. apply Forall_deref; [exact Hok|lia]. }
  assert (Hv1 : forall k, k <> hole ->
                  deref v1 (first + k) = deref v (first + k)).
  { intros k Hk. unfold v1. apply deref_assign_neq. lia. }
  assert (Hv1h : deref v1 (first + hole) = deref v (first + sc2)).
  { unfold v1. apply deref_assign_eq. lia. }
  destruct (IH sc2 v1) as [hole' [v' [E [H1 [H2 [H3 [H4 [H5 [H6 [H7 H8]]]]]]]]]].
  - lia.
  - exact Hsc2len.
  - unfold v1. rewrite assign_length. exact Hv.
  - apply descends_child; [lia|]. rewrite Hpar. exact Hd.
  - exact Hok1.
  - rewrite Hne. intros c Hc Hp.
    destruct (Nat.eq_dec ((c - 1) / 2) hole) as [Eh|Nh].
    + rewrite Eh, Hv1h.
      destruct (children_of hole c (proj1 Hc) Eh) as [Ec|Ec];
        (rewrite Hv1 by lia); apply Hbest; [left|right]; exact Ec.
    + rewrite (Hv1 _ Nh).
      destruct (Nat.eq_dec c hole) as [->|Nc].
      * rewrite Hv1h.
        assert (Hht : Nat.eqb hole top = false).
        { apply Nat.eqb_neq. div2 (hole - 1). lia. }
        rewrite Hht in Hh.
        apply (le_trans _ (deref v (first + hole))).
        -- apply Forall_deref; [exact Hok|lia].
        -- rewrite <- Hpar at 1. apply Hh; [lia|rewrite Hpar; exact Htop].
        -- apply Hh; [exact Hc|exact Hp].
      * rewrite (Hv1 _ Nc). apply Hh; [exact Hc|].
        destruct (Nat.eqb_spec hole top) as [->|_]; lia.
  - lia.
  - exists hole', v'. split; [exact E|]. split; [lia|]. split; [exact H2|].
    split; [exact H3|]. split; [exact H4|]. split; [exact H5|].
    split; [exact H6|]. split.
    + apply (frame_trans _ v1); [|exact H7]. apply frame_assign. lia.
    + intros x. eapply perm_trans; [|apply H8].
      unfold v1. apply assign_move_perm; lia.
Qed.
(** The loop of [__push_heap]: the hole rises until the value fits. *)
Lemma push_heap_loop_spec (first len top : nat) (value : A) :
  ok value ->
  forall fuel hole v,
    top <= hole -> hole < len -> first + len <= List.length v ->
    descends top hole -> Forall ok v ->
    heap v first len top ->
    (forall c, 1 <= c < len -> (c - 1) / 2 = hole ->
       comp value (deref v (first + c)) = false) ->
    hole <= fuel ->
    let v' :=
      libstdcxx.push_heap_loop value_init comp fuel first hole top value v in
    heap v' first len top /\
    frame v v' (first + top) (first + len) /\
    Permutation (assign (first + hole) value v) v' /\
    Forall ok v'.
Proof.
  intros Hval.
  assert (Hplace : forall hole v,
            top <= hole -> hole < len -> first + len <= List.length v ->
            Forall ok v -> heap v first len top ->
            (forall c, 1 <= c < len -> (c - 1) / 2 = hole ->
               comp value (deref v (first + c)) = false) ->
            (hole = top \/
             comp (deref v (first + (hole - 1) / 2)) value = false) ->
            heap (assign (first + hole) value v) first len top /\
            frame v (assign (first + hole) value v)
              (first + top) (first + len) /\
            Permutation (assign (first + hole) value v)
              (assign (first + hole) value v) /\
            Forall ok (assign (first + hole) value v)).
  { intros hole v Htop Hlen Hv Hok Hh Hch Hstop.
    split; [|split; [apply frame_assign; lia|split;
              [apply Permutation_refl|apply Forall_assign; assumption]]].
    intros c Hc Hp.
    destruct (Nat.eq_dec ((c - 1) / 2) hole) as [Eh|Nh].
    - rewrite Eh. rewrite deref_assign_eq by lia.
      rewrite deref_assign_neq by (div2 (c - 1); lia).
      apply Hch; assumption.
    - rewrite (deref_assign_neq (first + hole)) by lia.
      destruct (Nat.eq_dec c hole) as [->|Nc].
      + rewrite deref_assign_eq by lia.
        destruct Hstop as [->|Hstop]; [div2 (top - 1); lia|exact Hstop].
      + rewrite deref_assign_neq by lia. apply Hh; assumption. }
  induction fuel as [|fuel IH];
    intros hole v Htop Hlen Hv Hd Hok Hh Hch Hfuel;
    cbn [libstdcxx.push_heap_loop].
  - apply Hplace; try assumption. left. lia.
  - destruct (Nat.ltb_spec top hole) as [Hlt|Hge]; cbn [andb].
    2:{ apply Hplace; try assumption. left. lia. }
    destruct (comp (deref v (first + (hole - 1) / 2)) value) eqn:Hc.
    2:{ apply Hplace; try assumption. right. exact Hc. }
    cbn zeta.
    set (p := (hole - 1) / 2) in *.
    destruct (descends_parent top hole Hd) as [Hh1 Hdp]; [lia|].
    fold p in Hdp.
    assert (Hp : top <= p /\ p < hole).
    { split; [apply descends_ge; exact Hdp|]. unfold p. div2 (hole - 1). lia. }
    set (v1 := assign (first + hole) (deref v (first + p)) v).
    assert (Hv1 : forall k, k <> hole ->
                    deref v1 (first + k) = deref v (first + k)).
    { intros k Hk. unfold v1. apply deref_assign_neq. lia. }
    assert (Hv1h : deref v1 (first + hole) = deref v (first + p)).
    { unfold v1. apply deref_assign_eq. lia. }
    assert (Hokp : ok (deref v (first + p)))
      by (apply Forall_deref; [exact Hok|lia]).
    destruct (IH p v1) as [G1 [G2 [G3 G4]]].
    + lia.
    + lia.
    + unfold v1. rewrite assign_length. exact Hv.
    + exact Hdp.
    + apply Forall_assign; assumption.
    + intros c Hcc Hpc.
      destruct (Nat.eq_dec ((c - 1) / 2) hole) as [Eh|Nh].
      * rewrite Eh, Hv1h. rewrite Hv1 by (div2 (c - 1); lia).
        apply (le_trans _ (deref v (first + hole))).
        -- apply Forall_deref; [exact Hok|lia].
        -- rewrite <- Eh. apply Hh; [exact Hcc|lia].
        -- apply Hh; [lia|lia].
      * rewrite (Hv1 _ Nh).
        destruct (Nat.eq_dec c hole) as [->|Nc].
        -- rewrite Hv1h. apply comp_irrefl.
        -- rewrite (Hv1 _ Nc). apply Hh; assumption.
    + intros c Hcc Hpc.
      destruct (Nat.eq_dec c hole) as [->|Nc].
      * rewrite Hv1h. apply comp_asym. exact Hc.
      * rewrite (Hv1 _ Nc).
        assert (Hs : comp (deref v (first + p)) (deref v (first + c)) = false).
        { rewrite <- Hpc. apply Hh; [exact Hcc|lia]. }
        destruct (comp value (deref v (first + c))) eqn:Hvc; [|reflexivity].
        assert (Hoc : ok (deref v (first + c)))
          by (apply Forall_deref; [exact Hok|lia]).
        destruct (comp_cotrans _ _ (deref v (first + c)) Hoc Hc) as [K|K];
          [congruence|].
        rewrite (comp_asym _ _ K) in Hvc. discriminate Hvc.
    + lia.
    + split; [exact G1|]. split.
      * apply (frame_trans _ v1); [apply frame_assign; lia|exact G2].
      * split; [|exact G4].
        eapply perm_trans; [|exact G3].
        unfold v1. apply assign_move_perm; lia.
Qed.

Lemma adjust_heap_spec (first len top : nat) (value : A) (v : list A) :
  top < len -> first + len <= List.length v ->
  ok value -> Forall ok v ->
  heap v first len (S top) ->
  let v' := libstdcxx.__adjust_heap value_init comp first top len value v in
  heap v' first len top /\
  frame v v' (first + top) (first + len) /\
  Permutation (assign (first + top) value v) v' /\
  Forall ok v'.
Proof.
  intros Htop Hv Hval Hok Hh. unfold libstdcxx.__adjust_heap.
  destruct (adjust_heap_loop_spec first len top len top v)
    as [hole1 [v1 [E [H1 [H2 [H3 [H4 [H5 [H6 [H7 H8]]]]]]]]]];
    try assumption; try lia.
  { apply descends_top. }
  { rewrite Nat.eqb_refl. exact Hh. }
  rewrite E. clear E.
  destruct (Nat.even len && Nat.eqb hole1 ((len - 2) / 2)) eqn:Hlast.
  - apply andb_true_iff in Hlast. destruct Hlast as [Hev Hq].
    apply Nat.even_spec in Hev. destruct Hev as [k Hk].
    apply Nat.eqb_eq in Hq.
    assert (Hh1 : hole1 = k - 1 /\ 1 <= k).
    { div2 (len - 2). lia. }
    replace (2 * (hole1 + 1) - 1) with (len - 1) by lia.
    set (v2 := assign (first + hole1) (deref v1 (first + (len - 1))) v1).
    assert (Hpl : (len - 1 - 1) / 2 = hole1) by (div2 (len - 1 - 1); lia).
    assert (Hv2 : forall j, j <> hole1 ->
                    deref v2 (first + j) = deref v1 (first + j)).
    { intros j Hj. unfold v2. apply deref_assign_neq. lia. }
    assert (Hv2h : deref v2 (first + hole1) = deref v1 (first + (len - 1))).
    { unfold v2. apply deref_assign_eq.
      destruct H7 as [L _]. rewrite L. lia. }
    assert (Hlen1 : first + len <= List.length v1)
      by (destruct H7 as [L _]; rewrite L; exact Hv).
    destruct (push_heap_loop_spec first len top value Hval
                (len - 1) (len - 1) v2) as [G1 [G2 [G3 G4]]].
    + lia.
    + lia.
    + unfold v2. rewrite assign_length. exact Hlen1.
    + apply descends_child; [lia|]. rewrite Hpl. exact H4.
    + apply Forall_assign; [|exact H5]. apply Forall_deref; [exact H5|lia].
    + intros c Hc Hp.
      destruct (Nat.eq_dec ((c - 1) / 2) hole1) as [Eh|Nh].
      * assert (c = len - 1) as -> by (div2 (c - 1); lia).
        rewrite Hpl, Hv2h. rewrite Hv2 by lia. apply comp_irrefl.
      * rewrite (Hv2 _ Nh).
        destruct (Nat.eq_dec c hole1) as [->|Nc].
        -- rewrite Hv2h.
           assert (Hht : Nat.eqb hole1 top = false).
           { apply Nat.eqb_neq. div2 (hole1 - 1). lia. }
           rewrite Hht in H6.
           apply (le_trans _ (deref v1 (first + hole1))).
           ++ apply Forall_deref; [exact H5|lia].
           ++ rewrite <- Hpl at 1. apply H6; [lia|lia].
           ++ apply H6; [exact Hc|exact Hp].
        -- rewrite (Hv2 _ Nc). apply H6; [exact Hc|].
           destruct (Nat.eqb_spec hole1 top) as [->|_]; lia.
    + intros c Hc Hp. div2 (c - 1). lia.
    + lia.
    + unfold libstdcxx.__push_heap. split; [exact G1|]. split.
      * apply (frame_trans _ v1); [exact H7|].
        apply (frame_trans _ v2); [apply frame_assign; lia|exact G2].
      * split; [|exact G4].
        eapply perm_trans; [apply (H8 value)|].
        eapply perm_trans; [|exact G3].
        unfold v2. apply assign_move_perm; lia.
  - assert (Hleaf : forall c, 1 <= c < len -> (c - 1) / 2 <> hole1).
    { intros c Hc Eh. apply andb_false_iff in Hlast.
      div2 (c - 1). div2 (len - 1). div2 (len - 2).
      destruct Hlast as [Hev|Hq].
      - assert (Hodd : Nat.odd len = true)
          by (rewrite <- Nat.negb_even, Hev; reflexivity).
        apply Nat.odd_spec in Hodd. destruct Hodd as [k Hk]. lia.
      - apply Nat.eqb_neq in Hq.
        destruct (Nat.Even_or_Odd len) as [[k Hk]|[k Hk]]; lia. }
    assert (Hlen1 : first + len <= List.length v1)
      by (destruct H7 as [L _]; rewrite L; exact Hv).
    destruct (push_heap_loop_spec first len top value Hval
                hole1 hole1 v1) as [G1 [G2 [G3 G4]]];
      try assumption; try lia.
    + intros c Hc Hp.
      destruct (Nat.eqb_spec hole1 top) as [->|_].
      * destruct (Nat.eq_dec ((c - 1) / 2) top) as [Eh|Nh].
        -- destruct (Hleaf c Hc Eh).
        -- apply H6; [exact Hc|lia].
      * apply H6; assumption.
    + intros c Hc Eh. destruct (Hleaf c Hc Eh).
    + unfold libstdcxx.__push_heap. split; [exact G1|]. split.
      * apply (frame_trans _ v1); [exact H7|exact G2].
      * split; [|exact G4].
        eapply perm_trans; [apply (H8 value)|exact G3].
Qed.
Lemma make_heap_loop_spec (first len : nat) :
  forall parent v,
    parent < len -> first + len <= List.length v -> Forall ok v ->
    heap v first len (S parent) ->
    let v' := libstdcxx.make_heap_loop value_init comp first len parent v in
    heap v' first len 0 /\ frame v v' first (first + len) /\
    Permutation v v' /\ Forall ok v'.
Proof.
  induction parent as [|parent IH]; intros v Hp Hv Hok Hh;
    cbn [libstdcxx.make_heap_loop].
  - rewrite Nat.add_0_r.
    destruct (adjust_heap_spec first len 0 (deref v first) v)
      as [G1 [G2 [G3 G4]]]; try assumption.
    { apply Forall_deref; [exact Hok|lia]. }
    rewrite Nat.add_0_r in G2, G3.
    rewrite assign_deref_self in G3.
    split; [exact G1|]. split; [|split; assumption].
    exact G2.
  - destruct (adjust_heap_spec first len (S parent)
                (deref v (first + S parent)) v)
      as [G1 [G2 [G3 G4]]]; try assumption.
    { apply Forall_deref; [exact Hok|lia]. }
    rewrite assign_deref_self in G3.
    set (v1 := libstdcxx.__adjust_heap value_init comp first (S parent) len
                 (deref v (first + S parent)) v) in *.
    destruct (IH v1) as [K1 [K2 [K3 K4]]].
    + lia.
    + destruct G2 as [L _]. rewrite L. exact Hv.
    + exact G4.
    + exact G1.
    + split; [exact K1|]. split; [|split].
      * apply (frame_trans _ v1); [|exact K2].
        apply (frame_weaken _ _ (first + S parent) (first + len));
          [lia|lia|exact G2].
      * exact (perm_trans G3 K3).
      * exact K4.
Qed.

Lemma make_heap_spec (first len : nat) (v : list A) :
  first + len <= List.length v -> Forall ok v ->
  let v' := libstdcxx.__make_heap value_init comp first (first + len) v in
  heap v' first len 0 /\ frame v v' first (first + len) /\
  Permutation v v' /\ Forall ok v'.
Proof.
  intros Hv Hok. unfold libstdcxx.__make_heap.
  replace (first + len - first) with len by lia.
  destruct (Nat.ltb_spec len 2) as [Hsmall|Hbig].
  - split; [|split; [apply frame_refl|split; [apply Permutation_refl|exact Hok]]].
    intros c Hc Hp. lia.
  - apply make_heap_loop_spec; try assumption.
    + div2 (len - 2). lia.
    + intros c Hc Hp. div2 (len - 2). div2 (c - 1). lia.
Qed.

Lemma pop_heap_spec (first len : nat) (v : list A) :
  1 <= len -> first + len + 1 <= List.length v -> Forall ok v ->
  heap v first (len + 1) 0 ->
  let v' :=
    libstdcxx.__pop_heap value_init comp first (first + len) (first + len) v in
  heap v' first len 0 /\ frame v v' first (first + len + 1) /\
  Permutation v v' /\ Forall ok v' /\
  deref v' (first + len) = deref v first.
Proof.
  intros Hlen Hv Hok Hh. unfold libstdcxx.__pop_heap.
  replace (first + len - first) with len by lia.
  set (v1 := assign (first + len) (deref v first) v).
  assert (Hv1 : forall k, k < len ->
                  deref v1 (first + k) = deref v (first + k)).
  { intros k Hk. unfold v1. apply deref_assign_neq. lia. }
  destruct (adjust_heap_spec first len 0 (deref v (first + len)) v1)
    as [G1 [G2 [G3 G4]]].
  - lia.
  - unfold v1. rewrite assign_length. lia.
  - apply Forall_deref; [exact Hok|lia].
  - apply Forall_assign; [|exact Hok]. apply Forall_deref; [exact Hok|lia].
  - intros c Hc Hp. rewrite !Hv1 by (div2 (c - 1); lia).
    apply Hh; lia.
  - split; [exact G1|]. rewrite Nat.add_0_r in G2, G3. split; [|split; [|split]].
    + apply (frame_trans _ v1); [apply frame_assign; lia|].
      apply (frame_weaken _ _ first (first + len)); [lia|lia|exact G2].
    + eapply perm_trans; [|exact G3].
      assert (E : assign first (deref v (first + len)) v1
                  = libstdcxx.iter_swap value_init (first + len) first v)
        by reflexivity.
      rewrite E. apply iter_swap_perm; lia.
    + exact G4.
    + destruct G2 as [_ F]. rewrite F by lia.
      unfold v1. apply deref_assign_eq. lia.
Qed.

Lemma sort_heap_loop_spec (first n : nat) :
  forall fuel len v,
    len <= n -> first + n <= List.length v -> Forall ok v ->
    heap v first len 0 ->
    range_sorted value_init comp v (first + len) (first + n) ->
    (forall k j, k < len -> first + len <= j < first + n ->
       comp (deref v j) (deref v (first + k)) = false) ->
    len <= fuel ->
    let v' :=
      libstdcxx.sort_heap_loop value_init comp fuel first (first + len) v in
    range_sorted value_init comp v' first (first + n) /\
    frame v v' first (first + n) /\ Permutation v v' /\ Forall ok v'.
Proof.
  assert (Hdone : forall len v,
            len <= 1 ->
            range_sorted value_init comp v (first + len) (first + n) ->
            (forall k j, k < len -> first + len <= j < first + n ->
               comp (deref v j) (deref v (first + k)) = false) ->
            range_sorted value_init comp v first (first + n)).
  { intros len v Hlen Hs Hc i j Hi Hij Hj.
    destruct (Nat.lt_ge_cases i (first + len)) as [Hlt|Hge].
    - assert (i = first + 0) as -> by lia. apply Hc; lia.
    - apply Hs; lia. }
  induction fuel as [|fuel IH]; intros len v Hlen Hv Hok Hh Hs Hc Hfuel;
    cbn [libstdcxx.sort_heap_loop].
  - split; [apply (Hdone len); [lia|assumption|assumption]|].
    split; [apply frame_refl|]. split; [apply Permutation_refl|exact Hok].
  - replace (first + len - first) with len by lia.
    destruct (Nat.ltb_spec 1 len) as [Hbig|Hsmall].
    2:{ split; [apply (Hdone len); [lia|assumption|assumption]|].
        split; [apply frame_refl|]. split; [apply Permutation_refl|exact Hok]. }
    replace (first + len - 1) with (first + (len - 1)) by lia.
    destruct (pop_heap_spec first (len - 1) v) as [G1 [G2 [G3 [G4 G5]]]].
    + lia.
    + lia.
    + exact Hok.
    + replace (len - 1 + 1) with len by lia. exact Hh.
    + set (v1 := libstdcxx.__pop_heap value_init comp first
                   (first + (len - 1)) (first + (len - 1)) v) in *.
      replace (first + (len - 1) + 1) with (first + len) in G2 by lia.
      assert (Hv1 : forall j, first + len <= j -> deref v1 j = deref v j).
      { intros j Hj. destruct G2 as [_ F]. apply F. lia. }
      assert (Hrange : forall P : A -> Prop,
                (forall i, first <= i < first + len -> P (deref v i)) ->
                forall i, first <= i < first + len -> P (deref v1 i)).
      { intros P HP. apply (range_forall_perm P v v1 first (first + len));
          [lia|lia|exact G2|exact G3|exact HP]. }
      destruct (IH (len - 1) v1) as [K1 [K2 [K3 K4]]].
      * lia.
      * destruct G2 as [L _]. rewrite L. exact Hv.
      * exact G4.
      * exact G1.
      * intros i j Hi Hij Hj.
        rewrite (Hv1 j) by lia.
        destruct (Nat.eq_dec i (first + (len - 1))) as [->|Hne].
        -- rewrite G5.
           replace (deref v first) with (deref v (first + 0))
             by (rewrite Nat.add_0_r; reflexivity).
           apply Hc; lia.
        -- rewrite (Hv1 i) by lia. apply Hs; lia.
      * intros k j Hk Hj.
        destruct (Nat.eq_dec j (first + (len - 1))) as [->|Hne].
        -- rewrite G5.
           apply (Hrange (fun x => comp (deref v first) x = false)); [|lia].
           intros i Hi. replace i with (first + (i - first)) by lia.
           apply heap_root_max with (len := len); try assumption; lia.
        -- rewrite (Hv1 j) by lia.
           apply (Hrange (fun x => comp (deref v j) x = false)); [|lia].
           intros i Hi. replace i with (first + (i - first)) by lia.
           apply Hc; lia.
      * lia.
      * split; [exact K1|]. split; [|split].
        -- apply (frame_trans _ v1); [|exact K2].
           apply (frame_weaken _ _ first (first + len)); [lia|lia|exact G2].
        -- exact (perm_trans G3 K3).
        -- exact K4.
Qed.

(** The heap sort of a range. *)
Lemma partial_sort_spec (first n : nat) (v : list A) :
  first + n <= List.length v -> Forall ok v ->
  let v' :=
    libstdcxx.__partial_sort value_init comp first (first + n) (first + n) v in
  range_sorted value_init comp v' first (first + n) /\
  frame v v' first (first + n) /\ Permutation v v' /\ Forall ok v'.
Proof.
  intros Hv Hok.
  unfold libstdcxx.__partial_sort, libstdcxx.__heap_select,
    libstdcxx.__sort_heap.
  rewrite Nat.sub_diag. cbn [libstdcxx.heap_select_loop].
  destruct (make_heap_spec first n v Hv Hok) as [G1 [G2 [G3 G4]]].
  set (v1 := libstdcxx.__make_heap value_init comp first (first + n) v) in *.
  replace (first + n - first) with n by lia.
  destruct (sort_heap_loop_spec first n n n v1) as [K1 [K2 [K3 K4]]].
  - lia.
  - destruct G2 as [L _]. rewrite L. exact Hv.
  - exact G4.
  - exact G1.
  - intros i j Hi Hij Hj. lia.
  - intros k j Hk Hj. lia.
  - lia.
  - split; [exact K1|]. split; [exact (frame_trans _ _ _ _ _ G2 K2)|].
    split; [exact (perm_trans G3 K3)|exact K4].
Qed.
(** *** The introsort loop and the final insertion sort *)

Lemma range_sorted_blocked (v : list A) (first last : nat) :
  range_sorted value_init comp v first last ->
  blocked value_init comp v first last.
Proof.
  intros H i j Hi Hij Hj. unfold libstdcxx._S_threshold in Hij.
  apply H; lia.
Qed.

Lemma introsort_loop_spec :
  forall depth_limit first last v,
    first <= last -> last <= List.length v -> Forall ok v ->
    exists v',
      libstdcxx.__introsort_loop value_init comp depth_limit first last v
      = Some v' /\
      Permutation v v' /\ frame v v' first last /\
      blocked value_init comp v' first last.
Proof.
  induction depth_limit as [|d IH]; intros first last v Hfl Hlast Hok;
    cbn [libstdcxx.__introsort_loop];
    destruct (Nat.ltb_spec libstdcxx._S_threshold (last - first))
      as [Hbig|Hsmall];
    try (exists v; split; [reflexivity|];
         split; [apply Permutation_refl|]; split; [apply frame_refl|];
         intros i j Hi Hij Hj; lia).
  - replace last with (first + (last - first)) by lia.
    destruct (partial_sort_spec first (last - first) v)
      as [G1 [G2 [G3 G4]]]; [lia|exact Hok|].
    eexists. split; [reflexivity|]. split; [exact G3|]. split; [exact G2|].
    apply range_sorted_blocked. exact G1.
  - destruct (unguarded_partition_pivot_spec first last v Hbig Hlast)
      as [cut [v1 [E [P1 [F1 [Hcut [HL HR]]]]]]].
    rewrite E.
    assert (Hok1 : Forall ok v1) by (eapply Permutation_Forall; eassumption).
    assert (Hlen1 : List.length v1 = List.length v) by (destruct F1; assumption).
    destruct (IH cut last v1) as [v2 [E2 [P2 [F2 B2]]]];
      [lia|lia|exact Hok1|].
    rewrite E2.
    assert (Hok2 : Forall ok v2) by (eapply Permutation_Forall; eassumption).
    assert (Hlen2 : List.length v2 = List.length v1) by (destruct F2; assumption).
    destruct (IH first cut v2) as [v3 [E3 [P3 [F3 B3]]]];
      [lia|lia|exact Hok2|].
    rewrite E3. exists v3. split; [reflexivity|].
    split; [exact (perm_trans P1 (perm_trans P2 P3))|].
    split.
    { apply (frame_trans _ v1); [exact F1|].
      apply (frame_trans _ v2).
      - apply (frame_weaken _ _ cut last); [lia|lia|exact F2].
      - apply (frame_weaken _ _ first cut); [lia|lia|exact F3]. }
    set (piv := deref v1 first).
    assert (Hpiv : ok piv) by (apply Forall_deref; [exact Hok1|lia]).
    assert (HL3 : forall i, first <= i < cut -> comp piv (deref v3 i) = false).
    { apply (range_forall_perm (fun x => comp piv x = false) v2 v3 first cut);
        [lia|lia|exact F3|exact P3|].
      intros i Hi. destruct F2 as [_ F2]. rewrite F2 by lia.
      apply HL. exact Hi. }
    assert (HR3 : forall j, cut <= j < last -> comp (deref v3 j) piv = false).
    { intros j Hj. destruct F3 as [_ F3]. rewrite F3 by lia. revert j Hj.
      apply (range_forall_perm (fun x => comp x piv = false) v1 v2 cut last);
        [lia|lia|exact F2|exact P2|exact HR]. }
    intros i j Hi Hij Hj. unfold libstdcxx._S_threshold in Hij.
    destruct (Nat.lt_ge_cases j cut) as [Hjc|Hjc].
    + apply B3; [exact Hi|exact Hij|exact Hjc].
    + destruct (Nat.lt_ge_cases i cut) as [Hic|Hic].
      * apply (le_trans _ piv); [exact Hpiv|apply HL3; lia|apply HR3; lia].
      * destruct F3 as [_ F3]. rewrite !F3 by lia.
        apply B2; [exact Hic|exact Hij|exact Hj].
Qed.

Lemma unguarded_insertion_sort_loop_inserts (rest : list A) :
  forall (L : list A),
    Forall ok L -> Forall ok rest -> sorted_by comp L ->
    (forall r1 x r2, rest = r1 ++ x :: r2 ->
       exists y, In y (L ++ r1) /\ comp x y = false) ->
    libstdcxx.unguarded_insertion_sort_loop value_init comp (List.length L)
      (List.length rest) (L ++ rest)
    = Some (fold_left (fun acc x => insert_sorted comp x acc) rest L).
Proof.
  induction rest as [|x rest IH]; intros L HokL Hok Hs Hguard;
    cbn [List.length libstdcxx.unguarded_insertion_sort_loop fold_left].
  - rewrite app_nil_r. reflexivity.
  - inversion Hok as [|? ? Hx Hrest]; subst.
    unfold libstdcxx.__unguarded_linear_insert.
    rewrite (deref_app_hole L rest x).
    destruct (unguarded_linear_insert_loop_stops x L x rest)
      as [L1 [z [L2 [E [Hz [HL2 ->]]]]]].
    { destruct (Hguard [] x rest eq_refl) as [y [Hy Hc]].
      rewrite app_nil_r in Hy. eauto. }
    assert (Hins : insert_sorted comp x L = L1 ++ z :: x :: L2).
    { rewrite E. rewrite E in Hs, HokL. apply insert_sorted_at; try assumption.
      apply Forall_app in HokL. destruct HokL as [_ HokL].
      inversion HokL; assumption. }
    replace (L1 ++ z :: x :: L2 ++ rest)
      with (insert_sorted comp x L ++ rest)
      by (rewrite Hins, <- app_assoc; reflexivity).
    assert (Hlen : S (List.length L) = List.length (insert_sorted comp x L)).
    { rewrite <- (Permutation_length (insert_sorted_perm x L)). reflexivity. }
    rewrite Hlen. apply IH.
    + eapply Permutation_Forall; [apply insert_sorted_perm|].
      constructor; assumption.
    + exact Hrest.
    + apply insert_sorted_sorted; assumption.
    + intros r1 x' r2 Er.
      destruct (Hguard (x :: r1) x' r2) as [y [Hy Hc]];
        [rewrite Er; reflexivity|].
      exists y. split; [|exact Hc].
      apply (Permutation_in y
               (l := x :: L ++ r1) (l' := insert_sorted comp x L ++ r1)).
      * apply (Permutation_app_tail r1 (insert_sorted_perm x L)).
      * apply (Permutation_in y (Permutation_sym (Permutation_middle L r1 x))).
        exact Hy.
Qed.

Lemma final_insertion_sort_spec (v : list A) :
  Forall ok v -> blocked value_init comp v 0 (List.length v) ->
  libstdcxx.__final_insertion_sort value_init comp 0 (List.length v) v
  = Some (insertion_sorted comp v).
Proof.
  intros Hok Hb. unfold libstdcxx.__final_insertion_sort.
  rewrite Nat.sub_0_r. cbn [Nat.add].
  destruct (Nat.ltb_spec libstdcxx._S_threshold (List.length v))
    as [Hbig|Hsmall].
  - unfold libstdcxx._S_threshold in *.
    rewrite <- (firstn_skipn 16 v) at 1.
    assert (HL : List.length (firstn 16 v) = 16)
      by (rewrite length_firstn; lia).
    assert (HokLR : Forall ok (firstn 16 v) /\ Forall ok (skipn 16 v)).
    { apply Forall_app. rewrite firstn_skipn. exact Hok. }
    destruct HokLR as [HokL HokR].
    destruct (firstn 16 v) as [|x L] eqn:EL; [discriminate HL|].
    unfold libstdcxx.__insertion_sort. cbn [Nat.eqb].
    inversion HokL as [|? ? Hx HokL']; subst.
    replace (16 - 1) with (List.length L) by (cbn [List.length] in HL; lia).
    pose proof (insertion_sort_loop_inserts L [x] (skipn 16 v)) as HI.
    cbn [List.length app] in HI. cbn [app].
    rewrite HI; try assumption;
      [|discriminate|repeat constructor; exact Hx|repeat constructor].
    clear HI.
    change (fold_left (fun acc x0 => insert_sorted comp x0 acc) L [x])
      with (insertion_sorted comp (x :: L)).
    destruct (insertion_sorted_from (x :: L) [] (Forall_nil _) HokL
                (SSorted_nil _)) as [Hp Hs].
    cbn [app] in Hp. fold (insertion_sorted comp (x :: L)) in Hp, Hs.
    unfold libstdcxx.__unguarded_insertion_sort.
    replace 16 with (List.length (insertion_sorted comp (x :: L))) at 1
      by (rewrite <- (Permutation_length Hp); exact HL).
    replace (List.length v - 16) with (List.length (skipn 16 v))
      by (rewrite length_skipn; reflexivity).
    rewrite unguarded_insertion_sort_loop_inserts.
    + unfold insertion_sorted.
      rewrite <- (firstn_skipn 16 v) at 2. rewrite EL, fold_left_app.
      reflexivity.
    + eapply Permutation_Forall; [exact Hp|exact HokL].
    + exact HokR.
    + exact Hs.
    + intros r1 y r2 Er.
      assert (Ev : v = (x :: L) ++ r1 ++ y :: r2).
      { rewrite <- (firstn_skipn 16 v), EL, Er. reflexivity. }
      assert (Hr1 : List.length r1 < List.length ((x :: L) ++ r1))
        by (rewrite length_app, HL; lia).
      exists (deref v (List.length r1)). split.
      * apply (Permutation_in _
                 (Permutation_app_tail r1 Hp)).
        unfold libstdcxx.deref. rewrite Ev at 1.
        rewrite app_assoc, app_nth1 by exact Hr1.
        apply nth_In. exact Hr1.
      * assert (Ey : y = deref v (16 + List.length r1)).
        { unfold libstdcxx.deref. rewrite Ev at 1. rewrite app_assoc.
          replace (16 + List.length r1)
            with (List.length ((x :: L) ++ r1))
            by (rewrite length_app, HL; reflexivity).
          rewrite nth_middle. reflexivity. }
        rewrite Ey. apply Hb; unfold libstdcxx._S_threshold; [lia|lia|].
        rewrite Ev, !length_app, HL. cbn [List.length]. lia.
  - destruct v as [|x rest]; [reflexivity|].
    unfold libstdcxx.__insertion_sort. cbn [List.length Nat.eqb].
    replace (S (List.length rest) - 1) with (List.length rest) by lia.
    inversion Hok as [|? ? Hx Hrest]; subst.
    pose proof (insertion_sort_loop_inserts rest [x] []) as HI.
    cbn [List.length app] in HI. rewrite app_nil_r in HI.
    rewrite HI; try assumption;
      [|discriminate|repeat constructor; exact Hx|repeat constructor].
    rewrite app_nil_r. reflexivity.
Qed.

(** [std::sort] returns, and what it returns is the vector sorted. *)
Lemma sort_spec (v : list A) :
  Forall ok v ->
  exists out,
    libstdcxx.sort value_init comp v = Some out /\
    Permutation v out /\ sorted_by comp out.
Proof.
  intros Hok. unfold libstdcxx.sort, libstdcxx.__sort.
  destruct (Nat.eqb_spec 0 (List.length v)) as [Hz|Hnz].
  - exists v. split; [reflexivity|]. split; [apply Permutation_refl|].
    destruct v; [constructor|discriminate Hz].
  - destruct (introsort_loop_spec (Nat.log2 (List.length v - 0) * 2) 0
                (List.length v) v) as [v1 [E [P1 [F1 B1]]]];
      [lia|lia|exact Hok|].
    rewrite E.
    assert (Hok1 : Forall ok v1) by (eapply Permutation_Forall; eassumption).
    assert (Hlen1 : List.length v1 = List.length v) by (destruct F1; assumption).
    rewrite <- Hlen1 in B1 |- *.
    rewrite (final_insertion_sort_spec v1 Hok1 B1).
    destruct (insertion_sorted_from v1 [] (Forall_nil _) Hok1 (SSorted_nil _))
      as [Hp Hs].
    exists (insertion_sorted comp v1). split; [reflexivity|].
    split; [exact (perm_trans P1 Hp)|exact Hs].
Qed.

End SortFacts.

Lemma StronglySorted_nth_error {A} (R : A -> A -> Prop) (l : list A) :
  StronglySorted R l ->
  forall i j x y, (i < j)%nat ->
    nth_error l i = Some x -> nth_error l j = Some y -> R x y.
Proof.
  induction 1 as [|a l Hs IH Ha]; intros i j x y Hij Hi Hj.
  - destruct i; discriminate Hi.
  - destruct j as [|j]; [lia|]. cbn [nth_error] in Hj.
    destruct i as [|i]; cbn [nth_error] in Hi.
    + injection Hi as <-. rewrite Forall_forall in Ha. apply Ha.
      apply (nth_error_In _ _ Hj).
    + apply (IH i j x y); [lia|assumption|assumption].
Qed.

(** The order of [PairLargerThan] on entries without NaN. *)

Lemma SFeqb_key (a b : spec_float) :
  is_nan a = false -> is_nan b = false ->
  (SFeqb a b = true <-> SFkey a = SFkey b).
Proof.
  intros Ha Hb. unfold SFeqb, SFcompare.
  destruct a as [sa|sa| |sa ma ea], b as [sb|sb| |sb mb eb];
    try discriminate; try destruct sa; try destruct sb;
    cbn [SFkey];
    try (split; [discriminate|intros K; inversion K; fail]);
    try (split; reflexivity);
    change (Pos.compare_cont Eq ma mb) with (Pos.compare ma mb);
    destruct (Z.compare_spec ea eb); destruct (Pos.compare_spec ma mb);
    cbn [CompOpp];
    (split; [try discriminate; intros _; subst; reflexivity
            |try reflexivity; intros K; inversion K; exfalso; lia]).
Qed.

Lemma PairLargerThan_asym (a b : string * F32.t) :
  PairLargerThan a b = true -> PairLargerThan b a = false.
Proof. unfold PairLargerThan, F32.gtb. apply SFltb_asym. Qed.

Lemma PairLargerThan_cotrans (a b c : string * F32.t) :
  is_nan (snd c) = false ->
  PairLargerThan a b = true ->
  PairLargerThan a c = true \/ PairLargerThan c b = true.
Proof.
  unfold PairLargerThan, F32.gtb. intros Hc H.
  destruct (SFltb_cotrans _ _ (snd c) Hc H) as [K|K]; [right|left]; exact K.
Qed.

Lemma equivalent_PairLargerThan (e y : string * F32.t) :
  is_nan (snd e) = false -> is_nan (snd y) = false ->
  equivalent PairLargerThan e y = SFeqb (snd y) (snd e).
Proof.
  intros He Hy. unfold equivalent, PairLargerThan, F32.gtb.
  pose proof (SFltb_key (snd y) (snd e) Hy He) as K1.
  pose proof (SFltb_key (snd e) (snd y) He Hy) as K2.
  pose proof (SFeqb_key (snd y) (snd e) Hy He) as K3.
  destruct (SFkey (snd y)) as [[y1 y2] y3], (SFkey (snd e)) as [[e1 e2] e3].
  unfold lex_lt in K1, K2. cbn [fst snd] in K1, K2.
  destruct (SFltb (snd y) (snd e)), (SFltb (snd e) (snd y)),
    (SFeqb (snd y) (snd e)); cbn [negb andb]; try reflexivity; exfalso;
    try (destruct K3 as [K3 _]; specialize (K3 eq_refl); inversion K3; subst;
         first [ destruct K1 as [K1 _]; specialize (K1 eq_refl); lia
               | destruct K2 as [K2 _]; specialize (K2 eq_refl); lia ]).
  - assert (N1 : ~ (y1 < e1 \/ y1 = e1 /\ (y2 < e2 \/ y2 = e2 /\ y3 < e3)))
      by (intros X; apply K1 in X; discriminate X).
    assert (N2 : ~ (e1 < y1 \/ e1 = y1 /\ (e2 < y2 \/ e2 = y2 /\ e3 < y3)))
      by (intros X; apply K2 in X; discriminate X).
    assert (E : (y1, y2, y3) = (e1, e2, e3))
      by (f_equal; [f_equal|]; lia).
    apply K3 in E. discriminate E.
Qed.

(** With [PairLargerThan] on entries without NaN, [std::sort] of libstdc++
    returns, and returns the entries rearranged so that no value is larger
    than one before it. *)
Lemma libstdcxx_sort_sorts (item : list (string * F32.t)) :
  no_nan item ->
  exists out,
    libstdcxx.sort ("", F32.zero) PairLargerThan item = Some out /\
    libstdcxx_std_sort PairLargerThan item = out /\
    Permutation item out /\ descending out.
Proof.
  intros Hnan.
  destruct (sort_spec ("", F32.zero) PairLargerThan
              (fun x => is_nan (snd x) = false)
              PairLargerThan_asym PairLargerThan_cotrans item Hnan)
    as [out [E [Hp Hs]]].
  exists out. split; [exact E|].
  split; [unfold libstdcxx_std_sort; rewrite E; reflexivity|].
  split; [exact Hp|exact Hs].
Qed.

Lemma libstdcxx_sort_contract : sort_contract libstdcxx_std_sort.
Proof.
  intros item Hnan.
  destruct (libstdcxx_sort_sorts item Hnan) as [out [_ [-> [Hp Hs]]]].
  split; assumption.
Qed.

(** Up to 16 entries, entries of equal value keep the order of the
    traversal. *)
Lemma libstdcxx_sort_small (item : list (string * F32.t)) :
  no_nan item -> (List.length item <= 16)%nat ->
  ties_in_traversal_order item (libstdcxx_std_sort PairLargerThan item).
Proof.
  intros Hnan Hlen.
  pose proof (sort_small ("", F32.zero) PairLargerThan
                (fun x => is_nan (snd x) = false)
                PairLargerThan_asym PairLargerThan_cotrans item Hlen Hnan)
    as E.
  unfold libstdcxx_std_sort. rewrite E.
  destruct (insertion_sorted_from PairLargerThan
              (fun x => is_nan (snd x) = false)
              PairLargerThan_asym PairLargerThan_cotrans item []
              (Forall_nil _) Hnan (SSorted_nil _)) as [Hp Hs].
  intros value. destruct (is_nan value) eqn:Hv.
  - destruct value; try discriminate Hv.
    assert (F : forall l : list (string * F32.t),
               filter (fun y => SFeqb (snd y) S754_nan) l = []).
    { induction l as [|y l IH]; [reflexivity|]. cbn [filter].
      match goal with
      | |- (if ?c then _ else _) = _ =>
          assert (N : c = false)
            by (destruct y as [k x]; destruct x; reflexivity);
          rewrite N
      end.
      exact IH. }
    rewrite !F. reflexivity.
  - pose proof (insertion_sorted_filter PairLargerThan
                  (fun x => is_nan (snd x) = false)
                  PairLargerThan_asym PairLargerThan_cotrans
                  ("", value) item [] Hv (Forall_nil _) Hnan (SSorted_nil _))
      as F.
    cbn [app] in F. fold (insertion_sorted PairLargerThan item) in F.
    assert (Hout : no_nan (insertion_sorted PairLargerThan item))
      by (eapply Permutation_Forall; [exact Hp|exact Hnan]).
    rewrite <- (filter_ext_in (equivalent PairLargerThan ("", value))
                  (fun y => SFeqb (snd y) value)).
    + rewrite F. apply filter_ext_in. intros y Hy.
      apply (equivalent_PairLargerThan ("", value) y Hv).
      unfold no_nan in Hnan. rewrite Forall_forall in Hnan. apply Hnan, Hy.
    + intros y Hy. apply (equivalent_PairLargerThan ("", value) y Hv).
      unfold no_nan in Hout. rewrite Forall_forall in Hout. apply Hout, Hy.
Qed.

(** ** The report per operator type *)

Lemma reported_total_is_total_of normalizer listed :
  total_of normalizer listed = reported_total normalizer listed.
Proof. reflexivity. Qed.

Lemma report_section_is_metric_report std_sort metric normalizer unit item :
  metric_report std_sort metric normalizer unit item
  = report_section metric normalizer unit (std_sort PairLargerThan item).
Proof. reflexivity. Qed.

Lemma reported_percent_zero_total normalizer total value :
  SFeqb total (S754_zero false) = true ->
  reported_percent normalizer total value = S754_zero false.
Proof.
  unfold reported_percent.
  destruct total as [sg|sg| |sg m e]; try discriminate;
    try (destruct sg; discriminate).
  reflexivity.
Qed.


(** ** The theorems at concrete nets *)

Lemma Run_all_succeed_witness :
  succeed_in_sequence (operators_ Demo.net_ok_2) (workspace Demo.start) /\
  value (Run Demo.net_ok_2 Demo.start) = Returned true /\
  invoked (log (Run Demo.net_ok_2 Demo.start)) = [0; 1]%nat /\
  log (Run Demo.net_ok_2 Demo.start)
  = [ObserverStart; OperatorRun 0 true; OperatorRun 1 true; ObserverStop] /\
  workspace (after (Run Demo.net_ok_2 Demo.start)) = [0; 1]%nat.
Proof.
  assert (H : succeed_in_sequence (operators_ Demo.net_ok_2)
                (workspace Demo.start))
    by (simpl; repeat split).
  split; [exact H|].
  destruct (Run_all_succeed Demo.net_ok_2 Demo.start H)
    as [Hv [Hi [Hl [Hw _]]]].
  split; [exact Hv|]. split; [exact Hi|]. split; [exact Hl|exact Hw].
Defined.

Lemma Run_first_failure_witness :
  In (OperatorRun 1 false) (log (Run Demo.net_fail_2_of_3 Demo.start)) /\
  value (Run Demo.net_fail_2_of_3 Demo.start) = Returned false /\
  invoked (log (Run Demo.net_fail_2_of_3 Demo.start)) = [0; 1]%nat /\
  workspace (after (Run Demo.net_fail_2_of_3 Demo.start)) = [0; 1]%nat.
Proof.
  assert (H : In (OperatorRun 1 false)
                (log (Run Demo.net_fail_2_of_3 Demo.start)))
    by (vm_compute; right; right; left; reflexivity).
  split; [exact H|].
  destruct (Run_first_failure Demo.net_fail_2_of_3 Demo.start 1 H)
    as [Hv [Hi [_ _]]].
  split; [exact Hv|]. split; [exact Hi|]. reflexivity.
Defined.

Lemma Run_observers_witness :
  count is_start (log (Run Demo.net_fail_2_of_3 Demo.start)) = 1%nat /\
  count is_stop (log (Run Demo.net_fail_2_of_3 Demo.start)) = 0%nat /\
  count is_stop (log (Run Demo.net_ok_2 Demo.start)) = 1%nat.
Proof.
  destruct (Run_observers Demo.net_fail_2_of_3 Demo.start) as [H1 [_ H2]].
  destruct (Run_observers Demo.net_ok_2 Demo.start) as [_ [_ H3]].
  split; [exact H1|]. split; [exact H2|exact H3].
Defined.

Lemma SimpleNet_new_placement_witness :
  SimpleNet_new Demo.NetBase_new Demo.CreateOperator Demo.net_def_2
  = Returned Demo.built_2 /\
  net_def_ Demo.built_2 = Demo.net_def_2 /\
  List.length (operators_ Demo.built_2) = 2%nat.
Proof.
  assert (H : SimpleNet_new Demo.NetBase_new Demo.CreateOperator
                Demo.net_def_2
              = Returned Demo.built_2) by reflexivity.
  split; [exact H|].
  destruct (SimpleNet_new_placement Demo.NetBase_new Demo.CreateOperator
              Demo.net_def_2 Demo.built_2 H) as [H1 [H2 _]].
  split; [exact H1|exact H2].
Defined.

(** C3 as stated fails on a net with one operator: the sequence returned has
    two entries. *)
Lemma one_operator_two_entries :
  all_succeed Demo.net_ok_1 /\
  ~ exists mean,
      value (TEST_Benchmark Demo.elapsed_ms Demo.sort_stable Demo.no_schema
               Demo.net_ok_1 0 1 false Demo.start)
      = Returned [mean].
Proof.
  split; [repeat constructor|].
  intros [mean H]. vm_compute in H. discriminate H.
Qed.

Lemma TEST_Benchmark_0_1_false_witness :
  all_succeed Demo.net_ok_2 /\
  value (TEST_Benchmark Demo.elapsed_ms Demo.sort_stable Demo.no_schema
           Demo.net_ok_2 0 1 false Demo.start)
  = Returned [F32.div (F32.of_int 1) (F32.of_int 1); F32.zero; F32.zero].
Proof.
  assert (H : all_succeed Demo.net_ok_2) by (repeat constructor).
  split; [exact H|].
  exact (TEST_Benchmark_0_1_false Demo.elapsed_ms Demo.sort_stable
           Demo.no_schema Demo.net_ok_2 Demo.start H).
Defined.

(** C4 as stated fails on a net with a failing operator: nothing is
    returned. *)
Lemma failing_operator_no_result :
  0 <= 0 /\ 1 <= 1 /\
  ~ exists v,
      value (TEST_Benchmark Demo.elapsed_ms Demo.sort_stable Demo.no_schema
               Demo.net_fail_1 0 1 true Demo.start)
      = Returned v.
Proof.
  split; [lia|]. split; [lia|].
  intros [v H]. vm_compute in H. discriminate H.
Qed.

Lemma TEST_Benchmark_returns_witness :
  all_succeed Demo.net_ok_2 /\ 0 <= 2 /\ 1 <= 3 /\
  List.length
    match value (TEST_Benchmark Demo.elapsed_ms Demo.sort_stable
                   Demo.no_schema Demo.net_ok_2 2 3 true Demo.start) with
    | Returned v => v
    | Threw _ => []
    end = 3%nat.
Proof.
  assert (H : all_succeed Demo.net_ok_2) by (repeat constructor).
  assert (HW : 0 <= 2) by lia. assert (HM : 1 <= 3) by lia.
  split; [exact H|]. split; [exact HW|]. split; [exact HM|].
  rewrite (TEST_Benchmark_returns Demo.elapsed_ms Demo.sort_stable
             Demo.no_schema Demo.net_ok_2 2 3 true Demo.start H HW HM).
  reflexivity.
Defined.

(** C5 as stated fails for [main_runs = -1] with a warm-up run: the operator
    has been invoked when the check of [main_runs] throws. *)
Lemma warmup_runs_before_main_runs_check :
  value (TEST_Benchmark Demo.elapsed_ms Demo.sort_stable Demo.no_schema
           Demo.net_ok_1 1 (-1) false Demo.start)
  = Threw (MainRunsNegative (-1)) /\
  invoked (log (TEST_Benchmark Demo.elapsed_ms Demo.sort_stable
                  Demo.no_schema Demo.net_ok_1 1 (-1) false Demo.start))
  <> [].
Proof.
  split; [reflexivity|]. vm_compute. discriminate.
Qed.

Lemma TEST_Benchmark_negative_runs_witness :
  invoked (log (TEST_Benchmark Demo.elapsed_ms Demo.sort_stable
                  Demo.no_schema Demo.net_ok_2 (-1) 1 false Demo.start)) = []
  /\ invoked (log (TEST_Benchmark Demo.elapsed_ms Demo.sort_stable
                     Demo.no_schema Demo.net_ok_2 2 (-1) false Demo.start))
     = [0; 1; 0; 1]%nat.
Proof.
  assert (H : all_succeed Demo.net_ok_2) by (repeat constructor).
  split.
  - destruct (TEST_Benchmark_negative_runs Demo.elapsed_ms Demo.sort_stable
                Demo.no_schema Demo.net_ok_2 (-1) 1 false Demo.start)
      as [H1 _].
    apply H1. lia.
  - destruct (TEST_Benchmark_negative_runs Demo.elapsed_ms Demo.sort_stable
                Demo.no_schema Demo.net_ok_2 2 (-1) false Demo.start)
      as [_ [_ [_ H4]]].
    apply H4; [lia|lia|exact H].
Defined.

(** C9 as stated fails for the order of equal values: in a net with seventeen
    operator types of equal time and equal cost, [std::sort] of libstdc++
    leaves the types in an order that is not the order of the traversal, and
    every section of the report lists them in that order. *)
Lemma equal_values_against_traversal :
  no_nan Demo.tied_17 /\
  map fst Demo.tied_17
  = ["A"; "B"; "C"; "D"; "E"; "F"; "G"; "H"; "I"; "J"; "K"; "L"; "M"; "N";
     "O"; "P"; "Q"] /\
  option_map (map fst)
    (libstdcxx.sort ("", F32.zero) PairLargerThan Demo.tied_17)
  = Some ["I"; "Q"; "P"; "O"; "N"; "M"; "L"; "K"; "J"; "A"; "H"; "G"; "F";
          "E"; "D"; "C"; "B"] /\
  row_types (log (TEST_Benchmark Demo.elapsed_1ms libstdcxx_std_sort
                    Demo.unit_schema Demo.net_17 0 1 true Demo.start))
  = List.concat
      (repeat ["I"; "Q"; "P"; "O"; "N"; "M"; "L"; "K"; "J"; "A"; "H"; "G";
               "F"; "E"; "D"; "C"; "B"] 4) /\
  ~ ties_in_traversal_order Demo.tied_17
      (libstdcxx_std_sort PairLargerThan Demo.tied_17).
Proof.
  split; [repeat constructor|]. split; [reflexivity|].
  split; [vm_compute; reflexivity|]. split; [vm_compute; reflexivity|].
  intros H. specialize (H (F32.of_int 1)). vm_compute in H. discriminate H.
Qed.

Lemma TEST_Benchmark_zero_main_runs_witness :
  0 <= 1 /\
  value (TEST_Benchmark Demo.elapsed_ms Demo.sort_stable Demo.no_schema
           Demo.net_ok_2 1 0 true Demo.start)
  = Returned [S754_infinity false; S754_nan; S754_nan].
Proof.
  assert (HW : 0 <= 1) by lia.
  assert (H : all_succeed Demo.net_ok_2) by (repeat constructor).
  split; [exact HW|].
  destruct (TEST_Benchmark_zero_main_runs Demo.elapsed_ms Demo.sort_stable
              Demo.no_schema Demo.net_ok_2 1 true Demo.start HW)
    as [_ [_ [_ H4]]].
  rewrite (H4 H). reflexivity.
Defined.

(** ** The model evaluated *)

(** The double literals are the IEEE encodings 0x3E112E0BE826D695 and
    0x3EB0C6F7A0B5ED8D. *)
Example literals_are_the_nearest_doubles :
  F64.lit_1e_9 = S754_finite false 4835703278458517 (-82) /\
  F64.lit_1e_6 = S754_finite false 4722366482869645 (-72).
Proof. split; reflexivity. Qed.

Example CaffeMap_add_keeps_key_order :
  map fst
    (CaffeMap_add "Conv" (F32.of_int 1)
       (CaffeMap_add "Relu" (F32.of_int 2)
          (CaffeMap_add "FC" (F32.of_int 3)
             (CaffeMap_add "Relu" (F32.of_int 4) []))))
  = ["Conv"; "FC"; "Relu"].
Proof. reflexivity. Qed.

(** Construction stops at the first definition the factory rejects. *)
Example SimpleNet_new_unknown_type :
  SimpleNet_new Demo.NetBase_new Demo.CreateOperator
    {| NetDef.name := "bad";
       NetDef.op := [Demo.def "a" "Relu" None; Demo.def "b" "Unknown" None];
       NetDef.device_option := None |}
  = Threw (CannotCreateOperator 1).
Proof. reflexivity. Qed.

(** Two warm-up runs, three main runs and individual runs with the [k]-th
    timer reading equal to [k + 1] ms: the main runs read 1 ms, operator 0
    reads 2, 4 and 6 ms, operator 1 reads 3, 5 and 7 ms. *)
Example TEST_Benchmark_2_3_true :
  value (TEST_Benchmark Demo.elapsed_ms Demo.sort_stable Demo.no_schema
           Demo.net_ok_2 2 3 true Demo.start)
  = Returned [F32.div (F32.of_int 1) (F32.of_int 3);
              F32.of_int 4; F32.of_int 5].
Proof. vm_compute. reflexivity. Qed.

(** A failing operator in a main run makes the benchmark throw after that
    operator, with the diagnostic of [Run] logged. *)
Example TEST_Benchmark_failing_operator :
  value (TEST_Benchmark Demo.elapsed_ms Demo.sort_stable Demo.no_schema
           Demo.net_fail_2_of_3 0 1 true Demo.start)
  = Threw (MainRunFailed 0) /\
  invoked (log (TEST_Benchmark Demo.elapsed_ms Demo.sort_stable
                  Demo.no_schema Demo.net_fail_2_of_3 0 1 true Demo.start))
  = [0; 1]%nat.
Proof. split; vm_compute; reflexivity. Qed.

(** The embedded [std::sort] on an input that takes the heap-sort path:
    the order of the positions is the one the compiled routine gives, equal
    values included ([43] before [12], both of value [-6]). *)
Example libstdcxx_sort_heap_path :
  option_map (map fst)
    (libstdcxx.sort (0%nat, 0%Z) (fun x y => (snd y <? snd x)%Z)
       (combine (seq 0 76) Demo.killer_76))
  = Some Demo.killer_76_sorted.
Proof. vm_compute. reflexivity. Qed.

(** * Further properties of the code *)

(** ** More on Run *)

Section RunMoreFacts.
Context {Workspace : Type}.
Implicit Types (ops : list (OperatorBase.t Workspace)) (s : world Workspace).

Lemma yields_call_Run idx (o : OperatorBase.t Workspace) s :
  yields (call_Run idx o) s (fst (OperatorBase.Run o (workspace s)))
    {| workspace := snd (OperatorBase.Run o (workspace s));
       timer_reads := timer_reads s |}
    [OperatorRun idx (fst (OperatorBase.Run o (workspace s)))].
Proof. reflexivity. Qed.

(** Either all operators succeed in turn, or there is a first one that
    fails. *)
Lemma first_failure_exists ops :
  forall (w : Workspace),
    succeed_in_sequence ops w \/
    exists k o,
      nth_error ops k = Some o /\
      succeed_in_sequence (firstn k ops) w /\
      fst (OperatorBase.Run o (effects (firstn k ops) w)) = false.
Proof.
  induction ops as [|o rest IH]; intros w.
  - left. exact I.
  - destruct (fst (OperatorBase.Run o w)) eqn:Ho.
    + destruct (IH (snd (OperatorBase.Run o w)))
        as [Hs | [k [o' [Hnth [Hs Hf]]]]].
      * left. split; assumption.
      * right. exists (S k), o'. cbn [nth_error firstn succeed_in_sequence].
        repeat split; assumption.
    + right. exists 0%nat, o. repeat split. exact Ho.
Qed.

Lemma yields_Run_loop_first_failure net_def ops :
  forall idx s k o,
    nth_error ops k = Some o ->
    succeed_in_sequence (firstn k ops) (workspace s) ->
    fst (OperatorBase.Run o (effects (firstn k ops) (workspace s))) = false ->
    yields (Run_loop net_def idx ops) s false
      {| workspace :=
           snd (OperatorBase.Run o (effects (firstn k ops) (workspace s)));
         timer_reads := timer_reads s |}
      (successful_runs idx k
       ++ [OperatorRun (idx + k) false;
           LogError_OperatorFailed (debug_def net_def o)]).
Proof.
  induction ops as [|o' rest IH]; intros idx s k o Hnth Hs Hf.
  - destruct k; discriminate Hnth.
  - destruct k as [|k]; cbn [nth_error firstn] in *.
    + injection Hnth as ->. cbn [effects fold_left] in *.
      cbn [Run_loop successful_runs seq map app].
      rewrite Nat.add_0_r.
      eapply (yields_bind _ _ s false _ [OperatorRun idx false] false _
                [LogError_OperatorFailed (debug_def net_def o)]).
      * pose proof (yields_call_Run idx o s) as H. rewrite Hf in H. exact H.
      * cbn [negb].
        eapply (yields_bind _ _ _ tt _ [_] false _ []);
          [apply yields_emit|apply yields_ret].
    + destruct Hs as [Ho' Hrest]. cbn [effects fold_left] in Hf.
      cbn [Run_loop]. rewrite successful_runs_S.
      replace (idx + S k)%nat with (S idx + k)%nat by lia.
      eapply (yields_bind _ _ s true _ [OperatorRun idx true] false _ _).
      * pose proof (yields_call_Run idx o' s) as H. rewrite Ho' in H. exact H.
      * cbn [negb].
        apply (IH (S idx)
                 {| workspace := snd (OperatorBase.Run o' (workspace s));
                    timer_reads := timer_reads s |} k o Hnth Hrest Hf).
Qed.

(** X1: [Run] returns [true] exactly when every operator succeeds when its
    turn comes; the workspace is then the one the operators leave one after
    the other.  It never reads the timer. *)
Theorem Run_true_iff (net : SimpleNet Workspace) s :
  (value (Run net s) = Returned true <->
   succeed_in_sequence (operators_ net) (workspace s)) /\
  (value (Run net s) = Returned true ->
   workspace (after (Run net s)) = effects (operators_ net) (workspace s)) /\
  timer_reads (after (Run net s)) = timer_reads s.
Proof.
  destruct (Run_cases net s) as [H | [k [o [Hnth [Hfail H]]]]]; rewrite H;
    cbn [value after workspace timer_reads].
  - split; [|split; reflexivity].
    split; [|reflexivity]. intros _.
    destruct (first_failure_exists (operators_ net) (workspace s))
      as [Hs | [k [o [Hnth [Hs Hf]]]]]; [exact Hs|].
    pose proof (yields_Run_loop_first_failure (net_def_ net) _ 0%nat s k o
                  Hnth Hs Hf) as Y.
    assert (V : value (Run net s) = Returned false).
    { unfold Run, StartAllObservers.
      erewrite (bind_Returned _ _ s tt) by reflexivity. cbn [value].
      erewrite (bind_Returned _ _ _ false)
        by (cbn [emit after]; rewrite Y; reflexivity).
      reflexivity. }
    rewrite H in V. discriminate V.
  - split; [|split; [discriminate|reflexivity]].
    split; [discriminate|]. intros Hs.
    rewrite (succeed_in_sequence_nth _ _ k o Hs Hnth) in Hfail.
    discriminate Hfail.
Qed.

(** X2: When [Run] returns [false], it has stopped at the first operator that
    fails in turn: the operators before it have succeeded and are the only
    other ones invoked, the failing operator has left its effect, and the last
    event is the error log with the definition of that operator. *)
Theorem Run_stops_at_first_failure (net : SimpleNet Workspace) s :
  value (Run net s) = Returned false ->
  exists k o,
    nth_error (operators_ net) k = Some o /\
    succeed_in_sequence (firstn k (operators_ net)) (workspace s) /\
    fst (OperatorBase.Run o
           (effects (firstn k (operators_ net)) (workspace s))) = false /\
    log (Run net s) =
      ObserverStart :: successful_runs 0 k
      ++ [OperatorRun k false;
          LogError_OperatorFailed (debug_def (net_def_ net) o)] /\
    workspace (after (Run net s)) =
      snd (OperatorBase.Run o
             (effects (firstn k (operators_ net)) (workspace s))).
Proof.
  intros V.
  destruct (first_failure_exists (operators_ net) (workspace s))
    as [Hs | [k [o [Hnth [Hs Hf]]]]].
  - rewrite (Run_sequence_eq net s Hs) in V. discriminate V.
  - exists k, o. split; [exact Hnth|]. split; [exact Hs|]. split; [exact Hf|].
    pose proof (yields_Run_loop_first_failure (net_def_ net) _ 0%nat s k o
                  Hnth Hs Hf) as Y.
    assert (R : yields (Run net) s false
                  {| workspace :=
                       snd (OperatorBase.Run o
                              (effects (firstn k (operators_ net))
                                 (workspace s)));
                     timer_reads := timer_reads s |}
                  ([ObserverStart]
                   ++ (successful_runs 0 k
                       ++ [OperatorRun (0 + k) false;
                           LogError_OperatorFailed
                             (debug_def (net_def_ net) o)]) ++ [])).
    { unfold Run, StartAllObservers.
      eapply yields_bind; [apply yields_emit|].
      eapply yields_bind; [exact Y|]. apply yields_ret. }
    unfold yields in R. rewrite R. cbn [log after workspace].
    rewrite app_nil_r. split; reflexivity.
Qed.

End RunMoreFacts.

(** ** More on construction *)

Section ConstructionMoreFacts.
Context {Workspace : Type}.
Variable NetBase_new : NetDef.t -> option string.
Variable CreateOperator :
  OperatorDef.t -> nat -> option (OperatorBase.t Workspace).

Lemma SimpleNet_loop_cases net_def :
  forall todo idx acc,
    (exists out,
       SimpleNet_loop CreateOperator net_def todo idx acc = Returned out /\
       forall j, (idx <= j < idx + todo)%nat ->
         CreateOperator
           (handed_def net_def (nth j (NetDef.op net_def) OperatorDef.empty)) j
         <> None)
    \/ (exists i,
          (idx <= i < idx + todo)%nat /\
          SimpleNet_loop CreateOperator net_def todo idx acc
          = Threw (CannotCreateOperator i) /\
          CreateOperator
            (handed_def net_def (nth i (NetDef.op net_def) OperatorDef.empty)) i
          = None /\
          forall j, (idx <= j < i)%nat ->
            CreateOperator
              (handed_def net_def
                 (nth j (NetDef.op net_def) OperatorDef.empty)) j
            <> None).
Proof.
  induction todo as [|todo IH]; intros idx acc; cbn [SimpleNet_loop].
  - left. exists acc. split; [reflexivity|]. intros j Hj. lia.
  - set (d := nth idx (NetDef.op net_def) OperatorDef.empty).
    assert (Hc : forall o,
               (if negb (OperatorDef.has_device_option d)
                   && NetDef.has_device_option net_def
                then CreateOperator
                       (OperatorDef.set_device_option d
                          (NetDef.get_device_option net_def)) idx
                else match CreateOperator d idx with
                     | Some o0 =>
                         Some (OperatorBase.set_debug_def o0 (NetDefOp idx))
                     | None => None
                     end) = o ->
               (o = None <-> CreateOperator (handed_def net_def d) idx = None)).
    { intros o <-.
      unfold handed_def, OperatorDef.has_device_option,
        NetDef.has_device_option, NetDef.get_device_option.
      destruct (OperatorDef.device_option d), (NetDef.device_option net_def);
        cbn [negb andb]; try tauto;
        destruct (CreateOperator d idx); split; congruence. }
    match goal with
    | |- context [match ?c with Some _ => _ | None => _ end] =>
        destruct c as [o|] eqn:Hcreated
    end.
    + specialize (Hc (Some o) eq_refl).
      destruct (IH (S idx) (acc ++ [o]))
        as [[out [Hout Hacc]] | [i [Hi [Hthrew [Hrej Hacc]]]]].
      * left. exists out. split; [exact Hout|]. intros j Hj.
        destruct (Nat.eq_dec j idx) as [->|Hne].
        -- fold d. intros Hn. apply Hc in Hn. discriminate Hn.
        -- apply Hacc. lia.
      * right. exists i. split; [lia|]. split; [exact Hthrew|].
        split; [exact Hrej|]. intros j Hj.
        destruct (Nat.eq_dec j idx) as [->|Hne].
        -- fold d. intros Hn. apply Hc in Hn. discriminate Hn.
        -- apply Hacc. lia.
    + specialize (Hc None eq_refl).
      right. exists idx. split; [lia|]. split; [reflexivity|].
      split; [apply Hc; reflexivity|]. intros j Hj. lia.
Qed.

(** X3: The constructor first constructs the base class; when that throws,
    the exception leaves the constructor.  Otherwise it builds the net exactly
    when the factory makes an operator from the definition handed to it at
    every position, and throws at the first position whose definition the
    factory rejects. *)
Theorem SimpleNet_new_outcome (net_def : NetDef.t) :
  ((exists net, SimpleNet_new NetBase_new CreateOperator net_def = Returned net)
   <->
   NetBase_new net_def <> None /\
   (forall idx d, nth_error (NetDef.op net_def) idx = Some d ->
      CreateOperator (handed_def net_def d) idx <> None)) /\
  (SimpleNet_new NetBase_new CreateOperator net_def = Threw NetBaseFailed <->
   NetBase_new net_def = None) /\
  (forall idx,
     SimpleNet_new NetBase_new CreateOperator net_def
     = Threw (CannotCreateOperator idx)
     <->
     NetBase_new net_def <> None /\
     (exists d, nth_error (NetDef.op net_def) idx = Some d /\
                CreateOperator (handed_def net_def d) idx = None) /\
     (forall j d, (j < idx)%nat -> nth_error (NetDef.op net_def) j = Some d ->
        CreateOperator (handed_def net_def d) j <> None)) /\
  (forall net,
     SimpleNet_new NetBase_new CreateOperator net_def = Returned net ->
     NetBase_new net_def = Some (name_ net)).
Proof.
  assert (Hnth : forall j d, nth_error (NetDef.op net_def) j = Some d ->
                   nth j (NetDef.op net_def) OperatorDef.empty = d)
    by (intros j d H; apply nth_error_nth; exact H).
  assert (Hlt : forall j, (j < NetDef.op_size net_def)%nat ->
                  exists d, nth_error (NetDef.op net_def) j = Some d).
  { intros j Hj. destruct (nth_error (NetDef.op net_def) j) eqn:E; [eauto|].
    apply nth_error_None in E. unfold NetDef.op_size in Hj. lia. }
  assert (Hsome : forall j d, nth_error (NetDef.op net_def) j = Some d ->
                    (j < NetDef.op_size net_def)%nat).
  { intros j d H. unfold NetDef.op_size. apply nth_error_Some. congruence. }
  unfold SimpleNet_new.
  destruct (NetBase_new net_def) as [name|].
  2:{ split; [|split; [|split]].
      - split; [intros [net H]; discriminate H|]. intros [H _]. congruence.
      - split; reflexivity.
      - intros idx. split; [discriminate|]. intros [H _]. congruence.
      - intros net H. discriminate H. }
  assert (Hname : Some name <> (None : option string)) by discriminate.
  destruct (SimpleNet_loop_cases net_def (NetDef.op_size net_def) 0 [])
    as [[out [Hout Hacc]] | [i [Hi [Hthrew [Hrej Hacc]]]]].
  - rewrite Hout. split; [|split; [|split]].
    + split; [|eauto]. intros _. split; [exact Hname|]. intros idx d Hd.
      rewrite <- (Hnth idx d Hd). apply Hacc. specialize (Hsome idx d Hd). lia.
    + split; discriminate.
    + intros idx. split; [discriminate|].
      intros [_ [[d [Hd Hn]] _]]. exfalso.
      rewrite <- (Hnth idx d Hd) in Hn. revert Hn. apply Hacc.
      specialize (Hsome idx d Hd). lia.
    + intros net H. injection H as <-. reflexivity.
  - rewrite Hthrew. destruct (Hlt i) as [di Hdi]; [lia|].
    rewrite (Hnth i di Hdi) in Hrej. split; [|split; [|split]].
    + split; [intros [net H]; discriminate H|].
      intros [_ Hall]. exfalso. exact (Hall i di Hdi Hrej).
    + split; discriminate.
    + intros idx. split.
      * intros H. injection H as <-. split; [exact Hname|]. split; [eauto|].
        intros j d Hj Hd. rewrite <- (Hnth j d Hd). apply Hacc. lia.
      * intros [_ [[d [Hd Hn]] Hbefore]].
        destruct (Nat.lt_trichotomy i idx) as [Hlti | [-> | Hgt]].
        -- exfalso. exact (Hbefore i di Hlti Hdi Hrej).
        -- reflexivity.
        -- exfalso. rewrite <- (Hnth idx d Hd) in Hn. revert Hn.
           apply Hacc. lia.
    + intros net H. discriminate H.
Qed.

End ConstructionMoreFacts.

(** ** The comparison of the report *)

(** X4: [PairLargerThan] is irreflexive, asymmetric and transitive on all entries;
    being incomparable is transitive through an entry whose value is not a
    NaN, which makes [PairLargerThan] the strict weak order [std::sort] asks
    for on entries without NaN.  Through a NaN, which is incomparable to
    everything, it is not. *)
Theorem PairLargerThan_strict_weak_order (A : Type) :
  (forall x : A * F32.t, PairLargerThan x x = false) /\
  (forall x y : A * F32.t,
     PairLargerThan x y = true -> PairLargerThan y x = false) /\
  (forall x y z : A * F32.t,
     PairLargerThan x y = true -> PairLargerThan y z = true ->
     PairLargerThan x z = true) /\
  (forall x y z : A * F32.t,
     is_nan (snd y) = false ->
     PairLargerThan x y = false -> PairLargerThan y x = false ->
     PairLargerThan y z = false -> PairLargerThan z y = false ->
     PairLargerThan x z = false /\ PairLargerThan z x = false) /\
  (forall a : A,
     PairLargerThan (a, F32.of_int 1) (a, S754_nan) = false /\
     PairLargerThan (a, S754_nan) (a, F32.of_int 1) = false /\
     PairLargerThan (a, S754_nan) (a, F32.of_int 2) = false /\
     PairLargerThan (a, F32.of_int 2) (a, S754_nan) = false /\
     PairLargerThan (a, F32.of_int 2) (a, F32.of_int 1) = true).
Proof.
  unfold PairLargerThan, F32.gtb.
  split; [|split; [|split; [|split]]].
  - intros x. apply not_true_is_false. intros H.
    pose proof (SFltb_asym _ _ H). congruence.
  - intros x y. apply SFltb_asym.
  - intros x y z Hxy Hyz.
    destruct (SFltb_not_nan _ _ Hxy) as [_ Hx].
    destruct (SFltb_cotrans _ _ (snd x) Hx Hyz) as [K|K]; [exact K|].
    apply SFltb_asym in K. congruence.
  - intros x y z Hy H1 H2 H3 H4. split; apply not_true_is_false; intros H.
    + destruct (SFltb_cotrans _ _ (snd y) Hy H) as [K|K]; congruence.
    + destruct (SFltb_cotrans _ _ (snd y) Hy H) as [K|K]; congruence.
  - intros a. repeat split.
Qed.

(** ** More on TEST_Benchmark: runs that succeed up to some point *)

Lemma yields_of_value {Workspace A} (m : M Workspace A) (s : world Workspace)
  (a : A) :
  value (m s) = Returned a -> yields m s a (after (m s)) (log (m s)).
Proof. unfold yields. destruct (m s) as [v s' l]. cbn. intros ->. reflexivity. Qed.

Lemma yields_bind_inv {Workspace A B} (m : M Workspace A)
  (f : A -> M Workspace B) (s : world Workspace) b s' l :
  yields (bind m f) s b s' l ->
  exists a s1 l1 l2,
    yields m s a s1 l1 /\ yields (f a) s1 b s' l2 /\ l = l1 ++ l2.
Proof.
  unfold yields, bind. destruct (m s) as [v s1 l1]. cbn [value after log].
  destruct v as [a|e]; [|discriminate].
  destruct (f a s1) as [v2 s2 l2] eqn:Hf. cbn [value after log].
  intros H. injection H as -> -> <-.
  exists a, s1, l1, l2. rewrite Hf. repeat split.
Qed.

Lemma passes_succeed_add {Workspace} (ops : list (OperatorBase.t Workspace)) :
  forall a b w,
    passes_succeed ops (a + b) w <->
    passes_succeed ops a w /\ passes_succeed ops b (after_passes ops a w).
Proof.
  induction a as [|a IH]; intros b w; cbn [Nat.add passes_succeed after_passes].
  - tauto.
  - rewrite IH. tauto.
Qed.

Lemma after_passes_add {Workspace} (ops : list (OperatorBase.t Workspace)) :
  forall a b w,
    after_passes ops (a + b) w = after_passes ops b (after_passes ops a w).
Proof.
  induction a as [|a IH]; intros b w; cbn [Nat.add after_passes];
    [reflexivity|apply IH].
Qed.

Lemma all_succeed_passes {Workspace} (ops : list (OperatorBase.t Workspace)) :
  Forall always_succeeds ops -> forall n w, passes_succeed ops n w.
Proof.
  intros Hall. induction n as [|n IH]; intros w; cbn [passes_succeed].
  - exact I.
  - split; [apply all_succeed_in_sequence; exact Hall|apply IH].
Qed.

Lemma operator_events_app (l1 l2 : list event) :
  operator_events (l1 ++ l2) = operator_events l1 ++ operator_events l2.
Proof. apply filter_app. Qed.

Lemma operator_events_successful_runs (idx n : nat) :
  operator_events (successful_runs idx n) = successful_runs idx n.
Proof.
  unfold operator_events, successful_runs. revert idx.
  induction n as [|n IH]; intros idx; cbn [seq map filter is_operator_event];
    [reflexivity|]. f_equal. apply IH.
Qed.

Lemma operator_events_pass_log (n : nat) :
  operator_events (pass_log n) = successful_runs 0 n.
Proof.
  unfold pass_log.
  change (ObserverStart :: ?l) with ([ObserverStart] ++ l).
  rewrite !operator_events_app, operator_events_successful_runs.
  cbn. apply app_nil_r.
Qed.

Lemma operator_events_concat_repeat (l : list event) (n : nat) :
  operator_events (List.concat (repeat l n))
  = List.concat (repeat (operator_events l) n).
Proof.
  induction n as [|n IH]; cbn [repeat List.concat]; [reflexivity|].
  rewrite operator_events_app, IH. reflexivity.
Qed.

Section BenchmarkPathFacts.
Context {Workspace : Type}.
Variable elapsed_ms : nat -> F32.t.
Variable std_sort :
  (string * F32.t -> string * F32.t -> bool) ->
  list (string * F32.t) -> list (string * F32.t).
Variable Schema_InferCost :
  string -> option (OperatorDef.t -> list TensorShape -> Cost).
Implicit Types (net : SimpleNet Workspace) (s : world Workspace)
  (ops : list (OperatorBase.t Workspace)).

Lemma yields_Run_sequence net s :
  succeed_in_sequence (operators_ net) (workspace s) ->
  yields (Run net) s true
    {| workspace := effects (operators_ net) (workspace s);
       timer_reads := timer_reads s |}
    (pass_log (List.length (operators_ net))).
Proof. intros Hs. apply Run_sequence_eq. exact Hs. Qed.

Lemma yields_Run_failure net s :
  ~ succeed_in_sequence (operators_ net) (workspace s) ->
  yields (Run net) s false (after (Run net s)) (log (Run net s)).
Proof.
  intros Hn. apply yields_of_value.
  destruct (Run_cases net s) as [H | [k [o [Hnth [Hfail H]]]]]; rewrite H;
    cbn [value]; [|reflexivity].
  exfalso. apply Hn.
  destruct (first_failure_exists (operators_ net) (workspace s))
    as [Hs | [k [o [Hnth [Hs Hf]]]]]; [exact Hs|].
  pose proof (yields_Run_loop_first_failure (net_def_ net) _ 0%nat s k o
                Hnth Hs Hf) as Y.
  assert (V : value (Run net s) = Returned false).
  { unfold Run, StartAllObservers.
    erewrite (bind_Returned _ _ s tt) by reflexivity. cbn [value].
    erewrite (bind_Returned _ _ _ false)
      by (cbn [emit after]; rewrite Y; reflexivity).
    reflexivity. }
  rewrite H in V. discriminate V.
Qed.

Lemma yields_enforced_runs_path net (failed : nat -> EnforceNotMet) :
  forall n first s,
    passes_succeed (operators_ net) n (workspace s) ->
    yields (for_loop n first
              (fun i (_ : unit) => r <- Run net ;; CAFFE_ENFORCE r (failed i))
              tt) s tt
      {| workspace := after_passes (operators_ net) n (workspace s);
         timer_reads := timer_reads s |}
      (List.concat (repeat (pass_log (List.length (operators_ net))) n)).
Proof.
  induction n as [|n IH]; intros first s Hp;
    cbn [for_loop repeat List.concat after_passes].
  - destruct s. apply yields_ret.
  - destruct Hp as [Hs Hp].
    eapply yields_bind;
      [|apply (IH (S first)
                 {| workspace := effects (operators_ net) (workspace s);
                    timer_reads := timer_reads s |} Hp)].
    rewrite <- (app_nil_r (pass_log _)).
    eapply yields_bind; [apply yields_Run_sequence; exact Hs|].
    apply yields_ret.
Qed.

Lemma throws_enforced_runs_path net (failed : nat -> EnforceNotMet) :
  forall n first s i,
    (i < n)%nat ->
    passes_succeed (operators_ net) i (workspace s) ->
    ~ succeed_in_sequence (operators_ net)
        (after_passes (operators_ net) i (workspace s)) ->
    exists s' l,
      throws (for_loop n first
                (fun i (_ : unit) =>
                   r <- Run net ;; CAFFE_ENFORCE r (failed i))
                tt) s (failed (first + i)%nat) s' l.
Proof.
  induction n as [|n IH]; intros first s i Hi Hp Hn; [lia|].
  cbn [for_loop]. destruct i as [|i].
  - cbn [after_passes] in Hn. rewrite Nat.add_0_r.
    eexists. eexists. apply throws_bind.
    eapply throws_after; [apply yields_Run_failure; exact Hn|reflexivity].
  - destruct Hp as [Hs Hp]. cbn [after_passes] in Hn.
    destruct (IH (S first)
                {| workspace := effects (operators_ net) (workspace s);
                   timer_reads := timer_reads s |} i)
      as [s' [l T]]; [lia|exact Hp|exact Hn|].
    replace (first + S i)%nat with (S first + i)%nat by lia.
    eexists. eexists. eapply throws_after; [|exact T].
    eapply yields_bind; [apply yields_Run_sequence; exact Hs|apply yields_ret].
Qed.

(** X5: When the warm-up run number [i] is the first run in which an operator
    fails, [TEST_Benchmark] throws the failure of warm-up run [i]. *)
Theorem TEST_Benchmark_warmup_failure net (warmup_runs main_runs : Z)
  (run_individual : bool) s (i : nat) :
  (i < Z.to_nat warmup_runs)%nat ->
  passes_succeed (operators_ net) i (workspace s) ->
  ~ succeed_in_sequence (operators_ net)
      (after_passes (operators_ net) i (workspace s)) ->
  value (TEST_Benchmark elapsed_ms std_sort Schema_InferCost net
           warmup_runs main_runs run_individual s)
  = Threw (WarmupRunFailed i).
Proof.
  intros Hi Hp Hn.
  destruct (throws_enforced_runs_path net WarmupRunFailed
              (Z.to_nat warmup_runs) 0%nat s i Hi Hp Hn) as [s' [l T]].
  assert (HW : 0 <= warmup_runs) by lia.
  pose proof (throws_TEST_Benchmark_warmup elapsed_ms std_sort
                Schema_InferCost net warmup_runs main_runs run_individual
                s _ s' l HW T) as T'.
  unfold throws in T'. rewrite T'. reflexivity.
Qed.

(** X6: When the warm-up runs succeed and the main run number [i] is the first
    run in which an operator fails, [TEST_Benchmark] throws the failure of
    main run [i]. *)
Theorem TEST_Benchmark_main_failure net (warmup_runs main_runs : Z)
  (run_individual : bool) s (i : nat) :
  0 <= warmup_runs ->
  (i < Z.to_nat main_runs)%nat ->
  passes_succeed (operators_ net) (Z.to_nat warmup_runs + i) (workspace s) ->
  ~ succeed_in_sequence (operators_ net)
      (after_passes (operators_ net) (Z.to_nat warmup_runs + i)
         (workspace s)) ->
  value (TEST_Benchmark elapsed_ms std_sort Schema_InferCost net
           warmup_runs main_runs run_individual s)
  = Threw (MainRunFailed i).
Proof.
  intros HW Hi Hp Hn.
  apply passes_succeed_add in Hp. destruct Hp as [Hpw Hpm].
  rewrite after_passes_add in Hn.
  pose proof (yields_enforced_runs_path net WarmupRunFailed
                (Z.to_nat warmup_runs) 0%nat s Hpw) as Y1.
  set (s1 := {| workspace :=
                  after_passes (operators_ net) (Z.to_nat warmup_runs)
                    (workspace s);
                timer_reads := timer_reads s |}) in *.
  destruct (throws_enforced_runs_path net MainRunFailed
              (Z.to_nat main_runs) 0%nat s1 i Hi Hpm Hn) as [s' [l T]].
  assert (T' : throws (TEST_Benchmark elapsed_ms std_sort Schema_InferCost
                         net warmup_runs main_runs run_individual) s
                 (MainRunFailed i) s'
                 ([LogInfo "Starting benchmark."]
                  ++ [LogInfo "Running warmup runs."] ++ []
                  ++ List.concat
                       (repeat (pass_log (List.length (operators_ net)))
                          (Z.to_nat warmup_runs))
                  ++ [LogInfo "Main runs."] ++ [] ++ l)).
  { unfold TEST_Benchmark.
    assert (HM : 0 <= main_runs) by lia.
    apply Z.leb_le in HW, HM. rewrite HW, HM. cbn [CAFFE_ENFORCE].
    eapply throws_after; [apply yields_emit|].
    eapply throws_after; [apply yields_emit|].
    eapply throws_after; [apply yields_ret|].
    eapply throws_after; [exact Y1|].
    eapply throws_after; [apply yields_emit|].
    eapply throws_after; [apply yields_ret|].
    apply throws_bind. exact T. }
  unfold throws in T'. rewrite T'. reflexivity.
Qed.

Lemma yields_gather_cost_any net_def (o : OperatorBase.t Workspace) op_type
  b s :
  exists b1, yields (gather_cost Schema_InferCost net_def o op_type b) s b1 s [].
Proof.
  destruct (yields_gather_cost Schema_InferCost net_def o op_type b s)
    as [b1 [H _]]. eauto.
Qed.

Lemma yields_cost_step net_def (i : nat) (o : OperatorBase.t Workspace)
  op_type b s :
  exists b1,
    yields (if Nat.eqb i 0
            then gather_cost Schema_InferCost net_def o op_type b
            else ret b) s b1 s [].
Proof.
  destruct (Nat.eqb i 0).
  - apply yields_gather_cost_any.
  - exists b. apply yields_ret.
Qed.

(** One timed pass in which every operator succeeds in turn. *)
Lemma yields_individual_loop_path net_def i ops :
  forall idx b s,
    succeed_in_sequence ops (workspace s) ->
    exists b' s' l,
      yields (individual_loop elapsed_ms Schema_InferCost net_def i idx ops b)
        s b' s' l /\
      workspace s' = effects ops (workspace s) /\
      timer_reads s' = (timer_reads s + List.length ops)%nat /\
      operator_events l = successful_runs idx (List.length ops).
Proof.
  induction ops as [|o rest IH]; intros idx b s Hs;
    cbn [individual_loop List.length effects fold_left].
  - exists b, s, []. split; [apply yields_ret|].
    repeat split. lia.
  - destruct Hs as [Ho Hrest].
    set (op_type := OperatorDef.type (debug_def net_def o)).
    destruct (yields_cost_step net_def i o op_type b s) as [b1 Hg].
    set (s1 := {| workspace := snd (OperatorBase.Run o (workspace s));
                  timer_reads := timer_reads s |}).
    set (s2 := {| workspace := workspace s1;
                  timer_reads := S (timer_reads s1) |}).
    set (spent := elapsed_ms (timer_reads s)).
    destruct (IH (S idx) (add_time idx op_type spent b1) s2 Hrest)
      as [b' [s' [l [Hy [Hw [Ht Hl]]]]]].
    exists b', s', ([] ++ [OperatorRun idx true] ++ [] ++ [] ++ l).
    split; [|split; [|split]].
    + eapply yields_bind; [exact Hg|].
      eapply (yields_bind _ _ s true s1).
      { pose proof (yields_call_Run idx o s) as H. rewrite Ho in H. exact H. }
      eapply (yields_bind _ _ s1 tt s1); [apply yields_ret|].
      eapply (yields_bind _ _ s1 spent s2); [reflexivity|].
      exact Hy.
    + rewrite Hw. reflexivity.
    + rewrite Ht. cbn [s2 s1 timer_reads]. lia.
    + cbn [app]. rewrite successful_runs_S. cbn [operator_events filter is_operator_event].
      f_equal. exact Hl.
Qed.

(** A timed pass in which the operator at [k] is the first to fail. *)
Lemma throws_individual_loop_path net_def i ops :
  forall idx b s k o,
    nth_error ops k = Some o ->
    succeed_in_sequence (firstn k ops) (workspace s) ->
    fst (OperatorBase.Run o (effects (firstn k ops) (workspace s))) = false ->
    exists s' l,
      throws (individual_loop elapsed_ms Schema_InferCost net_def i idx ops b)
        s (OperatorHasFailed (OperatorDef.name (debug_def net_def o))
             (OperatorDef.type (debug_def net_def o))) s' l.
Proof.
  induction ops as [|o' rest IH]; intros idx b s k o Hnth Hs Hf.
  - destruct k; discriminate Hnth.
  - cbn [individual_loop].
    set (op_type := OperatorDef.type (debug_def net_def o')).
    destruct (yields_cost_step net_def i o' op_type b s) as [b1 Hg].
    destruct k as [|k]; cbn [nth_error firstn] in *.
    + injection Hnth as ->. cbn [effects fold_left] in Hf.
      eexists. eexists.
      eapply throws_after; [exact Hg|].
      eapply throws_after.
      { pose proof (yields_call_Run idx o s) as H. rewrite Hf in H. exact H. }
      apply throws_bind. reflexivity.
    + destruct Hs as [Ho' Hrest]. cbn [effects fold_left] in Hf.
      set (s1 := {| workspace := snd (OperatorBase.Run o' (workspace s));
                    timer_reads := timer_reads s |}).
      set (s2 := {| workspace := workspace s1;
                    timer_reads := S (timer_reads s1) |}).
      destruct (IH (S idx)
                  (add_time idx op_type (elapsed_ms (timer_reads s)) b1)
                  s2 k o Hnth Hrest Hf) as [s' [l T]].
      eexists. eexists.
      eapply throws_after; [exact Hg|].
      eapply (throws_after _ _ s true s1).
      { pose proof (yields_call_Run idx o' s) as H. rewrite Ho' in H.
        exact H. }
      eapply (throws_after _ _ s1 tt s1); [apply yields_ret|].
      eapply (throws_after _ _ s1 (elapsed_ms (timer_reads s)) s2);
        [reflexivity|].
      exact T.
Qed.

Lemma yields_ResetEvent_loop_events (ops : list (OperatorBase.t Workspace)) :
  forall idx s,
    yields (ResetEvent_loop idx ops) s tt s
      (map OperatorResetEvent (seq idx (List.length ops))).
Proof.
  induction ops as [|o ops IH]; intros idx s;
    cbn [ResetEvent_loop List.length seq map].
  - apply yields_ret.
  - apply (yields_bind _ _ s tt s [OperatorResetEvent idx] tt s _);
      [apply yields_emit|apply IH].
Qed.

Lemma operator_events_resets (idx n : nat) :
  operator_events (map OperatorResetEvent (seq idx n))
  = map OperatorResetEvent (seq idx n).
Proof.
  unfold operator_events. revert idx.
  induction n as [|n IH]; intros idx; cbn [seq map filter is_operator_event];
    [reflexivity|]. f_equal. apply IH.
Qed.

(** The timed passes of the individual phase, all succeeding. *)
Lemma yields_individual_passes_path net :
  forall n i0 b s,
    passes_succeed (operators_ net) n (workspace s) ->
    exists b' s' l,
      yields (for_loop n i0
                (fun i b0 =>
                   ResetEvent_loop 0 (operators_ net) ;;;
                   individual_loop elapsed_ms Schema_InferCost (net_def_ net)
                     i 0 (operators_ net) b0) b) s b' s' l /\
      workspace s' = after_passes (operators_ net) n (workspace s) /\
      timer_reads s' =
        (timer_reads s + n * List.length (operators_ net))%nat /\
      operator_events l =
        List.concat
          (repeat (reset_events (List.length (operators_ net))
                   ++ successful_runs 0 (List.length (operators_ net))) n).
Proof.
  induction n as [|n IH]; intros i0 b s Hp;
    cbn [for_loop after_passes repeat List.concat].
  - exists b, s, []. split; [apply yields_ret|]. repeat split. lia.
  - destruct Hp as [Hs Hp].
    destruct (yields_individual_loop_path (net_def_ net) i0 (operators_ net)
                0%nat b s Hs) as [b1 [s1 [l1 [Hy [Hw [Ht Hl]]]]]].
    rewrite <- Hw in Hp.
    destruct (IH (S i0) b1 s1 Hp) as [b' [s' [l [Hy' [Hw' [Ht' Hl']]]]]].
    exists b', s'. eexists. split; [|split; [|split]].
    + eapply yields_bind; [|exact Hy'].
      eapply yields_bind; [apply yields_ResetEvent_loop_events|exact Hy].
    + rewrite Hw', Hw. reflexivity.
    + rewrite Ht', Ht. lia.
    + rewrite !operator_events_app, operator_events_resets, Hl, Hl'.
      unfold reset_events. rewrite <- app_assoc. reflexivity.
Qed.

(** The individual phase when the pass number [i] is the first in which an
    operator, the one at [k], fails. *)
Lemma throws_individual_passes_path net :
  forall n i0 b s i k o,
    (i < n)%nat ->
    passes_succeed (operators_ net) i (workspace s) ->
    nth_error (operators_ net) k = Some o ->
    succeed_in_sequence (firstn k (operators_ net))
      (after_passes (operators_ net) i (workspace s)) ->
    fst (OperatorBase.Run o
           (effects (firstn k (operators_ net))
              (after_passes (operators_ net) i (workspace s)))) = false ->
    exists s' l,
      throws (for_loop n i0
                (fun i b0 =>
                   ResetEvent_loop 0 (operators_ net) ;;;
                   individual_loop elapsed_ms Schema_InferCost (net_def_ net)
                     i 0 (operators_ net) b0) b) s
        (OperatorHasFailed
           (OperatorDef.name (debug_def (net_def_ net) o))
           (OperatorDef.type (debug_def (net_def_ net) o))) s' l.
Proof.
  induction n as [|n IH]; intros i0 b s i k o Hi Hp Hnth Hs Hf; [lia|].
  cbn [for_loop]. destruct i as [|i]; cbn [after_passes] in *.
  - destruct (throws_individual_loop_path (net_def_ net) i0 (operators_ net)
                0%nat b s k o Hnth Hs Hf) as [s' [l T]].
    eexists. eexists. apply throws_bind.
    eapply throws_after; [apply yields_ResetEvent_loop_events|exact T].
  - destruct Hp as [Hs0 Hp].
    destruct (yields_individual_loop_path (net_def_ net) i0 (operators_ net)
                0%nat b s Hs0) as [b1 [s1 [l1 [Hy [Hw [Ht Hl]]]]]].
    rewrite <- Hw in Hp, Hs, Hf.
    destruct (IH (S i0) b1 s1 i k o) as [s' [l T]];
      [lia|exact Hp|exact Hnth|exact Hs|exact Hf|].
    eexists. eexists. eapply throws_after; [|exact T].
    eapply yields_bind; [apply yields_ResetEvent_loop_events|exact Hy].
Qed.

Lemma operator_events_none (l : list event) :
  Forall (fun e => is_operator_event e = false) l -> operator_events l = [].
Proof.
  unfold operator_events. induction 1 as [|e l He _ IH]; cbn [filter];
    [reflexivity|]. rewrite He. exact IH.
Qed.

Lemma yields_operator_lines_quiet net_def main_runs b ops :
  forall idx s,
  exists l,
    yields (operator_lines net_def main_runs b idx ops) s tt s l /\
    operator_events l = [].
Proof.
  induction ops as [|o ops IH]; intros idx s; cbn [operator_lines].
  - exists []. split; [apply yields_ret|reflexivity].
  - destruct (IH (S idx) s) as [l [Hl He]]. eexists. split.
    + eapply yields_bind; [apply yields_emit|exact Hl].
    + rewrite operator_events_app, He. reflexivity.
Qed.

Lemma operator_events_metric_report metric normalizer unit item :
  operator_events (metric_report std_sort metric normalizer unit item) = [].
Proof.
  apply operator_events_none. unfold metric_report.
  constructor; [reflexivity|]. apply Forall_app. split.
  - apply Forall_map. apply Forall_forall. intros x _. reflexivity.
  - constructor; [reflexivity|constructor].
Qed.

Lemma yields_run_individual_part_path net (main_runs : Z) b s :
  passes_succeed (operators_ net) (Z.to_nat main_runs) (workspace s) ->
  exists b' s' l,
    yields (run_individual_part elapsed_ms std_sort Schema_InferCost net
              main_runs b) s b' s' l /\
    workspace s' =
      after_passes (operators_ net) (Z.to_nat main_runs) (workspace s) /\
    timer_reads s' =
      (timer_reads s + Z.to_nat main_runs * List.length (operators_ net))%nat /\
    operator_events l =
      List.concat
        (repeat (reset_events (List.length (operators_ net))
                 ++ successful_runs 0 (List.length (operators_ net)))
           (Z.to_nat main_runs)).
Proof.
  intros Hp.
  destruct (yields_individual_passes_path net (Z.to_nat main_runs) 0%nat b s
              Hp) as [b' [s' [l [Hy [Hw [Ht Hl]]]]]].
  destruct (yields_operator_lines_quiet (net_def_ net) main_runs b'
              (operators_ net) 0%nat s') as [l2 [Hy2 He2]].
  exists b', s'. eexists. split; [|split; [exact Hw|split; [exact Ht|]]].
  - unfold run_individual_part.
    eapply yields_bind; [exact Hy|].
    eapply yields_bind; [exact Hy2|].
    eapply yields_bind; [apply yields_type_report|].
    apply yields_ret.
  - rewrite !operator_events_app, Hl, He2, !operator_events_metric_report.
    cbn [app operator_events filter]. rewrite !app_nil_r. reflexivity.
Qed.

(** [TEST_Benchmark] when all the runs it makes succeed. *)
Lemma yields_TEST_Benchmark_path net (warmup_runs main_runs : Z)
  (run_individual : bool) s :
  0 <= warmup_runs -> 0 <= main_runs ->
  passes_succeed (operators_ net)
    (Z.to_nat warmup_runs + Z.to_nat main_runs
     + (if run_individual then Z.to_nat main_runs else 0))
    (workspace s) ->
  exists v s' l,
    yields (TEST_Benchmark elapsed_ms std_sort Schema_InferCost net
              warmup_runs main_runs run_individual) s v s' l /\
    workspace s' =
      after_passes (operators_ net)
        (Z.to_nat warmup_runs + Z.to_nat main_runs
         + (if run_individual then Z.to_nat main_runs else 0))
        (workspace s) /\
    timer_reads s' =
      (timer_reads s + 1
       + (if run_individual
          then Z.to_nat main_runs * List.length (operators_ net)
          else 0))%nat /\
    operator_events l =
      List.concat
        (repeat (successful_runs 0 (List.length (operators_ net)))
           (Z.to_nat warmup_runs + Z.to_nat main_runs))
      ++ (if run_individual
          then List.concat
                 (repeat (reset_events (List.length (operators_ net))
                          ++ successful_runs 0
                               (List.length (operators_ net)))
                    (Z.to_nat main_runs))
          else []).
Proof.
  intros HW HM Hp. set (N := List.length (operators_ net)) in *.
  apply passes_succeed_add in Hp. destruct Hp as [Hp Hpi].
  apply passes_succeed_add in Hp. destruct Hp as [Hpw Hpm].
  rewrite after_passes_add in Hpi. rewrite !after_passes_add.
  pose proof (yields_enforced_runs_path net WarmupRunFailed
                (Z.to_nat warmup_runs) 0%nat s Hpw) as Y1.
  set (w1 := after_passes (operators_ net) (Z.to_nat warmup_runs)
               (workspace s)) in *.
  set (s1 := {| workspace := w1; timer_reads := timer_reads s |}) in *.
  pose proof (yields_enforced_runs_path net MainRunFailed
                (Z.to_nat main_runs) 0%nat s1 Hpm) as Y2.
  cbn [s1 workspace timer_reads] in Y2.
  set (w2 := after_passes (operators_ net) (Z.to_nat main_runs) w1) in *.
  set (s2 := {| workspace := w2; timer_reads := timer_reads s |}) in *.
  set (s3 := {| workspace := w2; timer_reads := S (timer_reads s) |}).
  set (millis := elapsed_ms (timer_reads s)).
  assert (Hpart : exists b s4 l4,
            yields (if run_individual
                    then run_individual_part elapsed_ms std_sort
                           Schema_InferCost net main_runs (bench_init N)
                    else ret (bench_init N)) s3 b s4 l4 /\
            workspace s4 =
              after_passes (operators_ net)
                (if run_individual then Z.to_nat main_runs else 0) w2 /\
            timer_reads s4 =
              (S (timer_reads s)
               + (if run_individual then Z.to_nat main_runs * N else 0))%nat /\
            operator_events l4 =
              (if run_individual
               then List.concat
                      (repeat (reset_events N ++ successful_runs 0 N)
                         (Z.to_nat main_runs))
               else [])).
  { destruct run_individual.
    - apply (yields_run_individual_part_path net main_runs (bench_init N) s3).
      exact Hpi.
    - exists (bench_init N), s3, []. split; [apply yields_ret|].
      repeat split. cbn [s3 timer_reads]. lia. }
  destruct Hpart as [b [s4 [l4 [H4 [Hw4 [Ht4 He4]]]]]].
  eexists. exists s4. eexists. split; [|split; [exact Hw4|split]].
  - unfold TEST_Benchmark.
    apply Z.leb_le in HW, HM. rewrite HW, HM. cbn [CAFFE_ENFORCE].
    eapply yields_bind; [apply yields_emit|].
    eapply yields_bind; [apply yields_emit|].
    eapply yields_bind; [apply yields_ret|].
    eapply yields_bind; [exact Y1|].
    eapply yields_bind; [apply yields_emit|].
    eapply yields_bind; [apply yields_ret|].
    eapply yields_bind; [exact Y2|].
    eapply (yields_bind _ _ s2 millis s3); [reflexivity|].
    eapply yields_bind; [apply yields_emit|].
    eapply yields_bind; [exact H4|].
    apply yields_ret.
  - rewrite Ht4. lia.
  - rewrite !operator_events_app, !operator_events_concat_repeat,
      operator_events_pass_log, He4.
    cbn [operator_events filter is_operator_event app].
    rewrite app_nil_r, repeat_app, concat_app, <- app_assoc. reflexivity.
Qed.

(** X8: When every run succeeds, the operators are invoked in [warmup_runs +
    main_runs] passes in order and, with individual runs, in [main_runs] more
    passes, each of which first calls [ResetEvent] on every operator. *)
Theorem TEST_Benchmark_operator_events net (warmup_runs main_runs : Z)
  (run_individual : bool) s :
  0 <= warmup_runs -> 0 <= main_runs ->
  passes_succeed (operators_ net)
    (Z.to_nat warmup_runs + Z.to_nat main_runs
     + (if run_individual then Z.to_nat main_runs else 0))
    (workspace s) ->
  operator_events
    (log (TEST_Benchmark elapsed_ms std_sort Schema_InferCost net
            warmup_runs main_runs run_individual s))
  = List.concat
      (repeat (successful_runs 0 (List.length (operators_ net)))
         (Z.to_nat warmup_runs + Z.to_nat main_runs))
    ++ (if run_individual
        then List.concat
               (repeat (reset_events (List.length (operators_ net))
                        ++ successful_runs 0 (List.length (operators_ net)))
                  (Z.to_nat main_runs))
        else []).
Proof.
  intros HW HM Hp.
  destruct (yields_TEST_Benchmark_path net warmup_runs main_runs
              run_individual s HW HM Hp) as [v [s' [l [Y [_ [_ He]]]]]].
  unfold yields in Y. rewrite Y. exact He.
Qed.

(** X9: When every run succeeds, [TEST_Benchmark] leaves the workspace of
    [warmup_runs + main_runs] runs, and of [main_runs] more with individual
    runs, and has read the timer once, plus once per operator and individual
    pass. *)
Theorem TEST_Benchmark_world_after net (warmup_runs main_runs : Z)
  (run_individual : bool) s :
  0 <= warmup_runs -> 0 <= main_runs ->
  passes_succeed (operators_ net)
    (Z.to_nat warmup_runs + Z.to_nat main_runs
     + (if run_individual then Z.to_nat main_runs else 0))
    (workspace s) ->
  workspace (after (TEST_Benchmark elapsed_ms std_sort Schema_InferCost net
                      warmup_runs main_runs run_individual s))
  = after_passes (operators_ net)
      (Z.to_nat warmup_runs + Z.to_nat main_runs
       + (if run_individual then Z.to_nat main_runs else 0))
      (workspace s) /\
  timer_reads (after (TEST_Benchmark elapsed_ms std_sort Schema_InferCost net
                        warmup_runs main_runs run_individual s))
  = (timer_reads s + 1
     + (if run_individual
        then Z.to_nat main_runs * List.length (operators_ net)
        else 0))%nat.
Proof.
  intros HW HM Hp.
  destruct (yields_TEST_Benchmark_path net warmup_runs main_runs
              run_individual s HW HM Hp) as [v [s' [l [Y [Hw [Ht _]]]]]].
  unfold yields in Y. rewrite Y. split; [exact Hw|exact Ht].
Qed.

(** X7: When the warm-up and main runs succeed and, in the individual pass number
    [i], the operator at [k] is the first to fail, [TEST_Benchmark] throws the
    failure of that operator, with its name and type. *)
Theorem TEST_Benchmark_individual_failure net (warmup_runs main_runs : Z)
  s (i k : nat) (o : OperatorBase.t Workspace) :
  0 <= warmup_runs ->
  (i < Z.to_nat main_runs)%nat ->
  passes_succeed (operators_ net)
    (Z.to_nat warmup_runs + Z.to_nat main_runs + i) (workspace s) ->
  nth_error (operators_ net) k = Some o ->
  succeed_in_sequence (firstn k (operators_ net))
    (after_passes (operators_ net)
       (Z.to_nat warmup_runs + Z.to_nat main_runs + i) (workspace s)) ->
  fst (OperatorBase.Run o
         (effects (firstn k (operators_ net))
            (after_passes (operators_ net)
               (Z.to_nat warmup_runs + Z.to_nat main_runs + i)
               (workspace s)))) = false ->
  value (TEST_Benchmark elapsed_ms std_sort Schema_InferCost net
           warmup_runs main_runs true s)
  = Threw (OperatorHasFailed
             (OperatorDef.name (debug_def (net_def_ net) o))
             (OperatorDef.type (debug_def (net_def_ net) o))).
Proof.
  intros HW Hi Hp Hnth Hs Hf.
  assert (HM : 0 <= main_runs) by lia.
  apply passes_succeed_add in Hp. destruct Hp as [Hp Hpi].
  apply passes_succeed_add in Hp. destruct Hp as [Hpw Hpm].
  rewrite !after_passes_add in Hs. rewrite !after_passes_add in Hf.
  rewrite after_passes_add in Hpi.
  pose proof (yields_enforced_runs_path net WarmupRunFailed
                (Z.to_nat warmup_runs) 0%nat s Hpw) as Y1.
  set (w1 := after_passes (operators_ net) (Z.to_nat warmup_runs)
               (workspace s)) in *.
  set (s1 := {| workspace := w1; timer_reads := timer_reads s |}) in *.
  pose proof (yields_enforced_runs_path net MainRunFailed
                (Z.to_nat main_runs) 0%nat s1 Hpm) as Y2.
  cbn [s1 workspace timer_reads] in Y2.
  set (w2 := after_passes (operators_ net) (Z.to_nat main_runs) w1) in *.
  set (s2 := {| workspace := w2; timer_reads := timer_reads s |}) in *.
  set (s3 := {| workspace := w2; timer_reads := S (timer_reads s) |}).
  destruct (throws_individual_passes_path net (Z.to_nat main_runs) 0%nat
              (bench_init (List.length (operators_ net))) s3 i k o
              Hi Hpi Hnth Hs Hf) as [s' [l T]].
  assert (T' : exists l',
             throws (TEST_Benchmark elapsed_ms std_sort Schema_InferCost
                       net warmup_runs main_runs true) s
               (OperatorHasFailed
                  (OperatorDef.name (debug_def (net_def_ net) o))
                  (OperatorDef.type (debug_def (net_def_ net) o))) s' l').
  { eexists. unfold TEST_Benchmark.
    apply Z.leb_le in HW, HM. rewrite HW, HM. cbn [CAFFE_ENFORCE].
    eapply throws_after; [apply yields_emit|].
    eapply throws_after; [apply yields_emit|].
    eapply throws_after; [apply yields_ret|].
    eapply throws_after; [exact Y1|].
    eapply throws_after; [apply yields_emit|].
    eapply throws_after; [apply yields_ret|].
    eapply throws_after; [exact Y2|].
    eapply (throws_after _ _ s2 (elapsed_ms (timer_reads s)) s3);
      [reflexivity|].
    eapply throws_after; [apply yields_emit|].
    apply throws_bind. unfold run_individual_part.
    apply throws_bind. exact T. }
  destruct T' as [l' T']. unfold throws in T'. rewrite T'. reflexivity.
Qed.

End BenchmarkPathFacts.

(** ** What the individual phase accumulates *)

Lemma String_ltb_trans (a b c : string) :
  String.ltb a b = true -> String.ltb b c = true -> String.ltb a c = true.
Proof.
  unfold String.ltb.
  destruct (String.compare a b) eqn:Hab; try discriminate.
  destruct (String.compare b c) eqn:Hbc; try discriminate.
  intros _ _.
  apply String_as_OT.cmp_lt in Hab. apply String_as_OT.cmp_lt in Hbc.
  pose proof (String_as_OT.lt_trans _ _ _ Hab Hbc) as Hac.
  apply String_as_OT.cmp_lt in Hac.
  unfold String_as_OT.cmp in Hac. rewrite Hac. reflexivity.
Qed.

Lemma String_compare_Gt_ltb (a b : string) :
  String.compare a b = Gt -> String.ltb b a = true.
Proof.
  intros H. unfold String.ltb. rewrite String.compare_antisym, H. reflexivity.
Qed.

Lemma CaffeMap_add_keys_In (k : string) (v : F32.t) (m : CaffeMap) k0 :
  In k0 (map fst (CaffeMap_add k v m)) <-> k0 = k \/ In k0 (map fst m).
Proof.
  induction m as [|[k' x] m IH]; cbn [CaffeMap_add map fst In].
  - intuition.
  - destruct (String.compare k k') eqn:Hc; cbn [map fst In].
    + apply String.compare_eq_iff in Hc. subst k'. intuition.
    + intuition.
    + rewrite IH. intuition.
Qed.

Lemma CaffeMap_add_keys_increasing (k : string) (v : F32.t) (m : CaffeMap) :
  keys_increasing m -> keys_increasing (CaffeMap_add k v m).
Proof.
  unfold keys_increasing.
  induction m as [|[k' x] m IH]; intros Hm; cbn [CaffeMap_add map fst].
  - repeat constructor.
  - cbn [map fst] in Hm. inversion Hm as [|? ? Hrest Hall]; subst.
    destruct (String.compare k k') eqn:Hc; cbn [map fst].
    + exact Hm.
    + assert (Hlt : String.ltb k k' = true)
        by (unfold String.ltb; rewrite Hc; reflexivity).
      constructor; [exact Hm|]. constructor; [exact Hlt|].
      rewrite Forall_forall in Hall |- *. intros z Hz.
      apply (String_ltb_trans _ _ _ Hlt (Hall z Hz)).
    + constructor; [apply IH; exact Hrest|].
      rewrite Forall_forall in Hall |- *. intros z Hz.
      apply CaffeMap_add_keys_In in Hz. destruct Hz as [->|Hz].
      * apply String_compare_Gt_ltb. exact Hc.
      * apply Hall. exact Hz.
Qed.

Lemma yields_det {Workspace A} (m : M Workspace A) (s : world Workspace)
  a1 s1 l1 a2 s2 l2 :
  yields m s a1 s1 l1 -> yields m s a2 s2 l2 ->
  a1 = a2 /\ s1 = s2 /\ l1 = l2.
Proof.
  unfold yields. intros H1 H2. rewrite H1 in H2. injection H2 as -> -> ->.
  repeat split.
Qed.

Section BenchContents.
Context {Workspace : Type}.
Variable elapsed_ms : nat -> F32.t.
Variable std_sort :
  (string * F32.t -> string * F32.t -> bool) ->
  list (string * F32.t) -> list (string * F32.t).
Variable Schema_InferCost :
  string -> option (OperatorDef.t -> list TensorShape -> Cost).
Implicit Types (net : SimpleNet Workspace) (s : world Workspace)
  (ops : list (OperatorBase.t Workspace)).

(** One iteration of the timed loop, read backwards. *)
Lemma individual_loop_step_inv net_def i idx (o : OperatorBase.t Workspace)
  rest b s b' s' l :
  yields (individual_loop elapsed_ms Schema_InferCost net_def i idx
            (o :: rest) b) s b' s' l ->
  exists l2,
    fst (OperatorBase.Run o (workspace s)) = true /\
    yields (individual_loop elapsed_ms Schema_InferCost net_def i (S idx) rest
              (add_time idx (OperatorDef.type (debug_def net_def o))
                 (elapsed_ms (timer_reads s))
                 (if Nat.eqb i 0
                  then match Schema_InferCost
                               (OperatorDef.type (debug_def net_def o)) with
                       | Some InferCost =>
                           add_cost (OperatorDef.type (debug_def net_def o))
                             (InferCost (debug_def net_def o)
                                (OperatorBase.InputTensorShapes o
                                   (workspace s))) b
                       | None => b
                       end
                  else b)))
      {| workspace := snd (OperatorBase.Run o (workspace s));
         timer_reads := S (timer_reads s) |} b' s' l2.
Proof.
  cbn [individual_loop]. intros H.
  apply yields_bind_inv in H. destruct H as [b1 [s1 [l1 [l2 [Hg [H ->]]]]]].
  assert (Eg : b1 = (if Nat.eqb i 0
                     then match Schema_InferCost
                                  (OperatorDef.type (debug_def net_def o)) with
                          | Some InferCost =>
                              add_cost (OperatorDef.type (debug_def net_def o))
                                (InferCost (debug_def net_def o)
                                   (OperatorBase.InputTensorShapes o
                                      (workspace s))) b
                          | None => b
                          end
                     else b) /\ s1 = s).
  { unfold yields, gather_cost in Hg.
    destruct (Nat.eqb i 0);
      [destruct (Schema_InferCost (OperatorDef.type (debug_def net_def o)))|];
      cbn in Hg; injection Hg as <- <- _; split; reflexivity. }
  destruct Eg as [-> ->].
  apply yields_bind_inv in H. destruct H as [res [s2 [l3 [l4 [Hr [H ->]]]]]].
  unfold yields, call_Run in Hr. injection Hr as <- <- _.
  apply yields_bind_inv in H. destruct H as [u [s3 [l5 [l6 [He [H ->]]]]]].
  destruct (fst (OperatorBase.Run o (workspace s))) eqn:Hres;
    [|discriminate He].
  unfold yields in He. cbn in He. injection He as _ <- _.
  apply yields_bind_inv in H. destruct H as [spent [s4 [l7 [l8 [Ht [H ->]]]]]].
  unfold yields, Timer_MilliSeconds in Ht. cbn in Ht.
  injection Ht as <- <- _.
  exists l8. split; [reflexivity|exact H].
Qed.

(** The cost vectors after one timed pass: on the first pass ([i = 0]) they
    grow by the costs of the operators that have a cost function, on a later
    pass they do not change. *)
Lemma individual_loop_costs net_def i ops :
  forall idx b s b' s' l,
    yields (individual_loop elapsed_ms Schema_InferCost net_def i idx ops b)
      s b' s' l ->
    let costs := if Nat.eqb i 0
                 then costs_from Schema_InferCost net_def ops (workspace s)
                 else [] in
    flops_per_op b' = flops_per_op b ++ map flops costs /\
    memory_bytes_per_op b' = memory_bytes_per_op b ++ map bytes_moved costs /\
    param_bytes_per_op b' = param_bytes_per_op b ++ map params_bytes costs.
Proof.
  induction ops as [|o rest IH]; intros idx b s b' s' l H.
  - unfold yields in H. cbn in H. injection H as <- _ _.
    cbn [costs_from]. destruct (Nat.eqb i 0); cbn [map];
      rewrite !app_nil_r; repeat split.
  - apply individual_loop_step_inv in H. destruct H as [l2 [Ho H]].
    apply IH in H. cbn [workspace] in H. cbn zeta in *.
    destruct H as [H1 [H2 H3]]. rewrite H1, H2, H3.
    cbn [add_time flops_per_op memory_bytes_per_op param_bytes_per_op].
    cbn [costs_from].
    destruct (Nat.eqb i 0).
    + destruct (Schema_InferCost (OperatorDef.type (debug_def net_def o)));
        cbn [add_cost flops_per_op memory_bytes_per_op param_bytes_per_op
             map app];
        rewrite <- ?app_assoc; repeat split.
    + repeat split.
Qed.

(** The types that have a time after one timed pass. *)
Lemma individual_loop_keys net_def i ops :
  forall idx b s b' s' l,
    yields (individual_loop elapsed_ms Schema_InferCost net_def i idx ops b)
      s b' s' l ->
    (keys_increasing (time_per_op_type b) ->
     keys_increasing (time_per_op_type b')) /\
    (forall k,
       In k (map fst (time_per_op_type b')) <->
       In k (map fst (time_per_op_type b)) \/
       In k (map (fun o => OperatorDef.type (debug_def net_def o)) ops)).
Proof.
  induction ops as [|o rest IH]; intros idx b s b' s' l H.
  - unfold yields in H. cbn in H. injection H as <- _ _.
    split; [tauto|]. intros k. cbn [map In]. tauto.
  - apply individual_loop_step_inv in H. destruct H as [l2 [Ho H]].
    apply IH in H. destruct H as [Hinc Hin].
    assert (E : forall b0 : bench,
               time_per_op_type
                 (if Nat.eqb i 0
                  then match Schema_InferCost
                               (OperatorDef.type (debug_def net_def o)) with
                       | Some InferCost =>
                           add_cost (OperatorDef.type (debug_def net_def o))
                             (InferCost (debug_def net_def o)
                                (OperatorBase.InputTensorShapes o
                                   (workspace s))) b0
                       | None => b0
                       end
                  else b0) = time_per_op_type b0).
    { intros b0. destruct (Nat.eqb i 0);
        [destruct (Schema_InferCost _)|]; reflexivity. }
    cbn [add_time time_per_op_type] in Hinc, Hin. rewrite E in Hinc, Hin.
    split.
    + intros Hb. apply Hinc. apply CaffeMap_add_keys_increasing. exact Hb.
    + intros k. rewrite Hin, CaffeMap_add_keys_In. cbn [map In].
      intuition.
Qed.

(** Without any cost function the cost maps stay as they are. *)
Lemma individual_loop_no_schema net_def i ops :
  (forall ty, Schema_InferCost ty = None) ->
  forall idx b s b' s' l,
    yields (individual_loop elapsed_ms Schema_InferCost net_def i idx ops b)
      s b' s' l ->
    flops_per_op_type b' = flops_per_op_type b /\
    memory_bytes_per_op_type b' = memory_bytes_per_op_type b /\
    param_bytes_per_op_type b' = param_bytes_per_op_type b.
Proof.
  intros Hnone.
  induction ops as [|o rest IH]; intros idx b s b' s' l H.
  - unfold yields in H. cbn in H. injection H as <- _ _. repeat split.
  - apply individual_loop_step_inv in H. destruct H as [l2 [Ho H]].
    rewrite Hnone in H. apply IH in H.
    destruct (Nat.eqb i 0); exact H.
Qed.

Lemma individual_passes_step_inv net n i0 b s b' s' l :
  yields (for_loop (S n) i0
            (fun i b0 =>
               ResetEvent_loop 0 (operators_ net) ;;;
               individual_loop elapsed_ms Schema_InferCost (net_def_ net)
                 i 0 (operators_ net) b0) b) s b' s' l ->
  exists b1 s1 l1 l2,
    yields (individual_loop elapsed_ms Schema_InferCost (net_def_ net)
              i0 0 (operators_ net) b) s b1 s1 l1 /\
    yields (for_loop n (S i0)
              (fun i b0 =>
                 ResetEvent_loop 0 (operators_ net) ;;;
                 individual_loop elapsed_ms Schema_InferCost (net_def_ net)
                   i 0 (operators_ net) b0) b1) s1 b' s' l2.
Proof.
  cbn [for_loop]. intros H.
  apply yields_bind_inv in H. destruct H as [b1 [s1 [l1 [l2 [Hb [H ->]]]]]].
  apply yields_bind_inv in Hb. destruct Hb as [u [s0 [l3 [l4 [Hr [Hb ->]]]]]].
  destruct (yields_det _ _ _ _ _ _ _ _ Hr
              (yields_ResetEvent_loop_events (operators_ net) 0%nat s))
    as [_ [-> _]].
  exists b1, s1, l4, l2. split; assumption.
Qed.

Lemma individual_passes_costs_later net :
  forall n i0 b s b' s' l,
    (1 <= i0)%nat ->
    yields (for_loop n i0
              (fun i b0 =>
                 ResetEvent_loop 0 (operators_ net) ;;;
                 individual_loop elapsed_ms Schema_InferCost (net_def_ net)
                   i 0 (operators_ net) b0) b) s b' s' l ->
    flops_per_op b' = flops_per_op b /\
    memory_bytes_per_op b' = memory_bytes_per_op b /\
    param_bytes_per_op b' = param_bytes_per_op b.
Proof.
  induction n as [|n IH]; intros i0 b s b' s' l Hi H.
  - unfold yields in H. cbn in H. injection H as <- _ _. repeat split.
  - apply individual_passes_step_inv in H.
    destruct H as [b1 [s1 [l1 [l2 [H1 H2]]]]].
    apply IH in H2; [|lia]. apply individual_loop_costs in H1.
    replace (Nat.eqb i0 0) with false in H1
      by (symmetry; apply Nat.eqb_neq; lia).
    cbn [map] in H1. rewrite !app_nil_r in H1.
    destruct H1 as [A1 [A2 A3]], H2 as [B1 [B2 B3]].
    repeat split; congruence.
Qed.

Lemma individual_passes_keys net :
  forall n i0 b s b' s' l,
    yields (for_loop n i0
              (fun i b0 =>
                 ResetEvent_loop 0 (operators_ net) ;;;
                 individual_loop elapsed_ms Schema_InferCost (net_def_ net)
                   i 0 (operators_ net) b0) b) s b' s' l ->
    (keys_increasing (time_per_op_type b) ->
     keys_increasing (time_per_op_type b')) /\
    (forall k,
       In k (map fst (time_per_op_type b')) <->
       In k (map fst (time_per_op_type b)) \/
       (n <> 0%nat /\
        In k (map (fun o => OperatorDef.type (debug_def (net_def_ net) o))
                (operators_ net)))).
Proof.
  induction n as [|n IH]; intros i0 b s b' s' l H.
  - unfold yields in H. cbn in H. injection H as <- _ _.
    split; [tauto|]. intros k. intuition.
  - apply individual_passes_step_inv in H.
    destruct H as [b1 [s1 [l1 [l2 [H1 H2]]]]].
    apply IH in H2. apply individual_loop_keys in H1.
    destruct H1 as [I1 K1], H2 as [I2 K2]. split; [tauto|].
    intros k. rewrite K2, K1.
    assert (Hn : S n <> 0%nat) by discriminate. tauto.
Qed.

Lemma individual_passes_no_schema net :
  (forall ty, Schema_InferCost ty = None) ->
  forall n i0 b s b' s' l,
    yields (for_loop n i0
              (fun i b0 =>
                 ResetEvent_loop 0 (operators_ net) ;;;
                 individual_loop elapsed_ms Schema_InferCost (net_def_ net)
                   i 0 (operators_ net) b0) b) s b' s' l ->
    flops_per_op_type b' = flops_per_op_type b /\
    memory_bytes_per_op_type b' = memory_bytes_per_op_type b /\
    param_bytes_per_op_type b' = param_bytes_per_op_type b.
Proof.
  intros Hnone. induction n as [|n IH]; intros i0 b s b' s' l H.
  - unfold yields in H. cbn in H. injection H as <- _ _. repeat split.
  - apply individual_passes_step_inv in H.
    destruct H as [b1 [s1 [l1 [l2 [H1 H2]]]]].
    apply IH in H2. apply (individual_loop_no_schema _ _ _ Hnone) in H1.
    destruct H1 as [A1 [A2 A3]], H2 as [B1 [B2 B3]].
    repeat split; congruence.
Qed.

Lemma yields_operator_lines_map net_def main_runs b ops :
  forall idx s,
    yields (operator_lines net_def main_runs b idx ops) s tt s
      (map (fun p => operator_line net_def main_runs b (fst p) (snd p))
         (combine (seq idx (List.length ops)) ops)).
Proof.
  induction ops as [|o ops IH]; intros idx s;
    cbn [operator_lines List.length seq combine map fst snd].
  - apply yields_ret.
  - apply (yields_bind _ _ s tt s [_] tt s _); [apply yields_emit|apply IH].
Qed.

Lemma nth_error_combine_seq {A} (l : list A) :
  forall a i x,
    nth_error l i = Some x ->
    nth_error (combine (seq a (List.length l)) l) i = Some ((a + i)%nat, x).
Proof.
  induction l as [|y l IH]; intros a i x H.
  - destruct i; discriminate H.
  - destruct i as [|i]; cbn [List.length seq combine nth_error] in *.
    + injection H as ->. rewrite Nat.add_0_r. reflexivity.
    + rewrite (IH (S a) i x H). f_equal. f_equal. lia.
Qed.

(** The part under [if (run_individual)], read backwards. *)
Lemma run_individual_part_inv net (main_runs : Z) b s b' s' l :
  yields (run_individual_part elapsed_ms std_sort Schema_InferCost net
            main_runs b) s b' s' l ->
  exists l1,
    yields (for_loop (Z.to_nat main_runs) 0
              (fun i b0 =>
                 ResetEvent_loop 0 (operators_ net) ;;;
                 individual_loop elapsed_ms Schema_InferCost (net_def_ net)
                   i 0 (operators_ net) b0) b) s b' s' l1 /\
    l = l1
        ++ map (fun p => operator_line (net_def_ net) main_runs b'
                           (fst p) (snd p))
             (combine (seq 0 (List.length (operators_ net))) (operators_ net))
        ++ log (type_report std_sort main_runs b' s').
Proof.
  unfold run_individual_part. intros H.
  apply yields_bind_inv in H. destruct H as [b1 [s1 [l1 [l2 [Hp [H ->]]]]]].
  apply yields_bind_inv in H. destruct H as [u [s2 [l3 [l4 [Ho [H ->]]]]]].
  destruct (yields_det _ _ _ _ _ _ _ _ Ho
              (yields_operator_lines_map (net_def_ net) main_runs b1
                 (operators_ net) 0%nat s1)) as [_ [-> ->]].
  apply yields_bind_inv in H. destruct H as [u2 [s3 [l5 [l6 [Hr [H ->]]]]]].
  pose proof (yields_of_value _ _ _
                (yields_value _ _ _ _ _
                   (yields_type_report std_sort main_runs b1 s1))) as Hr'.
  destruct (yields_det _ _ _ _ _ _ _ _ Hr Hr') as [_ [-> ->]].
  pose proof (yields_type_report std_sort main_runs b1 s1) as Y.
  unfold yields in Y. rewrite Y in H. cbn [after] in H.
  unfold yields in H. cbn in H. injection H as -> -> <-.
  exists l1. split; [exact Hp|].
  rewrite Y. cbn [log after]. rewrite app_nil_r. reflexivity.
Qed.

Lemma run_individual_part_costs net (main_runs : Z) s b' :
  1 <= main_runs ->
  value (run_individual_part elapsed_ms std_sort Schema_InferCost net
           main_runs (bench_init (List.length (operators_ net))) s)
  = Returned b' ->
  let costs := costs_from Schema_InferCost (net_def_ net) (operators_ net)
                 (workspace s) in
  flops_per_op b' = map flops costs /\
  memory_bytes_per_op b' = map bytes_moved costs /\
  param_bytes_per_op b' = map params_bytes costs.
Proof.
  intros HM V costs. apply yields_of_value in V.
  apply run_individual_part_inv in V. destruct V as [l1 [V _]].
  destruct (Z.to_nat main_runs) as [|n] eqn:En; [lia|].
  apply individual_passes_step_inv in V.
  destruct V as [b1 [s1 [l2 [l3 [H1 H2]]]]].
  apply individual_passes_costs_later in H2; [|lia].
  apply individual_loop_costs in H1. cbn [Nat.eqb bench_init flops_per_op
    memory_bytes_per_op param_bytes_per_op app] in H1.
  destruct H1 as [A1 [A2 A3]], H2 as [B1 [B2 B3]].
  subst costs. repeat split; congruence.
Qed.

(** X10: The costs are inferred on the first individual pass only: for any
    [main_runs >= 1] the cost vectors hold one entry per operator whose type
    has a cost function, in the order of the operators, inferred from the
    input shapes of that first pass; operators without a cost function leave
    no entry. *)
Theorem individual_costs_gathered_once net (main_runs : Z) s b' :
  1 <= main_runs ->
  value (run_individual_part elapsed_ms std_sort Schema_InferCost net
           main_runs (bench_init (List.length (operators_ net))) s)
  = Returned b' ->
  let costs := costs_from Schema_InferCost (net_def_ net) (operators_ net)
                 (workspace s) in
  flops_per_op b' = map flops costs /\
  memory_bytes_per_op b' = map bytes_moved costs /\
  param_bytes_per_op b' = map params_bytes costs.
Proof. exact (run_individual_part_costs net main_runs s b'). Qed.

(** While every operator so far has a cost function, the entry at the
    position of an operator is the cost inferred for that operator. *)
Lemma costs_from_own net_def ops :
  forall (w : Workspace) idx o,
    nth_error ops idx = Some o ->
    (forall j o', (j <= idx)%nat -> nth_error ops j = Some o' ->
       Schema_InferCost (OperatorDef.type (debug_def net_def o')) <> None) ->
    exists InferCost,
      Schema_InferCost (OperatorDef.type (debug_def net_def o))
      = Some InferCost /\
      nth_error (costs_from Schema_InferCost net_def ops w) idx =
        Some (InferCost (debug_def net_def o)
                (OperatorBase.InputTensorShapes o
                   (effects (firstn idx ops) w))).
Proof.
  induction ops as [|o' rest IH]; intros w idx o Hnth Hall.
  - destruct idx; discriminate Hnth.
  - cbn [costs_from].
    destruct (Schema_InferCost (OperatorDef.type (debug_def net_def o')))
      as [InferCost'|] eqn:Ho'.
    2:{ exfalso. apply (Hall 0%nat o'); [lia|reflexivity|exact Ho']. }
    destruct idx as [|idx]; cbn [nth_error firstn effects fold_left app] in *.
    + injection Hnth as <-. exists InferCost'. split; [exact Ho'|reflexivity].
    + apply (IH (snd (OperatorBase.Run o' w)) idx o Hnth).
      intros j o'' Hj Hn. apply (Hall (S j) o''); [lia|exact Hn].
Qed.

(** X11: The line logged for the operator at [idx] shows the flops and bytes found
    at position [idx] of the cost vectors, that is, of the [idx]-th operator
    that has a cost function, and none when there are not that many or the
    value found is 0.  When
    every operator at the positions 0 to [idx] has a cost function, that
    entry is the cost inferred for the operator at [idx] itself, from the
    input shapes it has when its turn comes in the first pass. *)
Theorem operator_line_costs_by_rank net (main_runs : Z) s b' (idx : nat)
  (o : OperatorBase.t Workspace) :
  1 <= main_runs ->
  value (run_individual_part elapsed_ms std_sort Schema_InferCost net
           main_runs (bench_init (List.length (operators_ net))) s)
  = Returned b' ->
  nth_error (operators_ net) idx = Some o ->
  let costs := costs_from Schema_InferCost (net_def_ net) (operators_ net)
                 (workspace s) in
  let d := debug_def (net_def_ net) o in
  let t := nth idx (time_per_op b') F32.zero in
  In (LogInfo_Operator idx (print_name_of d) (OperatorDef.type d)
        (F32.div t (F32.of_int main_runs))
        (match nonzero_at (map flops costs) idx with
         | Some f =>
             Some (F64.mul F64.lit_1e_9 (F64.of_int f),
                   F64.div (F64.mul F64.lit_1e_6 (F64.of_int f))
                     (F64.of_float t))
         | None => None
         end)
        (match nonzero_at (map bytes_moved costs) idx with
         | Some m => Some (F64.mul F64.lit_1e_6 (F64.of_int m))
         | None => None
         end)
        (match nonzero_at (map params_bytes costs) idx with
         | Some p => Some (F64.mul F64.lit_1e_6 (F64.of_int p))
         | None => None
         end))
     (log (run_individual_part elapsed_ms std_sort Schema_InferCost net
             main_runs (bench_init (List.length (operators_ net))) s)) /\
  ((forall j o', (j <= idx)%nat -> nth_error (operators_ net) j = Some o' ->
      Schema_InferCost (OperatorDef.type (debug_def (net_def_ net) o'))
      <> None) ->
   exists InferCost,
     Schema_InferCost (OperatorDef.type d) = Some InferCost /\
     nth_error costs idx =
       Some (InferCost d
               (OperatorBase.InputTensorShapes o
                  (effects (firstn idx (operators_ net)) (workspace s))))).
Proof.
  intros HM V Hnth costs d t.
  destruct (run_individual_part_costs net main_runs s b' HM V)
    as [C1 [C2 C3]]. fold costs in C1, C2, C3.
  split.
  - apply yields_of_value in V.
    apply run_individual_part_inv in V. destruct V as [l1 [_ ->]].
    apply in_or_app. right. apply in_or_app. left.
    apply in_map_iff. exists (idx, o). split.
    + cbn [fst snd]. unfold operator_line. rewrite C1, C2, C3. reflexivity.
    + apply (nth_error_In _ idx).
      apply (nth_error_combine_seq (operators_ net) 0%nat idx o Hnth).
  - intros Hall.
    exact (costs_from_own (net_def_ net) (operators_ net) (workspace s) idx o
             Hnth Hall).
Qed.

(** X12: After the individual passes ([main_runs >= 1]) the map of times per type
    has exactly the types of the operators as keys, each once, in increasing
    order, however many operators share a type. *)
Theorem individual_time_types net (main_runs : Z) s b' :
  1 <= main_runs ->
  value (run_individual_part elapsed_ms std_sort Schema_InferCost net
           main_runs (bench_init (List.length (operators_ net))) s)
  = Returned b' ->
  keys_increasing (time_per_op_type b') /\
  forall k,
    In k (map fst (time_per_op_type b')) <->
    In k (map (fun o => OperatorDef.type (debug_def (net_def_ net) o))
            (operators_ net)).
Proof.
  intros HM V. apply yields_of_value in V.
  apply run_individual_part_inv in V. destruct V as [l1 [V _]].
  apply individual_passes_keys in V. destruct V as [Hinc Hin].
  split.
  - apply Hinc. constructor.
  - intros k. rewrite Hin. cbn [bench_init time_per_op_type map In].
    assert (Z.to_nat main_runs <> 0%nat) by lia. tauto.
Qed.

(** X13: When no operator type has a cost function, the report ends with the
    section of the times followed by three sections without rows and with a
    total of 0. *)
Theorem report_without_cost_functions net (main_runs : Z) s b' :
  sort_contract std_sort ->
  (forall ty, Schema_InferCost ty = None) ->
  value (run_individual_part elapsed_ms std_sort Schema_InferCost net
           main_runs (bench_init (List.length (operators_ net))) s)
  = Returned b' ->
  exists pre,
    log (run_individual_part elapsed_ms std_sort Schema_InferCost net
           main_runs (bench_init (List.length (operators_ net))) s)
    = pre
      ++ metric_report std_sort "Time"
           (F64.div F64.lit_1 (F64.of_int main_runs)) "ms"
           (time_per_op_type b')
      ++ [LogInfo "FLOP per operator type:";
          LogInfo_MetricTotal F32.zero "GFLOP";
          LogInfo "Feature Memory per operator type:";
          LogInfo_MetricTotal F32.zero "MB";
          LogInfo "Parameter Memory per operator type:";
          LogInfo_MetricTotal F32.zero "MB"].
Proof.
  intros Hsort Hnone V. apply yields_of_value in V.
  pose proof V as V0.
  apply run_individual_part_inv in V. destruct V as [l1 [V Hl]].
  apply (individual_passes_no_schema _ Hnone) in V.
  cbn [bench_init flops_per_op_type memory_bytes_per_op_type
       param_bytes_per_op_type] in V. destruct V as [E1 [E2 E3]].
  assert (Hnil : std_sort PairLargerThan [] = []).
  { destruct (Hsort [] (Forall_nil _)) as [Hp _].
    apply Permutation_nil in Hp. exact Hp. }
  rewrite Hl.
  pose proof (yields_type_report std_sort main_runs b' (after
    (run_individual_part elapsed_ms std_sort Schema_InferCost net main_runs
       (bench_init (List.length (operators_ net))) s))) as Y.
  unfold yields in Y. rewrite Y. cbn [log]. rewrite E1, E2, E3.
  exists (l1 ++ map (fun p => operator_line (net_def_ net) main_runs b'
                              (fst p) (snd p))
                  (combine (seq 0 (List.length (operators_ net)))
                     (operators_ net))).
  rewrite <- !app_assoc. do 3 f_equal.
  unfold metric_report. rewrite Hnil. reflexivity.
Qed.

End BenchContents.

(** ** The report per operator type, in the benchmark *)

Section ReportFacts.
Context {Workspace : Type}.

(** C9, as the code has it: the last lines that the part under
    [run_individual] logs are the report, made from the maps as they are
    after the individual runs: one section per metric, for time, flops,
    feature memory and parameter memory in this order, each made of a header,
    one row per operator type and the total as last line.  The total is the
    float sum of the normalized values in the order of the listing; the
    percentage of a row is 0 unless the total is positive (so it is 0 when
    the total is zero), and then it is the float nearest to
    ((100 * value) * normalizer) / total, computed in double precision.  The
    rows are listed in the order in which [std::sort] with [PairLargerThan]
    leaves the vector.  With the [std::sort] of libstdc++ and no NaN among
    the aggregated values, that is: each operator type of the map once, no
    value larger than one listed before it, and, when the metric has at most
    16 types, types of equal value in the order of the traversal. *)
Theorem type_report_sections
  (std_sort : (string * F32.t -> string * F32.t -> bool) ->
              list (string * F32.t) -> list (string * F32.t))
  (main_runs : Z) :
  (forall (b : bench) (s : world Workspace),
     log (type_report std_sort main_runs b s)
     = reported_sections main_runs (std_sort PairLargerThan) b) /\
  (forall elapsed_ms Schema_InferCost (net : SimpleNet Workspace) b0 s b',
     value (run_individual_part elapsed_ms std_sort Schema_InferCost net
              main_runs b0 s) = Returned b' ->
     exists before,
       log (run_individual_part elapsed_ms std_sort Schema_InferCost net
              main_runs b0 s)
       = before ++ reported_sections main_runs (std_sort PairLargerThan) b') /\
  (forall item,
     no_nan item ->
     exists listed,
       libstdcxx.sort ("", F32.zero) PairLargerThan item = Some listed /\
       libstdcxx_std_sort PairLargerThan item = listed /\
       Permutation item listed /\
       (forall i j x y,
          (i < j)%nat ->
          nth_error listed i = Some x -> nth_error listed j = Some y ->
          SFltb (snd x) (snd y) = false) /\
       ((List.length item <= 16)%nat ->
        ties_in_traversal_order item listed)) /\
  (forall normalizer total value,
     SFeqb total (S754_zero false) = true ->
     reported_percent normalizer total value = S754_zero false).
Proof.
  assert (R : forall (b : bench) (s : world Workspace),
            log (type_report std_sort main_runs b s)
            = reported_sections main_runs (std_sort PairLargerThan) b).
  { intros b s. pose proof (yields_type_report std_sort main_runs b s) as H.
    unfold yields in H. rewrite H. cbn [log].
    rewrite !report_section_is_metric_report. reflexivity. }
  split; [exact R|]. split; [|split].
  - intros elapsed_ms Schema_InferCost net b0 s b' V.
    apply yields_of_value in V.
    apply run_individual_part_inv in V. destruct V as [l1 [_ ->]].
    rewrite R, app_assoc. eexists. reflexivity.
  - intros item Hnan.
    destruct (libstdcxx_sort_sorts item Hnan) as [listed [E [E' [Hp Hd]]]].
    exists listed. split; [exact E|]. split; [exact E'|].
    split; [exact Hp|]. split.
    + intros i j x y Hij Hi Hj.
      exact (StronglySorted_nth_error _ _ Hd i j x y Hij Hi Hj).
    + intros Hlen. rewrite <- E'. apply libstdcxx_sort_small; assumption.
  - apply reported_percent_zero_total.
Qed.

End ReportFacts.

(** ** Run in the build with CAFFE2_USE_NVTX *)

Lemma events_of_app (l1 l2 : list (event + nvtx_call)) :
  events_of (l1 ++ l2) = events_of l1 ++ events_of l2.
Proof. apply flat_map_app. Qed.

Lemma calls_of_app (l1 l2 : list (event + nvtx_call)) :
  calls_of (l1 ++ l2) = calls_of l1 ++ calls_of l2.
Proof. apply flat_map_app. Qed.

Lemma events_of_inl (l : list event) : events_of (map inl l) = l.
Proof.
  induction l as [|e l IH]; cbn [map events_of flat_map app];
    [reflexivity|]. f_equal. exact IH.
Qed.

Lemma calls_of_inl (l : list event) : calls_of (map inl l) = [].
Proof.
  induction l as [|e l IH]; cbn [map calls_of flat_map app];
    [reflexivity|exact IH].
Qed.

Lemma events_of_inl_cons e (l : list (event + nvtx_call)) :
  events_of (inl e :: l) = e :: events_of l.
Proof. reflexivity. Qed.

Lemma events_of_inr_cons c (l : list (event + nvtx_call)) :
  events_of (inr c :: l) = events_of l.
Proof. reflexivity. Qed.

Lemma calls_of_inl_cons e (l : list (event + nvtx_call)) :
  calls_of (inl e :: l) = calls_of l.
Proof. reflexivity. Qed.

Lemma calls_of_inr_cons c (l : list (event + nvtx_call)) :
  calls_of (inr c :: l) = c :: calls_of l.
Proof. reflexivity. Qed.

Lemma started_messages_pair col msg r r' (l : list nvtx_call) :
  started_messages (nvtxRangeStartEx col msg r :: nvtxRangeEnd r' :: l)
  = msg :: started_messages l.
Proof. reflexivity. Qed.

Lemma invoked_cons_run idx res (l : list event) :
  invoked (OperatorRun idx res :: l) = idx :: invoked l.
Proof. reflexivity. Qed.

Section NvtxFacts.
Context {Workspace : Type}.
Implicit Types (ops : list (OperatorBase.t Workspace)) (s : world Workspace).

Lemma Run_loop_step_true net_def idx (o : OperatorBase.t Workspace) rest s :
  fst (OperatorBase.Run o (workspace s)) = true ->
  Run_loop net_def idx (o :: rest) s =
    let r := Run_loop net_def (S idx) rest
               {| workspace := snd (OperatorBase.Run o (workspace s));
                  timer_reads := timer_reads s |} in
    {| value := value r; after := after r;
       log := OperatorRun idx true :: log r |}.
Proof.
  intros Ho. cbn [Run_loop]. unfold bind at 1.
  cbn [call_Run value after log]. rewrite Ho. reflexivity.
Qed.

Lemma Run_loop_step_false net_def idx (o : OperatorBase.t Workspace) rest s :
  fst (OperatorBase.Run o (workspace s)) = false ->
  Run_loop net_def idx (o :: rest) s =
    {| value := Returned false;
       after := {| workspace := snd (OperatorBase.Run o (workspace s));
                   timer_reads := timer_reads s |};
       log := [OperatorRun idx false;
               LogError_OperatorFailed (debug_def net_def o)] |}.
Proof.
  intros Ho. cbn [Run_loop]. unfold bind.
  cbn [call_Run emit ret value after log]. rewrite Ho. reflexivity.
Qed.

Lemma Run_loop_returns net_def ops :
  forall idx s, exists b, value (Run_loop net_def idx ops s) = Returned b.
Proof.
  intros idx s. pose proof (Run_loop_end net_def ops idx s) as H.
  remember (Run_loop net_def idx ops s) as r. clear Heqr.
  destruct H; cbn [value]; eauto.
Qed.

Lemma Run_from_loop (net : SimpleNet Workspace) s b :
  value (Run_loop (net_def_ net) 0 (operators_ net) s) = Returned b ->
  Run net s =
    {| value := Returned b;
       after := after (Run_loop (net_def_ net) 0 (operators_ net) s);
       log := ObserverStart
              :: log (Run_loop (net_def_ net) 0 (operators_ net) s)
              ++ (if b then [ObserverStop] else []) |}.
Proof.
  intros H. unfold Run, StartAllObservers, StopAllObservers.
  unfold bind, emit, ret. cbn [value after log]. rewrite H.
  destruct b; cbn [value after log app]; reflexivity.
Qed.

(** With the flag off the loop makes no library call and is the loop of
    [Run]. *)
Lemma Run_loop_nvtx_off (nvtx_id : nat -> Z) net_def ops :
  forall idx s n,
  exists b,
    value (Run_loop net_def idx ops s) = Returned b /\
    Run_loop_nvtx false nvtx_id net_def idx ops (workspace s) n =
      (Finished b, workspace (after (Run_loop net_def idx ops s)), n,
       map inl (log (Run_loop net_def idx ops s))).
Proof.
  induction ops as [|o rest IH]; intros idx s n.
  - exists true. split; reflexivity.
  - cbn [Run_loop_nvtx ProfiledRange_new ProfiledRange_delete negb map app].
    destruct (fst (OperatorBase.Run o (workspace s))) eqn:Ho; cbn [negb].
    + rewrite (Run_loop_step_true net_def idx o rest s Ho). cbn zeta.
      destruct (IH (S idx)
                  {| workspace := snd (OperatorBase.Run o (workspace s));
                     timer_reads := timer_reads s |} n) as [b [Hv He]].
      cbn [workspace] in He. rewrite He. exists b.
      split; [exact Hv|reflexivity].
    + rewrite (Run_loop_step_false net_def idx o rest s Ho).
      exists false. split; reflexivity.
Qed.

(** With the flag on and valid range ids, the loop is the loop of [Run] with a
    range started before and ended after each invocation. *)
Lemma Run_loop_nvtx_on (nvtx_id : nat -> Z) net_def ops :
  (forall k, nvtx_id k <> 0) ->
  forall idx s n,
  exists b trace,
    value (Run_loop net_def idx ops s) = Returned b /\
    Run_loop_nvtx true nvtx_id net_def idx ops (workspace s) n =
      (Finished b, workspace (after (Run_loop net_def idx ops s)),
       (n + List.length (invoked (log (Run_loop net_def idx ops s))))%nat,
       trace) /\
    events_of trace = log (Run_loop net_def idx ops s) /\
    ranges_paired (calls_of trace) /\
    started_messages (calls_of trace) =
      map (fun o => OperatorDef.type (debug_def net_def o))
        (firstn (List.length (invoked (log (Run_loop net_def idx ops s))))
           ops).
Proof.
  intros Hids.
  induction ops as [|o rest IH]; intros idx s n.
  - exists true, []. cbn. rewrite Nat.add_0_r. repeat split.
  - cbn [Run_loop_nvtx ProfiledRange_new ProfiledRange_delete negb].
    destruct (Z.eqb_spec (nvtx_id n) 0) as [E|_]; [destruct (Hids n E)|].
    destruct (fst (OperatorBase.Run o (workspace s))) eqn:Ho; cbn [negb].
    + rewrite (Run_loop_step_true net_def idx o rest s Ho). cbn zeta.
      destruct (IH (S idx)
                  {| workspace := snd (OperatorBase.Run o (workspace s));
                     timer_reads := timer_reads s |} (S n))
        as [b [trace [Hv [He [Hev [Hp Hm]]]]]].
      cbn [workspace] in He.
      remember (Run_loop net_def (S idx) rest
                  {| workspace := snd (OperatorBase.Run o (workspace s));
                     timer_reads := timer_reads s |}) as r'.
      rewrite He. cbn [value after log map app].
      exists b,
        (inr (nvtxRangeStartEx kRunColor
                (OperatorDef.type (debug_def net_def o)) (nvtx_id n))
         :: inl (OperatorRun idx true)
         :: inr (nvtxRangeEnd (nvtx_id n)) :: trace).
      rewrite invoked_cons_run. cbn [List.length firstn map].
      rewrite events_of_inr_cons, events_of_inl_cons, events_of_inr_cons.
      rewrite calls_of_inr_cons, calls_of_inl_cons, calls_of_inr_cons.
      rewrite started_messages_pair, Hev, Hm. cbn [ranges_paired].
      rewrite Nat.add_succ_r.
      split; [exact Hv|]. split; [reflexivity|].
      split; [reflexivity|]. split; [split; [reflexivity|exact Hp]|].
      reflexivity.
    + rewrite (Run_loop_step_false net_def idx o rest s Ho).
      cbn [value after log workspace map app].
      exists false,
        [inr (nvtxRangeStartEx kRunColor
                (OperatorDef.type (debug_def net_def o)) (nvtx_id n));
         inl (OperatorRun idx false);
         inl (LogError_OperatorFailed (debug_def net_def o));
         inr (nvtxRangeEnd (nvtx_id n))].
      rewrite invoked_cons_run. cbn [invoked flat_map app List.length firstn map].
      rewrite Nat.add_1_r.
      split; [reflexivity|]. split; [reflexivity|].
      cbn. repeat split.
Qed.

(** The same loop, with the place of every library call in the trace. *)
Lemma Run_loop_nvtx_trace (nvtx_id : nat -> Z) net_def ops :
  (forall k, nvtx_id k <> 0) ->
  forall idx (w : Workspace) n,
    (succeed_in_sequence ops w /\
     Run_loop_nvtx true nvtx_id net_def idx ops w n =
       (Finished true, effects ops w, (n + List.length ops)%nat,
        ranged_runs nvtx_id net_def idx n ops))
    \/ (exists k o,
          nth_error ops k = Some o /\
          succeed_in_sequence (firstn k ops) w /\
          fst (OperatorBase.Run o (effects (firstn k ops) w)) = false /\
          Run_loop_nvtx true nvtx_id net_def idx ops w n =
            (Finished false,
             snd (OperatorBase.Run o (effects (firstn k ops) w)),
             (n + S k)%nat,
             ranged_runs nvtx_id net_def idx n (firstn k ops)
             ++ in_range net_def o (nvtx_id (n + k)%nat)
                  [OperatorRun (idx + k) false;
                   LogError_OperatorFailed (debug_def net_def o)])).
Proof.
  intros Hids.
  induction ops as [|o rest IH]; intros idx w n.
  - left. split; [exact I|]. cbn. rewrite Nat.add_0_r. reflexivity.
  - cbn [Run_loop_nvtx ProfiledRange_new ProfiledRange_delete negb].
    destruct (Z.eqb_spec (nvtx_id n) 0) as [E|_]; [destruct (Hids n E)|].
    destruct (fst (OperatorBase.Run o w)) eqn:Ho; cbn [negb].
    + destruct (IH (S idx) (snd (OperatorBase.Run o w)) (S n))
        as [[Hs He] | [k [o' [Hnth [Hs [Hf He]]]]]]; rewrite He.
      * left. split; [split; assumption|].
        cbn [List.length effects fold_left ranged_runs in_range map app].
        rewrite Nat.add_succ_r. reflexivity.
      * right. exists (S k), o'.
        cbn [nth_error firstn succeed_in_sequence effects fold_left
             ranged_runs in_range map app].
        split; [exact Hnth|]. split; [split; assumption|].
        split; [exact Hf|].
        replace (S n + S k)%nat with (n + S (S k))%nat by lia.
        replace (S n + k)%nat with (n + S k)%nat by lia.
        replace (S idx + k)%nat with (idx + S k)%nat by lia.
        reflexivity.
    + right. exists 0%nat, o.
      cbn [nth_error firstn succeed_in_sequence effects fold_left
           ranged_runs in_range map app].
      rewrite !Nat.add_0_r, Nat.add_1_r.
      split; [reflexivity|]. split; [exact I|]. split; [exact Ho|].
      reflexivity.
Qed.

(** X14: With [FLAGS_caffe2_use_nvtx] off, [Run] of the NVTX build makes no call
    into the profiling library and does what [Run] of the other build does:
    the same result, workspace and events. *)
Theorem Run_nvtx_flag_off (nvtx_id : nat -> Z) (net : SimpleNet Workspace)
  s (n : nat) :
  exists b,
    value (Run net s) = Returned b /\
    Run_nvtx false nvtx_id net (workspace s) n =
      (Finished b, workspace (after (Run net s)), n,
       map inl (log (Run net s))).
Proof.
  destruct (Run_loop_nvtx_off nvtx_id (net_def_ net) (operators_ net)
              0%nat s n) as [b [Hv He]].
  exists b. rewrite (Run_from_loop net s b Hv). cbn [value after log].
  split; [reflexivity|]. unfold Run_nvtx. rewrite He.
  destruct b; cbn [map]; rewrite ?map_app; cbn [map];
    rewrite ?app_nil_r; reflexivity.
Qed.

(** X15: With the flag on and every range id valid, [Run] of the NVTX build has
    the result, workspace and events of [Run], and its trace is the start
    notification followed, for each operator invoked, by the start of one
    range with the type of the operator as message, the invocation, and the
    end of that same range, in this order; for the operator that fails the
    error line comes between its invocation and the end of its range, and
    nothing follows; after the last operator of a successful pass comes the
    stop notification.  So every range encloses the invocation of its own
    operator and no range is left open on any path. *)
Theorem Run_nvtx_ranges_closed (nvtx_id : nat -> Z)
  (net : SimpleNet Workspace) s (n : nat) :
  (forall k, nvtx_id k <> 0) ->
  exists b trace,
    value (Run net s) = Returned b /\
    Run_nvtx true nvtx_id net (workspace s) n =
      (Finished b, workspace (after (Run net s)),
       (n + List.length (invoked (log (Run net s))))%nat, trace) /\
    events_of trace = log (Run net s) /\
    ranges_paired (calls_of trace) /\
    started_messages (calls_of trace) =
      map (fun o => OperatorDef.type (debug_def (net_def_ net) o))
        (firstn (List.length (invoked (log (Run net s)))) (operators_ net)) /\
    (b = true ->
     trace =
       inl ObserverStart
       :: ranged_runs nvtx_id (net_def_ net) 0 n (operators_ net)
       ++ [inl ObserverStop]) /\
    (b = false ->
     exists k o,
       nth_error (operators_ net) k = Some o /\
       trace =
         inl ObserverStart
         :: ranged_runs nvtx_id (net_def_ net) 0 n
              (firstn k (operators_ net))
         ++ [inr (nvtxRangeStartEx kRunColor
                    (OperatorDef.type (debug_def (net_def_ net) o))
                    (nvtx_id (n + k)%nat));
             inl (OperatorRun k false);
             inl (LogError_OperatorFailed (debug_def (net_def_ net) o));
             inr (nvtxRangeEnd (nvtx_id (n + k)%nat))]).
Proof.
  intros Hids.
  destruct (Run_loop_nvtx_on nvtx_id (net_def_ net) (operators_ net) Hids
              0%nat s n) as [b [trace [Hv [He [Hev [Hp Hm]]]]]].
  rewrite (Run_from_loop net s b Hv). cbn [value after log].
  assert (Hinv : invoked
                   (ObserverStart
                    :: log (Run_loop (net_def_ net) 0 (operators_ net) s)
                    ++ (if b then [ObserverStop] else []))
                 = invoked (log (Run_loop (net_def_ net) 0 (operators_ net) s))).
  { change (ObserverStart :: ?l) with ([ObserverStart] ++ l).
    rewrite !invoked_app. destruct b; cbn; rewrite app_nil_r; reflexivity. }
  rewrite Hinv. unfold Run_nvtx.
  pose proof (Run_loop_nvtx_trace nvtx_id (net_def_ net) (operators_ net) Hids
                0%nat (workspace s) n) as Ht.
  rewrite He in Ht. rewrite He.
  exists b. destruct b.
  - eexists. split; [reflexivity|]. split; [reflexivity|].
    cbn [events_of calls_of flat_map app].
    fold (events_of (trace ++ [inl ObserverStop])).
    fold (calls_of (trace ++ [inl ObserverStop])).
    rewrite events_of_app, calls_of_app, Hev. cbn [events_of calls_of flat_map app].
    rewrite app_nil_r.
    split; [reflexivity|]. split; [exact Hp|]. split; [exact Hm|].
    split; [|discriminate]. intros _.
    destruct Ht as [[_ Ht] | [k [o [_ [_ [_ Ht]]]]]]; [|discriminate Ht].
    injection Ht as _ _ ->. reflexivity.
  - eexists. split; [reflexivity|]. split; [reflexivity|].
    cbn [events_of calls_of flat_map app].
    fold (events_of trace). fold (calls_of trace).
    rewrite Hev, app_nil_r.
    split; [reflexivity|]. split; [exact Hp|]. split; [exact Hm|].
    split; [discriminate|]. intros _.
    destruct Ht as [[_ Ht] | [k [o [Hnth [_ [_ Ht]]]]]]; [discriminate Ht|].
    exists k, o. split; [exact Hnth|].
    injection Ht as _ _ ->. reflexivity.
Qed.

Lemma Run_loop_nvtx_invalid (nvtx_id : nat -> Z) net_def ops :
  forall idx (w : Workspace) n k o,
    nth_error ops k = Some o ->
    succeed_in_sequence (firstn k ops) w ->
    (forall j, (j < k)%nat -> nvtx_id (n + j)%nat <> 0) ->
    nvtx_id (n + k)%nat = 0 ->
    exists trace paired,
      Run_loop_nvtx true nvtx_id net_def idx ops w n =
        (StartRangeInvalid, effects (firstn k ops) w, S (n + k), trace) /\
      events_of trace = successful_runs idx k /\
      calls_of trace =
        paired ++ [nvtxRangeStartEx kRunColor
                     (OperatorDef.type (debug_def net_def o)) 0] /\
      ranges_paired paired.
Proof.
  induction ops as [|o' rest IH]; intros idx w n k o Hnth Hs Hvalid Hzero.
  - destruct k; discriminate Hnth.
  - cbn [Run_loop_nvtx ProfiledRange_new ProfiledRange_delete negb].
    destruct k as [|k]; cbn [nth_error firstn] in *.
    + injection Hnth as ->. rewrite Nat.add_0_r in *. rewrite Hzero.
      cbn [Z.eqb map effects fold_left].
      eexists. exists []. split; [reflexivity|]. repeat split.
    + destruct Hs as [Ho' Hrest].
      destruct (Z.eqb_spec (nvtx_id n) 0) as [E|_].
      { exfalso. apply (Hvalid 0%nat); [lia|]. rewrite Nat.add_0_r. exact E. }
      rewrite Ho'. cbn [negb].
      destruct (IH (S idx) (snd (OperatorBase.Run o' w)) (S n) k o Hnth Hrest)
        as [trace [paired [He [Hev [Hc Hp]]]]].
      * intros j Hj. replace (S n + j)%nat with (n + S j)%nat by lia.
        apply Hvalid. lia.
      * replace (S n + k)%nat with (n + S k)%nat by lia. exact Hzero.
      * rewrite He. cbn [map app effects fold_left].
        exists (inr (nvtxRangeStartEx kRunColor
                       (OperatorDef.type (debug_def net_def o')) (nvtx_id n))
                :: inl (OperatorRun idx true)
                :: inr (nvtxRangeEnd (nvtx_id n)) :: trace),
               (nvtxRangeStartEx kRunColor
                  (OperatorDef.type (debug_def net_def o')) (nvtx_id n)
                :: nvtxRangeEnd (nvtx_id n) :: paired).
        rewrite events_of_inr_cons, events_of_inl_cons, events_of_inr_cons.
        rewrite calls_of_inr_cons, calls_of_inl_cons, calls_of_inr_cons.
        rewrite Hev, Hc, successful_runs_S. cbn [ranges_paired app].
        replace (S (S n + k)) with (S (n + S k)) by lia.
        repeat split. exact Hp.
Qed.

(** X16: With the flag on, when the library answers the start of the range of the
    operator at [k] with the id 0 after valid ids for the operators before,
    which succeed, [Run] of the NVTX build is left by the exception of
    [ProfiledRange]: the operator at [k] is not invoked, the observers are not
    told of a stop, and every range started before has been ended. *)
Theorem Run_nvtx_invalid_range (nvtx_id : nat -> Z)
  (net : SimpleNet Workspace) (w : Workspace) (n k : nat)
  (o : OperatorBase.t Workspace) :
  nth_error (operators_ net) k = Some o ->
  succeed_in_sequence (firstn k (operators_ net)) w ->
  (forall j, (j < k)%nat -> nvtx_id (n + j)%nat <> 0) ->
  nvtx_id (n + k)%nat = 0 ->
  exists trace paired,
    Run_nvtx true nvtx_id net w n =
      (StartRangeInvalid, effects (firstn k (operators_ net)) w,
       S (n + k), trace) /\
    events_of trace = ObserverStart :: successful_runs 0 k /\
    calls_of trace =
      paired ++ [nvtxRangeStartEx kRunColor
                   (OperatorDef.type (debug_def (net_def_ net) o)) 0] /\
    ranges_paired paired.
Proof.
  intros Hnth Hs Hvalid Hzero.
  destruct (Run_loop_nvtx_invalid nvtx_id (net_def_ net) (operators_ net)
              0%nat w n k o Hnth Hs Hvalid Hzero)
    as [trace [paired [He [Hev [Hc Hp]]]]].
  exists (inl ObserverStart :: trace), paired.
  unfold Run_nvtx. rewrite He.
  rewrite events_of_inl_cons, calls_of_inl_cons, Hev, Hc.
  repeat split. exact Hp.
Qed.

End NvtxFacts.

(** ** The further properties at concrete nets *)

(** The report of a net with two operator types, sorted by libstdc++. *)
Lemma type_report_sections_witness :
  row_types (log (type_report libstdcxx_std_sort 1
                    (add_time 0 "Relu" (F32.of_int 2)
                       (add_time 1 "Conv" (F32.of_int 3) (bench_init 2)))
                    Demo.start))
  = ["Conv"; "Relu"] /\
  last (log (type_report libstdcxx_std_sort 1
               (add_time 0 "Relu" (F32.of_int 2)
                  (add_time 1 "Conv" (F32.of_int 3) (bench_init 2)))
               Demo.start)) (LogInfo "")
  = LogInfo_MetricTotal F32.zero "MB".
Proof.
  rewrite (proj1 (type_report_sections libstdcxx_std_sort 1) _ Demo.start).
  split; vm_compute; reflexivity.
Defined.

Lemma Run_stops_at_first_failure_witness :
  value (Run Demo.net_fail_2_of_3 Demo.start) = Returned false /\
  exists k o,
    nth_error (operators_ Demo.net_fail_2_of_3) k = Some o /\
    log (Run Demo.net_fail_2_of_3 Demo.start) =
      ObserverStart :: successful_runs 0 k
      ++ [OperatorRun k false;
          LogError_OperatorFailed
            (debug_def (net_def_ Demo.net_fail_2_of_3) o)].
Proof.
  assert (V : value (Run Demo.net_fail_2_of_3 Demo.start) = Returned false)
    by reflexivity.
  split; [exact V|].
  destruct (Run_stops_at_first_failure Demo.net_fail_2_of_3 Demo.start V)
    as [k [o [Hnth [_ [_ [Hl _]]]]]].
  exists k, o. split; [exact Hnth|exact Hl].
Defined.

Lemma TEST_Benchmark_warmup_failure_witness :
  value (TEST_Benchmark Demo.elapsed_ms Demo.sort_stable Demo.no_schema
           Demo.net_tires 2 1 false Demo.start)
  = Threw (WarmupRunFailed 1).
Proof.
  apply (TEST_Benchmark_warmup_failure Demo.elapsed_ms Demo.sort_stable
           Demo.no_schema Demo.net_tires 2 1 false Demo.start 1).
  - vm_compute. lia.
  - simpl. repeat split.
  - simpl. intros [_ [H _]]. discriminate H.
Defined.

Lemma TEST_Benchmark_main_failure_witness :
  value (TEST_Benchmark Demo.elapsed_ms Demo.sort_stable Demo.no_schema
           Demo.net_tires 1 2 false Demo.start)
  = Threw (MainRunFailed 0).
Proof.
  apply (TEST_Benchmark_main_failure Demo.elapsed_ms Demo.sort_stable
           Demo.no_schema Demo.net_tires 1 2 false Demo.start 0).
  - lia.
  - vm_compute. lia.
  - simpl. repeat split.
  - simpl. intros [_ [H _]]. discriminate H.
Defined.

Lemma TEST_Benchmark_individual_failure_witness :
  value (TEST_Benchmark Demo.elapsed_ms Demo.sort_stable Demo.no_schema
           Demo.net_tires 0 1 true Demo.start)
  = Threw (OperatorHasFailed "t" "Conv").
Proof.
  apply (TEST_Benchmark_individual_failure Demo.elapsed_ms Demo.sort_stable
           Demo.no_schema Demo.net_tires 0 1 Demo.start 0 1
           (Demo.tiring_op "Conv" 1 3)).
  - lia.
  - vm_compute. lia.
  - simpl. repeat split.
  - reflexivity.
  - simpl. repeat split.
  - reflexivity.
Defined.

Lemma TEST_Benchmark_operator_events_witness :
  operator_events
    (log (TEST_Benchmark Demo.elapsed_ms Demo.sort_stable Demo.no_schema
            Demo.net_ok_2 1 1 true Demo.start))
  = [OperatorRun 0 true; OperatorRun 1 true;
     OperatorRun 0 true; OperatorRun 1 true;
     OperatorResetEvent 0; OperatorResetEvent 1;
     OperatorRun 0 true; OperatorRun 1 true].
Proof.
  rewrite (TEST_Benchmark_operator_events Demo.elapsed_ms Demo.sort_stable
             Demo.no_schema Demo.net_ok_2 1 1 true Demo.start).
  - reflexivity.
  - lia.
  - lia.
  - simpl. repeat split.
Defined.

Lemma TEST_Benchmark_world_after_witness :
  workspace (after (TEST_Benchmark Demo.elapsed_ms Demo.sort_stable
                      Demo.no_schema Demo.net_ok_2 1 1 true Demo.start))
  = [0; 1; 0; 1; 0; 1]%nat /\
  timer_reads (after (TEST_Benchmark Demo.elapsed_ms Demo.sort_stable
                        Demo.no_schema Demo.net_ok_2 1 1 true Demo.start))
  = 3%nat.
Proof.
  apply (TEST_Benchmark_world_after Demo.elapsed_ms Demo.sort_stable
           Demo.no_schema Demo.net_ok_2 1 1 true Demo.start).
  - lia.
  - lia.
  - simpl. repeat split.
Defined.

Lemma individual_costs_gathered_once_witness :
  match value (run_individual_part Demo.elapsed_ms Demo.sort_stable
                 Demo.conv_schema Demo.net_shaped 2
                 (bench_init (List.length (operators_ Demo.net_shaped)))
                 Demo.start) with
  | Returned b' => flops_per_op b' = [1]
  | Threw _ => False
  end.
Proof.
  destruct (value (run_individual_part Demo.elapsed_ms Demo.sort_stable
                     Demo.conv_schema Demo.net_shaped 2
                     (bench_init (List.length (operators_ Demo.net_shaped)))
                     Demo.start)) as [b'|e] eqn:V.
  - assert (HM : 1 <= 2) by lia.
    destruct (individual_costs_gathered_once Demo.elapsed_ms Demo.sort_stable
                Demo.conv_schema Demo.net_shaped 2 Demo.start b' HM V)
      as [C _].
    rewrite C. reflexivity.
  - vm_compute in V. discriminate V.
Defined.

Lemma individual_time_types_witness :
  match value (run_individual_part Demo.elapsed_ms Demo.sort_stable
                 Demo.no_schema Demo.net_ok_2 2
                 (bench_init (List.length (operators_ Demo.net_ok_2)))
                 Demo.start) with
  | Returned b' => keys_increasing (time_per_op_type b')
  | Threw _ => False
  end.
Proof.
  destruct (value (run_individual_part Demo.elapsed_ms Demo.sort_stable
                     Demo.no_schema Demo.net_ok_2 2
                     (bench_init (List.length (operators_ Demo.net_ok_2)))
                     Demo.start)) as [b'|e] eqn:V.
  - assert (HM : 1 <= 2) by lia.
    exact (proj1 (individual_time_types Demo.elapsed_ms Demo.sort_stable
                    Demo.no_schema Demo.net_ok_2 2 Demo.start b' HM V)).
  - vm_compute in V. discriminate V.
Defined.

Lemma report_without_cost_functions_witness :
  match value (run_individual_part Demo.elapsed_ms Demo.sort_stable
                 Demo.no_schema Demo.net_ok_2 2
                 (bench_init (List.length (operators_ Demo.net_ok_2)))
                 Demo.start) with
  | Returned b' =>
      exists pre,
        log (run_individual_part Demo.elapsed_ms Demo.sort_stable
               Demo.no_schema Demo.net_ok_2 2
               (bench_init (List.length (operators_ Demo.net_ok_2)))
               Demo.start)
        = pre
          ++ metric_report Demo.sort_stable "Time"
               (F64.div F64.lit_1 (F64.of_int 2)) "ms" (time_per_op_type b')
          ++ [LogInfo "FLOP per operator type:";
              LogInfo_MetricTotal F32.zero "GFLOP";
              LogInfo "Feature Memory per operator type:";
              LogInfo_MetricTotal F32.zero "MB";
              LogInfo "Parameter Memory per operator type:";
              LogInfo_MetricTotal F32.zero "MB"]
  | Threw _ => False
  end.
Proof.
  destruct (value (run_individual_part Demo.elapsed_ms Demo.sort_stable
                     Demo.no_schema Demo.net_ok_2 2
                     (bench_init (List.length (operators_ Demo.net_ok_2)))
                     Demo.start)) as [b'|e] eqn:V.
  - exact (report_without_cost_functions Demo.elapsed_ms Demo.sort_stable
             Demo.no_schema Demo.net_ok_2 2 Demo.start b'
             sort_stable_contract (fun _ => eq_refl) V).
  - vm_compute in V. discriminate V.
Defined.

(** The first operator has no cost function, the second has one: the line of
    the first shows the flops and bytes of the second. *)
Lemma operator_line_costs_by_rank_witness :
  match value (run_individual_part Demo.elapsed_ms Demo.sort_stable
                 Demo.conv_schema Demo.net_shaped 1
                 (bench_init (List.length (operators_ Demo.net_shaped)))
                 Demo.start) with
  | Returned b' =>
      let t := nth 0 (time_per_op b') F32.zero in
      In (LogInfo_Operator 0 "t" "Relu" (F32.div t (F32.of_int 1))
            (Some (F64.mul F64.lit_1e_9 (F64.of_int 1),
                   F64.div (F64.mul F64.lit_1e_6 (F64.of_int 1))
                     (F64.of_float t)))
            (Some (F64.mul F64.lit_1e_6 (F64.of_int 8)))
            (Some (F64.mul F64.lit_1e_6 (F64.of_int 4))))
         (log (run_individual_part Demo.elapsed_ms Demo.sort_stable
                 Demo.conv_schema Demo.net_shaped 1
                 (bench_init (List.length (operators_ Demo.net_shaped)))
                 Demo.start))
  | Threw _ => False
  end.
Proof.
  destruct (value (run_individual_part Demo.elapsed_ms Demo.sort_stable
                     Demo.conv_schema Demo.net_shaped 1
                     (bench_init (List.length (operators_ Demo.net_shaped)))
                     Demo.start)) as [b'|e] eqn:V.
  - assert (HM : 1 <= 1) by lia.
    exact (proj1 (operator_line_costs_by_rank Demo.elapsed_ms
                    Demo.sort_stable Demo.conv_schema Demo.net_shaped 1
                    Demo.start b' 0 (Demo.tiring_op "Relu" 0 100) HM V
                    eq_refl)).
  - vm_compute in V. discriminate V.
Defined.

Lemma Run_nvtx_ranges_closed_witness :
  (forall k, Demo.nvtx_id k <> 0) /\
  ranges_paired
    (calls_of (snd (Run_nvtx true Demo.nvtx_id Demo.net_fail_2_of_3
                      (workspace Demo.start) 0))) /\
  started_messages
    (calls_of (snd (Run_nvtx true Demo.nvtx_id Demo.net_fail_2_of_3
                      (workspace Demo.start) 0)))
  = ["Relu"; "Fail"].
Proof.
  assert (H : forall k, Demo.nvtx_id k <> 0)
    by (intros k; unfold Demo.nvtx_id; lia).
  split; [exact H|].
  destruct (Run_nvtx_ranges_closed Demo.nvtx_id Demo.net_fail_2_of_3
              Demo.start 0 H) as [b [trace [_ [He [_ [Hp [Hm _]]]]]]].
  rewrite He. cbn [snd]. split; [exact Hp|]. rewrite Hm. reflexivity.
Defined.

Lemma Run_nvtx_invalid_range_witness :
  fst (fst (fst (Run_nvtx true Demo.nvtx_id_bad Demo.net_ok_2
                   (workspace Demo.start) 0)))
  = StartRangeInvalid /\
  events_of (snd (Run_nvtx true Demo.nvtx_id_bad Demo.net_ok_2
                    (workspace Demo.start) 0))
  = [ObserverStart; OperatorRun 0 true].
Proof.
  destruct (Run_nvtx_invalid_range Demo.nvtx_id_bad Demo.net_ok_2
              (workspace Demo.start) 0 1 (Demo.ok_op "Conv" 1))
    as [trace [paired [He [Hev _]]]].
  - reflexivity.
  - simpl. repeat split.
  - intros j Hj. assert (j = 0%nat) as -> by lia. discriminate.
  - reflexivity.
  - rewrite He. cbn [fst snd]. split; [reflexivity|exact Hev].
Defined.
